(** * math_sim: expression compiler, virtual CPU, ALU and RAM

    A shallow embedding of math_sim: the front end (lexer.c, parser.c,
    ast.c), the evaluator (eval.c), the middle and back end (ir.c,
    codegen.c, cpu.c, alu.c, memory.c) and the pipeline of main.c, with
    the properties its specification states about them and further
    properties of the code.

    Conventions of the embedding:
    - [word_t] / [uint32_t] values are integers in [0, 2^32); every C
      operation that can leave that range is followed by [to_word].
    - [uint8_t] flags keep their C values 0 and 1.
    - [int] register indices and branch targets, and [long] immediates, are
      integers; the casts of the source are written out where they occur.
    - arrays ([regs], [data]) are lists read with [!!!] and written with
      [<[ _ := _ ]>].
    - [fprintf (stderr, ...); return -1] becomes an error value that
      names the diagnostic; [status_code] gives back the C return value.
    - the source text is a list of characters; a [Node *] that may be
      null is an [option Node]; recursion that C does not bound (the
      parser, the loops of the lexer and of the CPU) takes fuel, and is
      shown to return with the fuel it is given. *)

From Stdlib Require Import ZArith List Lia Bool.
From Stdlib Require Ascii String.
From stdpp Require Import base numbers list.
Import Ascii.AsciiSyntax String.StringSyntax.

Delimit Scope char_scope with char.
Delimit Scope string_scope with string.
Local Open Scope Z_scope.

(** ** Machine words *)

(** [(word_t) x] and [(uint32_t) x]: reduction modulo 2^32. *)
Definition to_word (x : Z) : Z := x mod 2 ^ 32.

(** [(uint8_t) x]. *)
Definition to_u8 (x : Z) : Z := x mod 2 ^ 8.

(** [(int32_t) w] for a word [w], then widened to [long]. *)
Definition sign_extend32 (w : Z) : Z :=
  if w <? 2 ^ 31 then w else w - 2 ^ 32.

(** Results of fallible operations. *)
Inductive outcome (E A : Type) : Type :=
| Ok (a : A)
| Err (e : E).
Arguments Ok {E A} a.
Arguments Err {E A} e.

(** ** alu.h, alu.c *)

Definition WORD_BITS : Z := 32.

Record ALUFlags : Type := mkFlags {
  flagZ : Z;  (* zero     *)
  flagN : Z;  (* negative *)
  flagC : Z;  (* carry    *)
  flagV : Z   (* overflow *)
}.

(** One iteration of the loop of [ripple_add], on the pair
    [(result, carry)] and the bit index [i]. *)
Definition ripple_bit (a b i : Z) (st : Z * Z) : Z * Z :=
  let '(result, carry) := st in
  let a_bit := Z.land (Z.shiftr a i) 1 in
  let b_bit := Z.land (Z.shiftr b i) 1 in
  let sum_bit := Z.lxor (Z.lxor a_bit b_bit) carry in
  let carry_out :=
    Z.lor (Z.land a_bit b_bit) (Z.land carry (Z.lxor a_bit b_bit)) in
  (Z.lor result (to_word (Z.shiftl sum_bit i)), carry_out).

(** [for (i = ...; i < WORD_BITS; i++)], with [n] iterations left. *)
Fixpoint ripple_loop (n : nat) (a b i : Z) (st : Z * Z) : Z * Z :=
  match n with
  | O => st
  | S n' => ripple_loop n' a b (i + 1) (ripple_bit a b i st)
  end.

(** [ripple_add] writes Z, N and C through [f] and leaves V alone. *)
Definition ripple_add (a b carry_in : Z) (f : ALUFlags) : Z * ALUFlags :=
  let '(result, carry) :=
    ripple_loop (Z.to_nat WORD_BITS) a b 0 (0, Z.land carry_in 1) in
  (result,
   {| flagZ := if result =? 0 then 1 else 0;
      flagN := to_u8 (Z.land (Z.shiftr result 31) 1);
      flagC := to_u8 (Z.land carry 1);
      flagV := flagV f |}).

Definition set_V (f : ALUFlags) (v : Z) : ALUFlags :=
  {| flagZ := flagZ f; flagN := flagN f; flagC := flagC f; flagV := v |}.

(** The sign bit as the source extracts it:
    [(uint8_t)((x >> 31) & 1u)]. *)
Definition sign_bit (x : Z) : Z := to_u8 (Z.land (Z.shiftr x 31) 1).

Definition alu_add (a b : Z) (f : ALUFlags) : Z * ALUFlags :=
  let '(result, f1) := ripple_add a b 0 f in
  let sign_a := sign_bit a in
  let sign_b := sign_bit b in
  let sign_res := sign_bit result in
  (result,
   set_V f1 (if (sign_a =? sign_b) && negb (sign_res =? sign_a)
             then 1 else 0)).

Definition alu_sub (a b : Z) (f : ALUFlags) : Z * ALUFlags :=
  let '(result, f1) := ripple_add a (to_word (Z.lnot b)) 1 f in
  let sign_a := sign_bit a in
  let sign_b := sign_bit b in
  let sign_res := sign_bit result in
  (result,
   set_V f1 (if negb (sign_a =? sign_b) && negb (sign_res =? sign_a)
             then 1 else 0)).

(** The product is taken in [uint64_t] and cut to the low word. *)
Definition alu_mul (a b : Z) (f : ALUFlags) : Z * ALUFlags :=
  let result := to_word ((a * b) mod 2 ^ 64) in
  (result,
   {| flagZ := if result =? 0 then 1 else 0;
      flagN := to_u8 (Z.land (Z.shiftr result 31) 1);
      flagC := 0;
      flagV := 0 |}).

(** Unsigned division; the caller has checked [b <> 0]. *)
Definition alu_div (a b : Z) (f : ALUFlags) : Z * ALUFlags :=
  let result := a / b in
  (result,
   {| flagZ := if result =? 0 then 1 else 0;
      flagN := to_u8 (Z.land (Z.shiftr result 31) 1);
      flagC := 0;
      flagV := 0 |}).

(** ** memory.h, memory.c *)

Definition MEM_SIZE : Z := 64 * 1024.
Definition MEM_WORD_SIZE : Z := 4.

Record Memory : Type := mkMemory { data : list Z }.

(** [memset (mem->data, 0, sizeof (mem->data))]. *)
Definition mem_init (mem : Memory) : Memory :=
  {| data := replicate (Z.to_nat MEM_SIZE) 0 |}.

(** The three diagnostics of memory.c. *)
Inductive mem_error : Type :=
| NullMemory
| AlignmentError
| BoundsError.

(** [check_access]: alignment first, then the bound
    [addr <= MEM_SIZE - MEM_WORD_SIZE]. *)
Definition check_access (addr : Z) : outcome mem_error unit :=
  if negb (addr mod MEM_WORD_SIZE =? 0) then Err AlignmentError
  else if addr >? to_word (MEM_SIZE - MEM_WORD_SIZE) then Err BoundsError
  else Ok tt.

(** [mem->data[i]]. *)
Definition byte_at (mem : Memory) (i : Z) : Z := data mem !!! Z.to_nat i.

(** [mem->data[i] = b]. *)
Definition set_byte (mem : Memory) (i b : Z) : Memory :=
  {| data := <[Z.to_nat i := b]> (data mem) |}.

(** A [Memory *] may be null: [None]. *)
Definition mem_read_word (mem : option Memory) (addr : Z)
  : outcome mem_error Z :=
  match mem with
  | None => Err NullMemory
  | Some m =>
      match check_access addr with
      | Err e => Err e
      | Ok _ =>
          Ok (Z.lor (Z.lor (Z.lor
                (to_word (byte_at m addr))
                (to_word (Z.shiftl (to_word (byte_at m (addr + 1))) 8)))
                (to_word (Z.shiftl (to_word (byte_at m (addr + 2))) 16)))
                (to_word (Z.shiftl (to_word (byte_at m (addr + 3))) 24)))
      end
  end.

(** The status, and the memory as the call leaves it. *)
Definition mem_write_word (mem : option Memory) (addr value : Z)
  : outcome mem_error unit * option Memory :=
  match mem with
  | None => (Err NullMemory, None)
  | Some m =>
      match check_access addr with
      | Err e => (Err e, Some m)
      | Ok _ =>
          let m0 := set_byte m addr (to_u8 (Z.land value 255)) in
          let m1 := set_byte m0 (addr + 1)
                      (to_u8 (Z.land (Z.shiftr value 8) 255)) in
          let m2 := set_byte m1 (addr + 2)
                      (to_u8 (Z.land (Z.shiftr value 16) 255)) in
          let m3 := set_byte m2 (addr + 3)
                      (to_u8 (Z.land (Z.shiftr value 24) 255)) in
          (Ok tt, Some m3)
      end
  end.

(** ** ast.h *)

Inductive BinaryOp : Type := OP_ADD | OP_SUB | OP_MUL | OP_DIV.

(** A tree as [ast_make_number] and [ast_make_binary] build it: the
    children of a binary node are never null ([ast_make_binary] exits on
    a null child), so the null-pointer exits of the walkers below are not
    reachable and have no counterpart here.  [value] is a [long]. *)
Inductive Node : Type :=
| NODE_NUMBER (value : Z)
| NODE_BINARY_OP (op : BinaryOp) (left right : Node).

(** Number of [NODE_NUMBER] leaves. *)
Fixpoint leaves (t : Node) : Z :=
  match t with
  | NODE_NUMBER _ => 1
  | NODE_BINARY_OP _ l r => leaves l + leaves r
  end.

(** ** ir.h, ir.c *)

Inductive IROpcode : Type :=
| IR_LOAD_CONST | IR_ADD | IR_SUB | IR_MUL | IR_DIV
| IR_CMP | IR_JMP | IR_JZ | IR_JNZ
| IR_LOAD | IR_STORE.

Record IRInstr : Type := mkInstr {
  op : IROpcode;
  dst : Z;     (* int  *)
  src : Z;     (* int  *)
  imm : Z;     (* long *)
  target : Z;  (* int  *)
  addr : Z     (* int  *)
}.

Global Instance IRInstr_inhabited : Inhabited IRInstr :=
  populate (mkInstr IR_LOAD_CONST 0 0 0 0 0).

(** The growable buffer [data/count/capacity] is the list of its first
    [count] entries; [capacity] only drives [realloc]. *)
Abbreviation IRProgram := (list IRInstr).

Definition count (prog : IRProgram) : Z := Z.of_nat (length prog).

Definition ir_program_init : IRProgram := [].

Definition ir_program_append (prog : IRProgram) (instr : IRInstr)
  : IRProgram := prog ++ [instr].

(** ** codegen.h, codegen.c *)

Record Codegen : Type := mkCodegen {
  prog : IRProgram;
  next_reg : Z  (* int *)
}.

(** [(int) x] on a two's-complement target. *)
Definition to_int (x : Z) : Z := (x + 2 ^ 31) mod 2 ^ 32 - 2 ^ 31.

Definition codegen_init (p : IRProgram) : Codegen :=
  {| prog := p; next_reg := 0 |}.

(** [return cg->next_reg++;] *)
Definition alloc_reg (cg : Codegen) : Z * Codegen :=
  (next_reg cg, {| prog := prog cg; next_reg := to_int (next_reg cg + 1) |}).

Definition ast_op_to_ir (o : BinaryOp) : IROpcode :=
  match o with
  | OP_ADD => IR_ADD
  | OP_SUB => IR_SUB
  | OP_MUL => IR_MUL
  | OP_DIV => IR_DIV
  end.

Definition emit (cg : Codegen) (instr : IRInstr) : Codegen :=
  {| prog := ir_program_append (prog cg) instr; next_reg := next_reg cg |}.

(** Returns the register of the sub-expression and the generator state
    after the walk. *)
Fixpoint codegen_expr (cg : Codegen) (node : Node) : Z * Codegen :=
  match node with
  | NODE_NUMBER value =>
      let '(reg, cg1) := alloc_reg cg in
      (reg, emit cg1 (mkInstr IR_LOAD_CONST reg 0 value 0 0))
  | NODE_BINARY_OP o l r =>
      let '(left_reg, cg1) := codegen_expr cg l in
      let '(right_reg, cg2) := codegen_expr cg1 r in
      (left_reg, emit cg2 (mkInstr (ast_op_to_ir o) left_reg right_reg 0 0 0))
  end.

(** The driver's use: a fresh program, a fresh generator, one walk. *)
Definition compile (node : Node) : Z * IRProgram :=
  let '(reg, cg) := codegen_expr (codegen_init ir_program_init) node in
  (reg, prog cg).

(** ** eval.h, eval.c *)

Inductive EvalStatus : Type :=
| EVAL_OK | EVAL_ERR_DIV_ZERO | EVAL_ERR_OVERFLOW | EVAL_ERR_INTERNAL.

Record EvalResult : Type := mkEval { value : Z; status : EvalStatus }.

Definition make_ok (v : Z) : EvalResult := {| value := v; status := EVAL_OK |}.
Definition make_err (s : EvalStatus) : EvalResult :=
  {| value := 0; status := s |}.

(** [long] arithmetic.  The source leaves overflow unchecked (its TODOs);
    the embedding takes the two's-complement result of a 64-bit target. *)
Definition to_long (x : Z) : Z := (x + 2 ^ 63) mod 2 ^ 64 - 2 ^ 63.

Definition is_ok (s : EvalStatus) : bool :=
  match s with EVAL_OK => true | _ => false end.

Fixpoint eval (node : Node) : EvalResult :=
  match node with
  | NODE_NUMBER v => make_ok v
  | NODE_BINARY_OP o l r =>
      let lhs := eval l in
      if negb (is_ok (status lhs)) then make_err (status lhs) else
      let rhs := eval r in
      if negb (is_ok (status rhs)) then make_err (status rhs) else
      match o with
      | OP_ADD => make_ok (to_long (value lhs + value rhs))
      | OP_SUB => make_ok (to_long (value lhs - value rhs))
      | OP_MUL => make_ok (to_long (value lhs * value rhs))
      | OP_DIV =>
          if value rhs =? 0 then make_err EVAL_ERR_DIV_ZERO
          else make_ok (to_long (Z.quot (value lhs) (value rhs)))
      end
  end.

(** ** cpu.h, cpu.c *)

Definition CPU_MAX_REGS : Z := 32.
Definition CPU_MAX_STEPS : Z := 1000000.

Record CPU : Type := mkCPU {
  regs : list Z;
  flags : ALUFlags;
  pc : Z;               (* size_t *)
  mem : option Memory   (* borrowed, may be null *)
}.

(** The diagnostics of cpu.c; all of them return -1. *)
Inductive cpu_error : Type :=
| EmptyProgram
| InfiniteLoopGuard
| RegisterOutOfRange
| BranchOutOfRange
| DivisionByZero
| MemoryNotAttached
| MemoryFault (e : mem_error).

Notation "'check' e 'then' k" :=
  (match e with Ok _ => k | Err err => Err err end)
  (at level 10, e at level 100, k at level 200, only parsing).

Definition check_reg (r : Z) : outcome cpu_error unit :=
  if (r <? 0) || (r >=? CPU_MAX_REGS) then Err RegisterOutOfRange
  else Ok tt.

(** [(size_t) target] is [target] once [target < 0] is excluded. *)
Definition check_target (tgt prog_count : Z) : outcome cpu_error unit :=
  if (tgt <? 0) || (tgt >? prog_count) then Err BranchOutOfRange
  else Ok tt.

Definition zero_flags : ALUFlags := mkFlags 0 0 0 0.

(** [cpu.regs[r]] and [cpu.regs[r] = v]. *)
Definition read_reg (c : CPU) (r : Z) : Z := regs c !!! Z.to_nat r.

Definition write_reg (c : CPU) (r v : Z) : CPU :=
  {| regs := <[Z.to_nat r := v]> (regs c);
     flags := flags c; pc := pc c; mem := mem c |}.

Definition set_flags (c : CPU) (f : ALUFlags) : CPU :=
  {| regs := regs c; flags := f; pc := pc c; mem := mem c |}.

Definition set_pc (c : CPU) (p : Z) : CPU :=
  {| regs := regs c; flags := flags c; pc := p; mem := mem c |}.

Definition set_mem (c : CPU) (m : option Memory) : CPU :=
  {| regs := regs c; flags := flags c; pc := pc c; mem := m |}.

(** The locals of [cpu_execute] that live across iterations. *)
Record Exec : Type := mkExec {
  cpu : CPU;
  last_dst : Z;
  step_count : Z
}.

(** One arithmetic case of the switch. *)
Definition exec_alu (alu : Z -> Z -> ALUFlags -> Z * ALUFlags)
    (i : IRInstr) (c : CPU) : CPU :=
  let '(res, f) := alu (read_reg c (dst i)) (read_reg c (src i)) (flags c) in
  write_reg (set_flags c f) (dst i) res.

(** The switch of the loop body: the CPU after the instruction, the new
    [last_dst], and [jumped]. *)
Definition dispatch (prog_count : Z) (i : IRInstr) (c : CPU) (last : Z)
  : outcome cpu_error (CPU * Z * bool) :=
  match op i with
  | IR_LOAD_CONST =>
      check check_reg (dst i) then
      Ok (write_reg c (dst i) (to_word (imm i)), dst i, false)
  | IR_ADD =>
      check check_reg (dst i) then
      check check_reg (src i) then
      Ok (exec_alu alu_add i c, dst i, false)
  | IR_SUB =>
      check check_reg (dst i) then
      check check_reg (src i) then
      Ok (exec_alu alu_sub i c, dst i, false)
  | IR_MUL =>
      check check_reg (dst i) then
      check check_reg (src i) then
      Ok (exec_alu alu_mul i c, dst i, false)
  | IR_DIV =>
      check check_reg (dst i) then
      check check_reg (src i) then
      if read_reg c (src i) =? 0 then Err DivisionByZero
      else Ok (exec_alu alu_div i c, dst i, false)
  | IR_CMP =>
      check check_reg (dst i) then
      check check_reg (src i) then
      let '(_, f) :=
        alu_sub (read_reg c (dst i)) (read_reg c (src i)) (flags c) in
      Ok (set_flags c f, last, false)
  | IR_JMP =>
      check check_target (target i) prog_count then
      Ok (set_pc c (target i), last, true)
  | IR_JZ =>
      if negb (flagZ (flags c) =? 0) then
        check check_target (target i) prog_count then
        Ok (set_pc c (target i), last, true)
      else Ok (c, last, false)
  | IR_JNZ =>
      if flagZ (flags c) =? 0 then
        check check_target (target i) prog_count then
        Ok (set_pc c (target i), last, true)
      else Ok (c, last, false)
  | IR_LOAD =>
      check check_reg (dst i) then
      check check_reg (addr i) then
      match mem c with
      | None => Err MemoryNotAttached
      | Some _ =>
          match mem_read_word (mem c) (read_reg c (addr i)) with
          | Err e => Err (MemoryFault e)
          | Ok v => Ok (write_reg c (dst i) v, dst i, false)
          end
      end
  | IR_STORE =>
      check check_reg (src i) then
      check check_reg (addr i) then
      match mem c with
      | None => Err MemoryNotAttached
      | Some _ =>
          match mem_write_word (mem c) (read_reg c (addr i))
                  (read_reg c (src i)) with
          | (Err e, _) => Err (MemoryFault e)
          | (Ok _, m') => Ok (set_mem c m', last, false)
          end
      end
  end.

(** The body of the [while] loop on the fetched instruction [i]: the
    step guard, the switch, and the advance of [pc]. *)
Definition loop_body (prog_count : Z) (i : IRInstr) (s : Exec)
  : outcome cpu_error Exec :=
  let steps := step_count s + 1 in
  if steps >? CPU_MAX_STEPS then Err InfiniteLoopGuard else
  match dispatch prog_count i (cpu s) (last_dst s) with
  | Err e => Err e
  | Ok (c, last, jumped) =>
      Ok {| cpu := if jumped then c else set_pc c (pc c + 1);
            last_dst := last;
            step_count := steps |}
  end.

(** One iteration, entered with [pc < count]: fetch
    [&prog->data[cpu.pc]] and run the body. *)
Definition cpu_iteration (p : IRProgram) (s : Exec)
  : outcome cpu_error Exec :=
  loop_body (count p) (p !!! Z.to_nat (pc (cpu s))) s.

(** How [cpu_execute] ends: [return 0] with the final CPU (the
    out-parameter is [out_result]), or [return -1] with the diagnostic
    and the [pc] and step counter it was raised at. *)
Inductive cpu_result : Type :=
| Finished (s : Exec)
| Failed (e : cpu_error) (at_pc : Z) (steps : Z).

(** The [while (cpu.pc < prog->count)] loop.  [fuel] bounds the number of
    iterations the model unrolls; [None] means the bound was too small. *)
Fixpoint cpu_loop (fuel : nat) (p : IRProgram) (s : Exec)
  : option cpu_result :=
  if pc (cpu s) <? count p then
    match fuel with
    | O => None
    | S fuel' =>
        match cpu_iteration p s with
        | Err e => Some (Failed e (pc (cpu s)) (step_count s + 1))
        | Ok s' => cpu_loop fuel' p s'
        end
    end
  else Some (Finished s).

(** [memset (&cpu, 0, sizeof cpu); cpu.mem = mem; last_dst = 0;
    step_count = 0]. *)
Definition cpu_reset (m : option Memory) : Exec :=
  {| cpu := {| regs := replicate (Z.to_nat CPU_MAX_REGS) 0;
               flags := zero_flags; pc := 0; mem := m |};
     last_dst := 0;
     step_count := 0 |}.

(** The guard stops the loop after [CPU_MAX_STEPS] dispatches, so one more
    unrolling than that is always enough. *)
Definition cpu_fuel : nat := S (Z.to_nat CPU_MAX_STEPS).

Definition cpu_execute (p : IRProgram) (m : option Memory)
  : option cpu_result :=
  if count p =? 0 then Some (Failed EmptyProgram 0 0)
  else cpu_loop cpu_fuel p (cpu_reset m).

(** The C return value. *)
Definition status_code (r : cpu_result) : Z :=
  match r with Finished _ => 0 | Failed _ _ _ => -1 end.

(** [*out_result = (long)(int32_t) cpu.regs[last_dst]]. *)
Definition out_result (s : Exec) : Z :=
  sign_extend32 (read_reg (cpu s) (last_dst s)).

(** The register the specification calls [R[last_dst]]. *)
Definition final_register (s : Exec) : Z := read_reg (cpu s) (last_dst s).

(** ** Predicates used in the statements *)

(** A 32-bit word. *)
Definition is_word (x : Z) : Prop := 0 <= x < 2 ^ 32.

(** What holds of [(result, carry)] when the loop is about to handle
    bit [i]: the low [i] bits of the operands have been added. *)
Definition ripple_inv (a b cin i : Z) (st : Z * Z) : Prop :=
  let '(result, carry) := st in
  0 <= result < 2 ^ i /\ 0 <= carry <= 1 /\
  result + carry * 2 ^ i = a mod 2 ^ i + b mod 2 ^ i + cin.

(** The [data] array has [MEM_SIZE] cells. *)
Definition mem_wf (m : Memory) : Prop :=
  length (data m) = Z.to_nat MEM_SIZE.

(** The register file has [CPU_MAX_REGS] cells. *)
Definition regs_wf (s : Exec) : Prop :=
  length (regs (cpu s)) = Z.to_nat CPU_MAX_REGS.

Definition is_branch (o : IROpcode) : bool :=
  match o with IR_JMP | IR_JZ | IR_JNZ => true | _ => false end.

(** Whether the branch [i] is taken under the flags [f]. *)
Definition branch_taken (i : IRInstr) (f : ALUFlags) : bool :=
  match op i with
  | IR_JMP => true
  | IR_JZ => negb (flagZ f =? 0)
  | IR_JNZ => flagZ f =? 0
  | _ => false
  end.

(** Number of instructions that reached the switch: the guard raises
    its error before the instruction it stops is dispatched. *)
Definition dispatched (r : cpu_result) : Z :=
  match r with
  | Finished s => step_count s
  | Failed InfiniteLoopGuard _ steps => steps - 1
  | Failed _ _ steps => steps
  end.

(** How a run of the loop can end, seen from a state whose counter is
    [c0]. *)
Definition loop_end_ok (c0 : Z) (r : cpu_result) : Prop :=
  match r with
  | Finished s' => c0 <= step_count s' <= CPU_MAX_STEPS
  | Failed e _ steps =>
      c0 < steps <= CPU_MAX_STEPS + 1 /\
      (steps = CPU_MAX_STEPS + 1 <-> e = InfiniteLoopGuard)
  end.

(** Whether [i] names, in a field its opcode uses, a register outside
    [0, CPU_MAX_REGS). *)
Definition bad_reg (r : Z) : bool := (r <? 0) || (r >=? CPU_MAX_REGS).

Definition uses_bad_reg (i : IRInstr) : bool :=
  match op i with
  | IR_LOAD_CONST => bad_reg (dst i)
  | IR_ADD | IR_SUB | IR_MUL | IR_DIV | IR_CMP =>
      bad_reg (dst i) || bad_reg (src i)
  | IR_JMP | IR_JZ | IR_JNZ => false
  | IR_LOAD => bad_reg (dst i) || bad_reg (addr i)
  | IR_STORE => bad_reg (src i) || bad_reg (addr i)
  end.

(** Index of the first instruction of [p] that does, counting from [k]. *)
Fixpoint first_bad_from (k : Z) (p : list IRInstr) : option Z :=
  match p with
  | [] => None
  | i :: rest =>
      if uses_bad_reg i then Some k else first_bad_from (k + 1) rest
  end.

Definition first_bad (p : IRProgram) : option Z := first_bad_from 0 p.

(** Running the loop body over a list of instructions one after the
    other, as the loop does on code without branches. *)
Fixpoint exec_block (n : Z) (code : list IRInstr) (s : Exec) : cpu_result :=
  match code with
  | [] => Finished s
  | i :: rest =>
      match loop_body n i s with
      | Err e => Failed e (pc (cpu s)) (step_count s + 1)
      | Ok s' => exec_block n rest s'
      end
  end.

(** Both operands of every division have a reference value that is an
    unsigned 32-bit number. *)
Fixpoint div_operands_unsigned (t : Node) : Prop :=
  match t with
  | NODE_NUMBER _ => True
  | NODE_BINARY_OP o l r =>
      div_operands_unsigned l /\ div_operands_unsigned r /\
      (o = OP_DIV -> is_word (value (eval l)) /\ is_word (value (eval r)))
  end.

(** The ALU operation an operator is lowered to. *)
Definition alu_of (o : BinaryOp) : Z -> Z -> ALUFlags -> Z * ALUFlags :=
  match o with
  | OP_ADD => alu_add
  | OP_SUB => alu_sub
  | OP_MUL => alu_mul
  | OP_DIV => alu_div
  end.

(** A left-leaning sum of [S k] copies of [v], as the parser builds it
    for [v+v+...+v]. *)
Fixpoint sum_chain (k : nat) (v : Z) : Node :=
  match k with
  | O => NODE_NUMBER v
  | S k' => NODE_BINARY_OP OP_ADD (sum_chain k' v) (NODE_NUMBER v)
  end.

(** Reading the outcome of a run: the register a finished run reports,
    and the diagnostic of a failed one. *)
Definition reported (r : option cpu_result) : option Z :=
  match r with
  | Some (Finished s) => Some (final_register s)
  | _ => None
  end.

Definition failure (r : option cpu_result) : option cpu_error :=
  match r with
  | Some (Failed e _ _) => Some e
  | _ => None
  end.

(** Shorthands for the hand-written programs of main.c. *)
Definition LoadConst (d v : Z) : IRInstr := mkInstr IR_LOAD_CONST d 0 v 0 0.
Definition ram : option Memory := Some (mem_init (mkMemory [])).

(** The instructions one walk of [codegen_expr] appends and the counter
    it leaves, as a function of the counter [n] it starts from. *)
Fixpoint lowered (n : Z) (t : Node) : list IRInstr * Z :=
  match t with
  | NODE_NUMBER v => ([mkInstr IR_LOAD_CONST n 0 v 0 0], to_int (n + 1))
  | NODE_BINARY_OP o l r =>
      let '(cl, n1) := lowered n l in
      let '(cr, n2) := lowered n1 r in
      (cl ++ cr ++ [mkInstr (ast_op_to_ir o) n n1 0 0 0], n2)
  end.

(** Every cell of [data] holds a [uint8_t]. *)
Definition mem_bytes (m : Memory) : Prop :=
  Forall (fun b => 0 <= b < 256) (data m).

(** ** ir.c: the buffer behind a program *)

Definition IR_INITIAL_CAPACITY : Z := 16.

(** [IRProgram] with its three fields.  [buf_data] has [buf_capacity]
    cells; those at and beyond [buf_count] are allocated and not yet
    written, and hold whatever the allocator left there ([junk] below).
    [size_t] arithmetic is not wrapped: a capacity near 2^63 cannot be
    allocated. *)
Record IRBuffer : Type := mkBuffer {
  buf_data : list IRInstr;
  buf_count : Z;
  buf_capacity : Z
}.

(** [ir_program_init] on the buffer. *)
Definition ir_buffer_init (junk : IRInstr) : IRBuffer :=
  {| buf_data := replicate (Z.to_nat IR_INITIAL_CAPACITY) junk;
     buf_count := 0;
     buf_capacity := IR_INITIAL_CAPACITY |}.

(** [realloc (prog->data, new_cap * sizeof (IRInstr))] when it succeeds:
    the old cells, then fresh ones. *)
Definition ir_buffer_grow (junk : IRInstr) (b : IRBuffer) : IRBuffer :=
  let new_cap := buf_capacity b * 2 in
  {| buf_data :=
       buf_data b ++ replicate (Z.to_nat (new_cap - buf_capacity b)) junk;
     buf_count := buf_count b;
     buf_capacity := new_cap |}.

(** [ir_program_append] on the buffer. *)
Definition ir_buffer_append (junk : IRInstr) (b : IRBuffer)
    (instr : IRInstr) : IRBuffer :=
  let b1 := if buf_count b =? buf_capacity b
            then ir_buffer_grow junk b else b in
  {| buf_data := <[Z.to_nat (buf_count b1) := instr]> (buf_data b1);
     buf_count := buf_count b1 + 1;
     buf_capacity := buf_capacity b1 |}.

(** The program a buffer stands for: its first [buf_count] cells. *)
Definition buffer_contents (b : IRBuffer) : list IRInstr :=
  take (Z.to_nat (buf_count b)) (buf_data b).

(** What [ir_program_init] and [ir_program_append] keep true. *)
Definition buffer_wf (b : IRBuffer) : Prop :=
  0 <= buf_count b <= buf_capacity b /\
  Z.of_nat (length (buf_data b)) = buf_capacity b /\
  (exists k, 0 <= k /\ buf_capacity b = IR_INITIAL_CAPACITY * 2 ^ k) /\
  (buf_capacity b = IR_INITIAL_CAPACITY \/
   buf_capacity b < 2 * buf_count b).

(** ** Reading trees and programs *)

(** The values of the leaves, left to right. *)
Fixpoint leaf_values (t : Node) : list Z :=
  match t with
  | NODE_NUMBER v => [v]
  | NODE_BINARY_OP _ l r => leaf_values l ++ leaf_values r
  end.

Definition is_load_const (i : IRInstr) : bool :=
  match op i with IR_LOAD_CONST => true | _ => false end.

Definition is_arith (i : IRInstr) : bool :=
  match op i with IR_ADD | IR_SUB | IR_MUL | IR_DIV => true | _ => false end.

(** The fields an opcode does not use are zero, and the opcode is one
    [codegen_expr] emits. *)
Definition emitted_form (i : IRInstr) : Prop :=
  target i = 0 /\ addr i = 0 /\
  ((is_load_const i = true /\ src i = 0) \/
   (is_arith i = true /\ imm i = 0)).



(** ** Invariants of a run *)

(** Each flag is 0 or 1. *)
Definition flags_ok (f : ALUFlags) : Prop :=
  (flagZ f = 0 \/ flagZ f = 1) /\ (flagN f = 0 \/ flagN f = 1) /\
  (flagC f = 0 \/ flagC f = 1) /\ (flagV f = 0 \/ flagV f = 1).

(** An attached memory has its full size and holds bytes. *)
Definition mem_ok (m : option Memory) : Prop :=
  match m with
  | None => True
  | Some m => mem_wf m /\ mem_bytes m
  end.

(** The CPU as the types of cpu.h have it: 32 registers holding words,
    flags holding bits, a memory holding bytes. *)
Definition cpu_ok (c : CPU) : Prop :=
  length (regs c) = Z.to_nat CPU_MAX_REGS /\
  Forall is_word (regs c) /\
  flags_ok (flags c) /\
  mem_ok (mem c).

(** The loop state between two iterations on a program of [n]
    instructions. *)
Definition exec_ok (n : Z) (s : Exec) : Prop :=
  cpu_ok (cpu s) /\
  0 <= last_dst s < CPU_MAX_REGS /\
  0 <= pc (cpu s) <= n /\
  0 <= step_count s <= CPU_MAX_STEPS.

(** The opcodes that write a destination register. *)
Definition writes_register (o : IROpcode) : bool :=
  match o with
  | IR_LOAD_CONST | IR_ADD | IR_SUB | IR_MUL | IR_DIV | IR_LOAD => true
  | _ => false
  end.

(** ** lexer.h, lexer.c *)

Inductive TokenType : Type :=
| TOK_NUMBER | TOK_PLUS | TOK_MINUS | TOK_MUL | TOK_DIV
| TOK_LPAREN | TOK_RPAREN | TOK_EOF | TOK_INVALID.

(** [value] is valid when the type is [TOK_NUMBER]; [pos] is the byte
    offset of the token in the source. *)
Record Token : Type := mkToken {
  tok_type : TokenType;
  tok_value : Z;
  tok_pos : Z
}.

Definition make_token (type : TokenType) (value pos : Z) : Token :=
  mkToken type value pos.

(** The source is the text before the terminating NUL, so [strlen] is the
    length of the list.  [current] and [has_current] are the one-token
    look-ahead cache. *)
Record TokenStream : Type := mkStream {
  ts_src : list Ascii.ascii;
  ts_len : Z;
  ts_pos : Z;
  ts_current : Token;
  ts_has_current : bool
}.

#[global] Instance ascii_inhabited : Inhabited Ascii.ascii :=
  populate Ascii.zero.

(** [(unsigned char) c]. *)
Definition char_code (c : Ascii.ascii) : Z := Z.of_N (Ascii.N_of_ascii c).

(** [isspace] and [isdigit] in the C locale, the one in force since the
    program never calls [setlocale]: space, and tab to carriage return. *)
Definition isspace (c : Ascii.ascii) : bool :=
  (char_code c =? 32) || ((9 <=? char_code c) && (char_code c <=? 13)).

Definition isdigit (c : Ascii.ascii) : bool :=
  (48 <=? char_code c) && (char_code c <=? 57).

(** [src[pos]]. *)
Definition char_at (src : list Ascii.ascii) (pos : Z) : Ascii.ascii :=
  src !!! Z.to_nat pos.

Definition LONG_MAX : Z := 2 ^ 63 - 1.

(** [while (pos < len && test (src[pos])) pos++;], which leaves the loop
    after at most [len - pos] rounds. *)
Fixpoint advance_while (test : Ascii.ascii -> bool) (fuel : nat)
    (src : list Ascii.ascii) (pos len : Z) : Z :=
  match fuel with
  | O => pos
  | S fuel' =>
      if (pos <? len) && test (char_at src pos)
      then advance_while test fuel' src (pos + 1) len
      else pos
  end.

Definition skip_ws (src : list Ascii.ascii) (pos len : Z) : Z :=
  advance_while isspace (Z.to_nat (len - pos)) src pos len.

(** The loop over an integer literal: the value, or [None] when the
    overflow test fires, and the position the stream is left at (past
    the remaining digits in that case). *)
Fixpoint scan_number (fuel : nat) (src : list Ascii.ascii)
    (pos len value : Z) : option Z * Z :=
  match fuel with
  | O => (Some value, pos)
  | S fuel' =>
      if (pos <? len) && isdigit (char_at src pos) then
        let digit := char_code (char_at src pos) - 48 in
        if value >? Z.quot (LONG_MAX - digit) 10 then
          (None, advance_while isdigit (Z.to_nat (len - pos)) src pos len)
        else scan_number fuel' src (pos + 1) len (value * 10 + digit)
      else (Some value, pos)
  end.

Definition set_ts_pos (ts : TokenStream) (pos : Z) : TokenStream :=
  {| ts_src := ts_src ts; ts_len := ts_len ts; ts_pos := pos;
     ts_current := ts_current ts; ts_has_current := ts_has_current ts |}.

Definition set_ts_cache (ts : TokenStream) (t : Token) (has : bool)
  : TokenStream :=
  {| ts_src := ts_src ts; ts_len := ts_len ts; ts_pos := ts_pos ts;
     ts_current := t; ts_has_current := has |}.

(** [lexer_init] leaves [current] as it finds it. *)
Definition lexer_init (ts : TokenStream) (src : list Ascii.ascii)
  : TokenStream :=
  {| ts_src := src; ts_len := Z.of_nat (length src); ts_pos := 0;
     ts_current := ts_current ts; ts_has_current := false |}.

(** The [switch] on a single-character token. *)
Definition punct_type (c : Ascii.ascii) : TokenType :=
  if Ascii.eqb c "+"%char then TOK_PLUS
  else if Ascii.eqb c "-"%char then TOK_MINUS
  else if Ascii.eqb c "*"%char then TOK_MUL
  else if Ascii.eqb c "/"%char then TOK_DIV
  else if Ascii.eqb c "("%char then TOK_LPAREN
  else if Ascii.eqb c ")"%char then TOK_RPAREN
  else TOK_INVALID.

(** The token and the stream as the call leaves it. *)
Definition lexer_next (ts : TokenStream) : Token * TokenStream :=
  if ts_has_current ts then
    (ts_current ts, set_ts_cache ts (ts_current ts) false)
  else
    let ts1 := set_ts_pos ts (skip_ws (ts_src ts) (ts_pos ts) (ts_len ts)) in
    if ts_pos ts1 >=? ts_len ts1 then
      (make_token TOK_EOF 0 (ts_pos ts1), ts1)
    else
      let start := ts_pos ts1 in
      let c := char_at (ts_src ts1) (ts_pos ts1) in
      if isdigit c then
        match scan_number (Z.to_nat (ts_len ts1 - ts_pos ts1)) (ts_src ts1)
                (ts_pos ts1) (ts_len ts1) 0 with
        | (Some value, pos') =>
            (make_token TOK_NUMBER value start, set_ts_pos ts1 pos')
        | (None, pos') =>
            (make_token TOK_INVALID 0 start, set_ts_pos ts1 pos')
        end
      else
        (make_token (punct_type c) 0 start, set_ts_pos ts1 (ts_pos ts1 + 1)).

Definition lexer_peek (ts : TokenStream) : Token * TokenStream :=
  if negb (ts_has_current ts) then
    let '(t, ts') := lexer_next ts in
    (t, set_ts_cache ts' t true)
  else (ts_current ts, ts).

(** The value of a run of decimal digits read after [acc]. *)
Definition decimal_from (acc : Z) (ds : list Ascii.ascii) : Z :=
  fold_left (fun v c => v * 10 + (char_code c - 48)) ds acc.

Definition decimal (ds : list Ascii.ascii) : Z := decimal_from 0 ds.

(** The text does not go on with a digit. *)
Definition ends_number (rest : list Ascii.ascii) : Prop :=
  match rest with
  | [] => True
  | c :: _ => isdigit c = false
  end.

(** The read head is inside the text, whose length the stream knows. *)
Definition stream_ok (ts : TokenStream) : Prop :=
  ts_len ts = Z.of_nat (length (ts_src ts)) /\ 0 <= ts_pos ts <= ts_len ts.

(** ** parser.h, parser.c *)

(** The parser holds a pointer to the stream of its caller and is the only
    one to use it while it runs, so the stream is kept in the record. *)
Record Parser : Type := mkParser {
  p_ts : TokenStream;
  p_error : bool
}.

Definition set_p_ts (p : Parser) (ts : TokenStream) : Parser :=
  {| p_ts := ts; p_error := p_error p |}.

(** [parse_error]: the message goes to stderr, the flag is set. *)
Definition parse_error (p : Parser) : Parser :=
  {| p_ts := p_ts p; p_error := true |}.

Definition token_type_eqb (a b : TokenType) : bool :=
  match a, b with
  | TOK_NUMBER, TOK_NUMBER | TOK_PLUS, TOK_PLUS | TOK_MINUS, TOK_MINUS
  | TOK_MUL, TOK_MUL | TOK_DIV, TOK_DIV | TOK_LPAREN, TOK_LPAREN
  | TOK_RPAREN, TOK_RPAREN | TOK_EOF, TOK_EOF
  | TOK_INVALID, TOK_INVALID => true
  | _, _ => false
  end.

Definition expect (p : Parser) (expected : TokenType) : Token * Parser :=
  let '(t, ts') := lexer_next (p_ts p) in
  (t, if token_type_eqb (tok_type t) expected
      then set_p_ts p ts' else parse_error (set_p_ts p ts')).

(** How a call of the parser ends: it returns, it leaves the program
    through [exit], or the model has no fuel left to follow it. *)
Inductive call (A : Type) : Type :=
| Returned (a : A)
| Exited
| Unfinished.
Arguments Returned {A} a.
Arguments Exited {A}.
Arguments Unfinished {A}.

(** ast.c.  Allocation is taken to succeed.  A [Node *] may be null:
    [None]. *)
Definition ast_make_number (value : Z) : Node := NODE_NUMBER value.

Definition ast_make_binary (o : BinaryOp) (left right : option Node)
  : call Node :=
  match left, right with
  | Some l, Some r => Returned (NODE_BINARY_OP o l r)
  | _, _ => Exited
  end.

(** What a production returns: the node, and the parser as the call
    leaves it. *)
Definition parsed : Type := call (option Node * Parser).

(** [parse_factor], given what its call of [parse_expr] does. *)
Definition factor_body (expr : Parser -> parsed) (p : Parser) : parsed :=
  if p_error p then Returned (None, p) else
  let '(t, ts1) := lexer_peek (p_ts p) in
  match tok_type t with
  | TOK_NUMBER =>
      let '(_, ts2) := lexer_next ts1 in
      Returned (Some (ast_make_number (tok_value t)), set_p_ts p ts2)
  | TOK_LPAREN =>
      let '(_, ts2) := lexer_next ts1 in
      match expr (set_p_ts p ts2) with
      | Returned (inner, p1) =>
          if p_error p1 then Returned (None, p1) else
          let '(_, p2) := expect p1 TOK_RPAREN in
          if p_error p2 then Returned (None, p2) else
          Returned (inner, p2)
      | Exited => Exited
      | Unfinished => Unfinished
      end
  | _ =>
      let '(_, ts2) := lexer_next ts1 in
      Returned (None, parse_error (set_p_ts p ts2))
  end.

(** One round of the [for (;;)] of [parse_term] ([parse_expr]): [first]
    and [second] are the two operator tokens, [operand] the production
    of the right operand, [again] the rest of the loop. *)
Definition loop_body_of (first second : TokenType) (o1 o2 : BinaryOp)
    (operand : Parser -> parsed)
    (again : Parser -> option Node -> parsed)
    (p : Parser) (left : option Node) : parsed :=
  let '(t, ts1) := lexer_peek (p_ts p) in
  if negb (token_type_eqb (tok_type t) first) &&
     negb (token_type_eqb (tok_type t) second)
  then Returned (left, set_p_ts p ts1)
  else
    let '(_, ts2) := lexer_next ts1 in
    let o := if token_type_eqb (tok_type t) first then o1 else o2 in
    match operand (set_p_ts p ts2) with
    | Returned (rhs, p1) =>
        if p_error p1 then Returned (None, p1) else
        match ast_make_binary o left rhs with
        | Returned n => again p1 (Some n)
        | Exited => Exited
        | Unfinished => Unfinished
        end
    | Exited => Exited
    | Unfinished => Unfinished
    end.

(** The part of [parse_term] ([parse_expr]) before its loop. *)
Definition production_body (operand : Parser -> parsed)
    (loop : Parser -> option Node -> parsed) (p : Parser) : parsed :=
  if p_error p then Returned (None, p) else
  match operand p with
  | Returned (lhs, p1) =>
      if p_error p1 then Returned (None, p1) else loop p1 lhs
  | Exited => Exited
  | Unfinished => Unfinished
  end.

(** The three productions and their two loops; [fuel] bounds the depth of
    calls and rounds the model follows. *)
Fixpoint parse_factor (fuel : nat) (p : Parser) : parsed :=
  match fuel with
  | O => Unfinished
  | S fuel' => factor_body (parse_expr fuel') p
  end
with parse_term (fuel : nat) (p : Parser) : parsed :=
  match fuel with
  | O => Unfinished
  | S fuel' => production_body (parse_factor fuel') (term_loop fuel') p
  end
with term_loop (fuel : nat) (p : Parser) (left : option Node) : parsed :=
  match fuel with
  | O => Unfinished
  | S fuel' =>
      loop_body_of TOK_MUL TOK_DIV OP_MUL OP_DIV
        (parse_factor fuel') (term_loop fuel') p left
  end
with parse_expr (fuel : nat) (p : Parser) : parsed :=
  match fuel with
  | O => Unfinished
  | S fuel' => production_body (parse_term fuel') (expr_loop fuel') p
  end
with expr_loop (fuel : nat) (p : Parser) (left : option Node) : parsed :=
  match fuel with
  | O => Unfinished
  | S fuel' =>
      loop_body_of TOK_PLUS TOK_MINUS OP_ADD OP_SUB
        (parse_term fuel') (expr_loop fuel') p left
  end.

Definition parser_init (ts : TokenStream) : Parser :=
  {| p_ts := ts; p_error := false |}.

Definition parser_parse (fuel : nat) (p : Parser) : parsed :=
  match parse_expr fuel p with
  | Returned (root, p1) =>
      if p_error p1 then Returned (None, p1) else
      let '(t, ts1) := lexer_peek (p_ts p1) in
      if negb (token_type_eqb (tok_type t) TOK_EOF)
      then Returned (None, parse_error (set_p_ts p1 ts1))
      else Returned (root, set_p_ts p1 ts1)
  | Exited => Exited
  | Unfinished => Unfinished
  end.

(** Fuel that is enough for every text, as shown below. *)
Definition parse_fuel (src : list Ascii.ascii) : nat :=
  (3 * length src + 6)%nat.

(** What the parser has left to read: the characters after the read
    head, and the cached token unless it is the end of the text. *)
Definition remaining (ts : TokenStream) : Z :=
  ts_len ts - ts_pos ts +
  (if ts_has_current ts &&
      negb (token_type_eqb (tok_type (ts_current ts)) TOK_EOF)
   then 1 else 0).

(** A production that serves every parser with at most [k] to read: it
    returns (it neither exits nor needs more fuel), with a node exactly
    when it leaves the error flag clear, and then it has consumed
    something. *)
Definition good_production (k : Z) (f : Parser -> parsed) : Prop :=
  forall p, stream_ok (p_ts p) -> remaining (p_ts p) <= k ->
  exists r p',
    f p = Returned (r, p') /\ stream_ok (p_ts p') /\
    (p_error p' = true -> r = None) /\
    (p_error p' = false ->
     is_Some r /\ remaining (p_ts p') < remaining (p_ts p)).

(** The same for a loop entered without error and with a left operand. *)
Definition good_loop (k : Z) (f : Parser -> option Node -> parsed) : Prop :=
  forall p left, stream_ok (p_ts p) -> remaining (p_ts p) <= k ->
  p_error p = false -> is_Some left ->
  exists r p',
    f p left = Returned (r, p') /\ stream_ok (p_ts p') /\
    (p_error p' = true -> r = None) /\
    (p_error p' = false ->
     is_Some r /\ remaining (p_ts p') <= remaining (p_ts p)).

(** ** Expressions as text *)

(** An expression as it is written: the literals are runs of digits. *)
Inductive Expr : Type :=
| Lit (ds : list Ascii.ascii)
| Bin (o : BinaryOp) (l r : Expr).

Definition op_char (o : BinaryOp) : Ascii.ascii :=
  match o with
  | OP_ADD => "+"%char
  | OP_SUB => "-"%char
  | OP_MUL => "*"%char
  | OP_DIV => "/"%char
  end.

(** The level of the grammar an operator belongs to: 0 for [expr], 1 for
    [term]; a factor is level 2. *)
Definition prec (o : BinaryOp) : nat :=
  match o with
  | OP_ADD | OP_SUB => 0
  | OP_MUL | OP_DIV => 1
  end.

(** The text of an expression where level [lvl] of the grammar is
    expected, with the parentheses the grammar needs and no others: the
    left operand of an operator is written at the operator's own level,
    the right operand one level up. *)
Fixpoint show (lvl : nat) (e : Expr) : list Ascii.ascii :=
  match e with
  | Lit ds => ds
  | Bin o l r =>
      let body := show (prec o) l ++ op_char o :: show (S (prec o)) r in
      if (lvl <=? prec o)%nat then body
      else "("%char :: body ++ [")"%char]
  end.

(** The tree the text stands for. *)
Fixpoint ast_of (e : Expr) : Node :=
  match e with
  | Lit ds => NODE_NUMBER (decimal ds)
  | Bin o l r => NODE_BINARY_OP o (ast_of l) (ast_of r)
  end.

(** Every literal is a non-empty run of digits whose value fits a
    [long]. *)
Fixpoint lits_ok (e : Expr) : Prop :=
  match e with
  | Lit ds =>
      ds <> [] /\ Forall (fun c => isdigit c = true) ds /\
      decimal ds <= LONG_MAX
  | Bin _ l r => lits_ok l /\ lits_ok r
  end.

(** The stream has read [pre] and has [rest] before it, the cache being
    empty. *)
Definition at_text (pre rest : list Ascii.ascii) (ts : TokenStream) : Prop :=
  ts_src ts = pre ++ rest /\
  ts_len ts = Z.of_nat (length (pre ++ rest)) /\
  ts_pos ts = Z.of_nat (length pre) /\
  ts_has_current ts = false.

Definition parser_at (pre rest : list Ascii.ascii) (p : Parser) : Prop :=
  at_text pre rest (p_ts p) /\ p_error p = false.

(** The text ends, or goes on with a character that ends a term. *)
Definition closes (rest : list Ascii.ascii) : Prop :=
  match rest with
  | [] => True
  | c :: _ => c = "+"%char \/ c = "-"%char \/ c = ")"%char
  end.

(** The stream of [p] after a peek. *)
Definition peeked (p : Parser) : Parser :=
  set_p_ts p (snd (lexer_peek (p_ts p))).

(** [prod], started before the text [txt], returns the node [n] and
    leaves the stream after [txt] with an empty cache. *)
Definition reads_direct (prod : nat -> Parser -> parsed)
    (txt : list Ascii.ascii) (n : Node) : Prop :=
  forall pre rest p,
    ends_number rest -> parser_at pre (txt ++ rest) p ->
    exists fuel p',
      prod fuel p = Returned (Some n, p') /\ parser_at (pre ++ txt) rest p'.

(** [prod], started before the text [txt], comes to the head of its loop
    with the node [n] as left operand and the stream after [txt]: it
    returns whatever the loop returns from there.  [follows] is what the
    rest of the text has to satisfy. *)
Definition reads_then (follows : list Ascii.ascii -> Prop)
    (prod : nat -> Parser -> parsed)
    (loop : nat -> Parser -> option Node -> parsed)
    (txt : list Ascii.ascii) (n : Node) : Prop :=
  forall pre rest p (Q : option Node * Parser -> Prop),
    follows rest -> parser_at pre (txt ++ rest) p ->
    (forall p', parser_at (pre ++ txt) rest p' ->
                exists fuel r, loop fuel p' (Some n) = Returned r /\ Q r) ->
    exists fuel r, prod fuel p = Returned r /\ Q r.

(** ** main.c *)









(** * Properties *)

(** ** Bit-level facts used by the ALU and the memory *)

Section Bits.

Lemma land_1_mod2 x : Z.land x 1 = x mod 2.
Proof. change 1 with (Z.ones 1). now rewrite Z.land_ones by lia. Qed.

Lemma bit_extract x i :
  0 <= i -> Z.land (Z.shiftr x i) 1 = Z.b2z (Z.testbit x i).
Proof.
  intros Hi. rewrite land_1_mod2, Z.shiftr_div_pow2 by lia.
  symmetry. now apply Z.testbit_spec'.
Qed.

Lemma to_u8_b2z (c : bool) : to_u8 (Z.b2z c) = Z.b2z c.
Proof. now destruct c. Qed.

Lemma sign_bit_testbit x : sign_bit x = Z.b2z (Z.testbit x 31).
Proof. unfold sign_bit. rewrite bit_extract by lia. apply to_u8_b2z. Qed.

Lemma testbit_above x i m :
  0 <= x < 2 ^ i -> i <= m -> Z.testbit x m = false.
Proof.
  intros [H0 Hx] Hm.
  destruct (Z.eq_dec x 0) as [->|Hne]; [apply Z.bits_0|].
  apply Z.bits_above_log2; [lia|].
  assert (0 <= i).
  { destruct (Z.le_gt_cases 0 i) as [|Hneg]; [assumption|].
    rewrite Z.pow_neg_r in Hx by lia. lia. }
  assert (Z.log2 x < i) by (apply Z.log2_lt_pow2; lia). lia.
Qed.

(** Or-ing a bit in above everything set so far is an addition. *)
Lemma lor_above r s i :
  0 <= i -> 0 <= r < 2 ^ i -> Z.lor r (Z.shiftl s i) = r + s * 2 ^ i.
Proof.
  intros Hi Hr.
  rewrite <- (Z.shiftl_mul_pow2 s i) by lia.
  rewrite <- Z.add_lor_land.
  assert (Hz : Z.land r (Z.shiftl s i) = 0).
  { apply Z.bits_inj'. intros m Hm.
    rewrite Z.land_spec, Z.bits_0.
    destruct (Z.lt_ge_cases m i) as [Hlt|Hge].
    - rewrite Z.shiftl_spec_low by lia. apply andb_false_r.
    - now rewrite (testbit_above r i m). }
  rewrite Hz. lia.
Qed.

End Bits.

(** ** The ripple-carry adder *)

Section Ripple.

Variables a b cin : Z.
Hypothesis Hcin : 0 <= cin <= 1.

Lemma mod_pow2_succ x i :
  0 <= i ->
  x mod 2 ^ (i + 1) = x mod 2 ^ i + Z.b2z (Z.testbit x i) * 2 ^ i.
Proof.
  intros Hi. rewrite Z.testbit_spec' by lia.
  rewrite Z.pow_add_r, Z.pow_1_r by lia.
  rewrite Z.rem_mul_r by lia. lia.
Qed.

(** The textbook full adder on one bit position. *)
Lemma full_adder_bit (x y : bool) c :
  0 <= c <= 1 ->
  let s := Z.lxor (Z.lxor (Z.b2z x) (Z.b2z y)) c in
  let co := Z.lor (Z.land (Z.b2z x) (Z.b2z y))
              (Z.land c (Z.lxor (Z.b2z x) (Z.b2z y))) in
  0 <= s <= 1 /\ 0 <= co <= 1 /\ s + 2 * co = Z.b2z x + Z.b2z y + c.
Proof.
  intros Hc. assert (Hcc : c = 0 \/ c = 1) by lia.
  destruct Hcc as [-> | ->]; destruct x, y; vm_compute; intuition congruence.
Qed.

Lemma ripple_bit_inv i st :
  0 <= i < 32 -> ripple_inv a b cin i st ->
  ripple_inv a b cin (i + 1) (ripple_bit a b i st).
Proof.
  intros Hi. destruct st as [result carry]. unfold ripple_inv, ripple_bit.
  intros (Hres & Hc & Hsum).
  rewrite !bit_extract by lia.
  rewrite (mod_pow2_succ a), (mod_pow2_succ b) by lia.
  set (x := Z.testbit a i). set (y := Z.testbit b i).
  assert (Hp : 0 < 2 ^ i) by (apply Z.pow_pos_nonneg; lia).
  assert (Hp32 : 2 ^ i * 2 <= 2 ^ 32).
  { replace (2 ^ i * 2) with (2 ^ (i + 1))
      by (rewrite Z.pow_add_r, Z.pow_1_r; lia).
    apply Z.pow_le_mono_r; lia. }
  assert (H2 : 2 ^ (i + 1) = 2 ^ i * 2)
    by (rewrite Z.pow_add_r, Z.pow_1_r; lia).
  assert (Hsh : forall s, 0 <= s <= 1 ->
            to_word (Z.shiftl s i) = Z.shiftl s i).
  { intros s Hs. unfold to_word. rewrite Z.shiftl_mul_pow2 by lia.
    apply Z.mod_small. nia. }
  destruct (full_adder_bit x y carry Hc) as (Hs & Hco & Hfa).
  set (s := Z.lxor _ carry) in *.
  set (co := Z.lor _ _) in *.
  rewrite Hsh, lor_above by lia.
  rewrite H2. repeat split; try nia.
Qed.

Lemma ripple_loop_inv n : forall i st,
  0 <= i -> i + Z.of_nat n <= 32 -> ripple_inv a b cin i st ->
  ripple_inv a b cin (i + Z.of_nat n) (ripple_loop n a b i st).
Proof.
  induction n as [|n IH]; intros i st Hi Hn Hinv.
  - simpl. now rewrite Z.add_0_r.
  - cbn [ripple_loop].
    replace (i + Z.of_nat (S n)) with ((i + 1) + Z.of_nat n) by lia.
    apply IH; [lia | lia |]. apply ripple_bit_inv; [lia | assumption].
Qed.

Hypothesis Ha : is_word a.
Hypothesis Hb : is_word b.

(** The adder computes the 33-bit sum: low word and carry out. *)
Lemma ripple_add_sum f :
  let '(result, f') := ripple_add a b cin f in
  result = (a + b + cin) mod 2 ^ 32 /\
  flagC f' = (a + b + cin) / 2 ^ 32 /\
  flagZ f' = (if result =? 0 then 1 else 0) /\
  flagN f' = Z.b2z (Z.testbit result 31) /\
  flagV f' = flagV f.
Proof.
  unfold ripple_add.
  assert (Hinv : ripple_inv a b cin (0 + Z.of_nat (Z.to_nat WORD_BITS))
            (ripple_loop (Z.to_nat WORD_BITS) a b 0 (0, Z.land cin 1))).
  { apply ripple_loop_inv; [lia | unfold WORD_BITS; lia |].
    unfold ripple_inv. rewrite land_1_mod2, Z.pow_0_r, !Z.mod_1_r.
    rewrite Z.mod_small by lia. lia. }
  destruct (ripple_loop _ a b 0 _) as [result carry].
  unfold ripple_inv in Hinv. change (0 + Z.of_nat (Z.to_nat WORD_BITS))
    with 32 in Hinv.
  destruct Hinv as (Hres & Hc & Hsum).
  unfold is_word in Ha, Hb.
  rewrite (Z.mod_small a), (Z.mod_small b) in Hsum by lia.
  assert (Hr : result = (a + b + cin) mod 2 ^ 32).
  { rewrite <- Hsum. rewrite Z.mod_add by lia.
    symmetry. apply Z.mod_small. lia. }
  assert (Hcarry : carry = (a + b + cin) / 2 ^ 32).
  { rewrite <- Hsum. rewrite Z.div_add by lia.
    rewrite Z.div_small by lia. lia. }
  cbn [flagZ flagN flagC flagV].
  repeat split; try assumption.
  - rewrite <- Hcarry, land_1_mod2. unfold to_u8.
    rewrite (Z.mod_small carry 2) by lia. apply Z.mod_small. lia.
  - rewrite bit_extract by lia. apply to_u8_b2z.
Qed.

End Ripple.

(** ** alu_add and alu_sub *)

Section ALU.

Lemma b2z_eqb_sign (x y : bool) : (Z.b2z x =? Z.b2z y) = Bool.eqb x y.
Proof. now destruct x, y. Qed.

Lemma to_word_lnot b : is_word b -> to_word (Z.lnot b) = 2 ^ 32 - 1 - b.
Proof.
  intros Hb. unfold to_word, is_word in *.
  rewrite Z.lnot_eq_pred_opp.
  symmetry. apply Z.mod_unique with (q := -1); lia.
Qed.

Lemma alu_add_sum a b f :
  is_word a -> is_word b ->
  fst (alu_add a b f) = (a + b) mod 2 ^ 32 /\
  flagC (snd (alu_add a b f)) = (a + b) / 2 ^ 32 /\
  flagZ (snd (alu_add a b f)) =
    (if fst (alu_add a b f) =? 0 then 1 else 0) /\
  flagN (snd (alu_add a b f)) = Z.b2z (Z.testbit (fst (alu_add a b f)) 31) /\
  flagV (snd (alu_add a b f)) =
    Z.b2z (Bool.eqb (Z.testbit a 31) (Z.testbit b 31) &&
           negb (Bool.eqb (Z.testbit (fst (alu_add a b f)) 31)
                   (Z.testbit a 31))).
Proof.
  intros Ha Hb. unfold alu_add.
  pose proof (ripple_add_sum a b 0 ltac:(lia) Ha Hb f) as H.
  destruct (ripple_add a b 0 f) as [r f1].
  destruct H as (Hr & HC & HZ & HN & _).
  rewrite Z.add_0_r in Hr, HC.
  cbn [fst snd set_V flagZ flagN flagC flagV].
  rewrite !sign_bit_testbit, !b2z_eqb_sign.
  repeat split; assumption.
Qed.

Lemma alu_sub_diff a b f :
  is_word a -> is_word b ->
  fst (alu_sub a b f) = (a - b) mod 2 ^ 32 /\
  flagC (snd (alu_sub a b f)) = (a - b + 2 ^ 32) / 2 ^ 32 /\
  flagZ (snd (alu_sub a b f)) =
    (if fst (alu_sub a b f) =? 0 then 1 else 0) /\
  flagN (snd (alu_sub a b f)) = Z.b2z (Z.testbit (fst (alu_sub a b f)) 31) /\
  flagV (snd (alu_sub a b f)) =
    Z.b2z (negb (Bool.eqb (Z.testbit a 31) (Z.testbit b 31)) &&
           negb (Bool.eqb (Z.testbit (fst (alu_sub a b f)) 31)
                   (Z.testbit a 31))).
Proof.
  intros Ha Hb. unfold alu_sub.
  assert (Hnb : is_word (to_word (Z.lnot b))).
  { rewrite to_word_lnot by assumption. unfold is_word in *. lia. }
  pose proof (ripple_add_sum a _ 1 ltac:(lia) Ha Hnb f) as H.
  destruct (ripple_add a _ 1 f) as [r f1].
  destruct H as (Hr & HC & HZ & HN & _).
  rewrite to_word_lnot in Hr, HC by assumption.
  replace (a + (2 ^ 32 - 1 - b) + 1) with (a - b + 1 * 2 ^ 32) in Hr, HC
    by lia.
  rewrite Z.mod_add in Hr by lia.
  cbn [fst snd set_V flagZ flagN flagC flagV].
  rewrite !sign_bit_testbit, !b2z_eqb_sign.
  repeat split; assumption.
Qed.

(** The same as one equation, ready to evaluate at given operands. *)
Lemma alu_add_value a b f :
  is_word a -> is_word b ->
  alu_add a b f =
    let r := (a + b) mod 2 ^ 32 in
    (r, mkFlags (if r =? 0 then 1 else 0) (Z.b2z (Z.testbit r 31))
          ((a + b) / 2 ^ 32)
          (Z.b2z (Bool.eqb (Z.testbit a 31) (Z.testbit b 31) &&
                  negb (Bool.eqb (Z.testbit r 31) (Z.testbit a 31))))).
Proof.
  intros Ha Hb.
  destruct (alu_add_sum a b f Ha Hb) as (Hr & HC & HZ & HN & HV).
  destruct (alu_add a b f) as [r [z n c v]].
  cbn [fst snd flagZ flagN flagC flagV] in *. now subst.
Qed.

Lemma alu_sub_value a b f :
  is_word a -> is_word b ->
  alu_sub a b f =
    let r := (a - b) mod 2 ^ 32 in
    (r, mkFlags (if r =? 0 then 1 else 0) (Z.b2z (Z.testbit r 31))
          ((a - b + 2 ^ 32) / 2 ^ 32)
          (Z.b2z (negb (Bool.eqb (Z.testbit a 31) (Z.testbit b 31)) &&
                  negb (Bool.eqb (Z.testbit r 31) (Z.testbit a 31))))).
Proof.
  intros Ha Hb.
  destruct (alu_sub_diff a b f Ha Hb) as (Hr & HC & HZ & HN & HV).
  destruct (alu_sub a b f) as [r [z n c v]].
  cbn [fst snd flagZ flagN flagC flagV] in *. now subst.
Qed.

End ALU.

(** C3.  For all 32-bit words [a] and [b], [alu_add a b] returns
    [(a + b) mod 2^32]; C is the carry out of bit 31 (1 exactly when
    [a + b >= 2^32]); Z is 1 exactly when the result is 0; N is bit 31 of
    the result; V is 1 exactly when [a] and [b] have the same sign bit and
    the result has the other one.  In particular
    [alu_add 0x7FFFFFFF 1] is [0x80000000] with Z=0 N=1 C=0 V=1 and
    [alu_add 0xFFFFFFFF 1] is [0] with Z=1 N=0 C=1 V=0. *)
Theorem alu_add_correct (a b : Z) (f : ALUFlags)
    (Ha : is_word a) (Hb : is_word b) :
  let result := fst (alu_add a b f) in
  let f' := snd (alu_add a b f) in
  result = (a + b) mod 2 ^ 32 /\
  flagC f' = Z.b2z (2 ^ 32 <=? a + b) /\
  flagZ f' = Z.b2z (result =? 0) /\
  flagN f' = Z.b2z (Z.testbit result 31) /\
  flagV f' = Z.b2z (Bool.eqb (Z.testbit a 31) (Z.testbit b 31) &&
                    negb (Bool.eqb (Z.testbit result 31) (Z.testbit a 31))) /\
  alu_add 0x7FFFFFFF 1 f = (0x80000000, mkFlags 0 1 0 1) /\
  alu_add 0xFFFFFFFF 1 f = (0, mkFlags 1 0 1 0).
Proof.
  cbv zeta.
  destruct (alu_add_sum a b f Ha Hb) as (Hr & HC & HZ & HN & HV).
  split; [exact Hr|]. split.
  { rewrite HC. unfold is_word in *.
    destruct (Z.leb_spec (2 ^ 32) (a + b)); simpl Z.b2z.
    - symmetry. apply Z.div_unique with (r := a + b - 2 ^ 32); lia.
    - apply Z.div_small; lia. }
  split; [rewrite HZ; now destruct (_ =? 0)|].
  split; [exact HN|]. split; [exact HV|].
  split; (rewrite alu_add_value by (unfold is_word; lia)); now vm_compute.
Qed.

Lemma alu_add_correct_witness :
  let result := fst (alu_add 0x7FFFFFFF 0x7FFFFFFF zero_flags) in
  let f' := snd (alu_add 0x7FFFFFFF 0x7FFFFFFF zero_flags) in
  result = 0xFFFFFFFE /\ flagC f' = 0 /\ flagZ f' = 0 /\ flagN f' = 1 /\
  flagV f' = 1.
Proof.
  assert (Ha : is_word 0x7FFFFFFF) by (unfold is_word; lia).
  destruct (alu_add_correct 0x7FFFFFFF 0x7FFFFFFF zero_flags Ha Ha)
    as (Hr & HC & HZ & HN & HV & _).
  cbv zeta. rewrite HC, HZ, HN, HV, Hr. vm_compute. tauto.
Defined.

(** C4.  For all 32-bit words [a] and [b], [alu_sub a b], computed as
    [a + ~b + 1] through the ripple adder, returns [(a - b) mod 2^32], sets
    Z to 1 exactly when [a = b], and sets C to 1 exactly when [a >= b] as
    unsigned numbers (no borrow). *)
Theorem alu_sub_correct (a b : Z) (f : ALUFlags)
    (Ha : is_word a) (Hb : is_word b) :
  let result := fst (alu_sub a b f) in
  let f' := snd (alu_sub a b f) in
  result = (a - b) mod 2 ^ 32 /\
  flagZ f' = Z.b2z (a =? b) /\ (flagZ f' = 1 <-> a = b) /\
  flagC f' = Z.b2z (b <=? a) /\ (flagC f' = 1 <-> b <= a).
Proof.
  cbv zeta.
  destruct (alu_sub_diff a b f Ha Hb) as (Hr & HC & HZ & _ & _).
  unfold is_word in *.
  assert (HZ' : flagZ (snd (alu_sub a b f)) = Z.b2z (a =? b)).
  { rewrite HZ, Hr.
    destruct (Z.eqb_spec a b) as [->|Hne].
    - now rewrite Z.sub_diag.
    - destruct (Z.eqb_spec ((a - b) mod 2 ^ 32) 0) as [H0|]; [|reflexivity].
      exfalso. apply Z.mod_divide in H0; [|lia].
      destruct H0 as [k Hk]. nia. }
  assert (HC' : flagC (snd (alu_sub a b f)) = Z.b2z (b <=? a)).
  { rewrite HC. destruct (Z.leb_spec b a); simpl Z.b2z.
    - symmetry. apply Z.div_unique with (r := a - b); lia.
    - apply Z.div_small; lia. }
  repeat split; try assumption.
  - rewrite HZ'. destruct (Z.eqb_spec a b); simpl; intros; lia.
  - intros ->. rewrite HZ'. now rewrite Z.eqb_refl.
  - rewrite HC'. destruct (Z.leb_spec b a); simpl; intros; lia.
  - intros Hle. rewrite HC'. destruct (Z.leb_spec b a); simpl; lia.
Qed.

Lemma alu_sub_correct_witness :
  fst (alu_sub 5 5 zero_flags) = 0 /\
  flagZ (snd (alu_sub 5 5 zero_flags)) = 1 /\
  flagC (snd (alu_sub 5 5 zero_flags)) = 1.
Proof.
  assert (H5 : is_word 5) by (unfold is_word; lia).
  destruct (alu_sub_correct 5 5 zero_flags H5 H5) as (Hr & HZ & _ & HC & _).
  rewrite Hr, HZ, HC. vm_compute. tauto.
Defined.

(** ** Memory *)

Section Mem.

Lemma mem_init_wf m : mem_wf (mem_init m).
Proof. unfold mem_wf, mem_init. cbn [data]. apply length_replicate. Qed.

Lemma set_byte_wf m i b : mem_wf m -> mem_wf (set_byte m i b).
Proof. unfold mem_wf, set_byte. cbn [data]. now rewrite length_insert. Qed.

Lemma byte_at_set_eq m i b :
  mem_wf m -> 0 <= i < MEM_SIZE -> byte_at (set_byte m i b) i = b.
Proof.
  unfold mem_wf, byte_at, set_byte. cbn [data]. intros Hl Hi.
  apply list_lookup_total_insert_eq. rewrite Hl. lia.
Qed.

Lemma byte_at_set_ne m i j b :
  0 <= i -> 0 <= j -> i <> j -> byte_at (set_byte m i b) j = byte_at m j.
Proof.
  unfold byte_at, set_byte. cbn [data]. intros Hi Hj Hne.
  apply list_lookup_total_insert_ne. lia.
Qed.

(** The three ways [check_access] answers. *)
Lemma check_access_cases a :
  (a mod 4 <> 0 /\ check_access a = Err AlignmentError) \/
  (a mod 4 = 0 /\ a > MEM_SIZE - 4 /\ check_access a = Err BoundsError) \/
  (a mod 4 = 0 /\ a <= MEM_SIZE - 4 /\ check_access a = Ok tt).
Proof.
  unfold check_access, MEM_WORD_SIZE.
  change (to_word (MEM_SIZE - 4)) with (MEM_SIZE - 4).
  destruct (Z.eqb_spec (a mod 4) 0) as [H0|Hn]; cbn [negb].
  - destruct (Z.gtb_spec a (MEM_SIZE - 4)); [right; left | right; right];
      repeat split; first [assumption | lia].
  - now left.
Qed.

(** Splitting a word into four bytes and putting it back. *)
Lemma word_of_bytes v :
  is_word v ->
  Z.lor (Z.lor (Z.lor
    (to_word (to_u8 (Z.land v 255)))
    (to_word (Z.shiftl (to_word (to_u8 (Z.land (Z.shiftr v 8) 255))) 8)))
    (to_word (Z.shiftl (to_word (to_u8 (Z.land (Z.shiftr v 16) 255))) 16)))
    (to_word (Z.shiftl (to_word (to_u8 (Z.land (Z.shiftr v 24) 255))) 24))
  = v.
Proof.
  intros Hv. unfold is_word in Hv.
  change 255 with (Z.ones 8). rewrite !Z.land_ones by lia.
  rewrite !Z.shiftr_div_pow2 by lia. unfold to_u8.
  rewrite !Z.mod_mod by lia.
  set (b0 := v mod 2 ^ 8). set (b1 := (v / 2 ^ 8) mod 2 ^ 8).
  set (b2 := (v / 2 ^ 16) mod 2 ^ 8). set (b3 := (v / 2 ^ 24) mod 2 ^ 8).
  assert (H0 : 0 <= b0 < 2 ^ 8) by (apply Z.mod_pos_bound; lia).
  assert (H1 : 0 <= b1 < 2 ^ 8) by (apply Z.mod_pos_bound; lia).
  assert (H2 : 0 <= b2 < 2 ^ 8) by (apply Z.mod_pos_bound; lia).
  assert (H3 : 0 <= b3 < 2 ^ 8) by (apply Z.mod_pos_bound; lia).
  assert (Hw : forall b k, 0 <= b < 2 ^ 8 -> 0 <= k <= 24 ->
            to_word (Z.shiftl (to_word b) k) = Z.shiftl b k /\
            to_word b = b).
  { intros b k Hb Hk. unfold to_word.
    rewrite (Z.mod_small b) by lia. split; [|reflexivity].
    rewrite Z.shiftl_mul_pow2 by lia. apply Z.mod_small.
    assert (2 ^ k <= 2 ^ 24) by (apply Z.pow_le_mono_r; lia).
    assert (0 < 2 ^ k) by (apply Z.pow_pos_nonneg; lia). nia. }
  destruct (Hw b0 0 H0 ltac:(lia)) as [_ ->].
  destruct (Hw b1 8 H1 ltac:(lia)) as [-> _].
  destruct (Hw b2 16 H2 ltac:(lia)) as [-> _].
  destruct (Hw b3 24 H3 ltac:(lia)) as [-> _].
  rewrite (lor_above b0 b1 8) by lia.
  rewrite (lor_above _ b2 16) by lia.
  rewrite (lor_above _ b3 24) by lia.
  subst b0 b1 b2 b3.
  Z.div_mod_to_equations. lia.
Qed.

Lemma to_u8_land_255 x : to_u8 (Z.land x 255) = Z.land x 255.
Proof.
  unfold to_u8. change 255 with (Z.ones 8).
  rewrite Z.land_ones by lia. apply Z.mod_mod. lia.
Qed.

(** The four cells a successful write leaves behind. *)
Lemma write_bytes m a b0 b1 b2 b3 :
  mem_wf m -> 0 <= a <= MEM_SIZE - 4 ->
  let m' := set_byte (set_byte (set_byte (set_byte m a b0)
              (a + 1) b1) (a + 2) b2) (a + 3) b3 in
  byte_at m' a = b0 /\ byte_at m' (a + 1) = b1 /\
  byte_at m' (a + 2) = b2 /\ byte_at m' (a + 3) = b3.
Proof.
  intros Hwf Ha. cbv zeta.
  assert (Hs : MEM_SIZE = 65536) by reflexivity.
  repeat split.
  - rewrite !byte_at_set_ne by lia. apply byte_at_set_eq; [assumption|lia].
  - rewrite !byte_at_set_ne by lia.
    apply byte_at_set_eq; [now apply set_byte_wf | lia].
  - rewrite !byte_at_set_ne by lia.
    apply byte_at_set_eq; [now repeat apply set_byte_wf | lia].
  - apply byte_at_set_eq; [now repeat apply set_byte_wf | lia].
Qed.

End Mem.

(** C8.  For every 4-byte-aligned address [a <= MEM_SIZE - 4] and every
    32-bit word [v], [mem_write_word] at [a] succeeds, a following
    [mem_read_word] at [a] succeeds and yields exactly [v], and the layout
    is little-endian: the byte at [a + k] is [(v >> 8k) & 0xFF] for
    [k] in 0..3. *)
Theorem mem_write_read_roundtrip (m : Memory) (a v : Z)
    (Hwf : mem_wf m) (Ha : 0 <= a <= MEM_SIZE - 4) (Hal : a mod 4 = 0)
    (Hv : is_word v) :
  exists m',
    mem_write_word (Some m) a v = (Ok tt, Some m') /\
    mem_read_word (Some m') a = Ok v /\
    forall k, 0 <= k < 4 ->
      byte_at m' (a + k) = Z.land (Z.shiftr v (8 * k)) 255.
Proof.
  unfold mem_write_word, mem_read_word.
  destruct (check_access_cases a) as [[Hn _] | [(_ & Hgt & _) | (_ & _ & ->)]];
    [contradiction | lia |].
  eexists. split; [reflexivity|].
  cbv zeta.
  destruct (write_bytes m a (to_u8 (Z.land v 255))
              (to_u8 (Z.land (Z.shiftr v 8) 255))
              (to_u8 (Z.land (Z.shiftr v 16) 255))
              (to_u8 (Z.land (Z.shiftr v 24) 255)) Hwf Ha)
    as (E0 & E1 & E2 & E3).
  cbv zeta in E0, E1, E2, E3.
  split.
  - rewrite E0, E1, E2, E3. f_equal. now apply word_of_bytes.
  - intros k Hk.
    assert (Hcase : k = 0 \/ k = 1 \/ k = 2 \/ k = 3) by lia.
    destruct Hcase as [-> | [-> | [-> | ->]]].
    + rewrite Z.add_0_r, E0, to_u8_land_255. now rewrite Z.shiftr_0_r.
    + rewrite E1. apply to_u8_land_255.
    + rewrite E2. apply to_u8_land_255.
    + rewrite E3. apply to_u8_land_255.
Qed.

Lemma mem_write_read_roundtrip_witness :
  exists m',
    mem_write_word (Some (mem_init (mkMemory []))) 0x200 0xDEADBEEF
      = (Ok tt, Some m') /\
    mem_read_word (Some m') 0x200 = Ok 0xDEADBEEF /\
    forall k, 0 <= k < 4 ->
      byte_at m' (0x200 + k) = Z.land (Z.shiftr 0xDEADBEEF (8 * k)) 255.
Proof.
  apply (mem_write_read_roundtrip (mem_init (mkMemory [])) 0x200 0xDEADBEEF).
  - apply mem_init_wf.
  - unfold MEM_SIZE. lia.
  - reflexivity.
  - unfold is_word. lia.
Defined.

(** C9.  [mem_read_word] and [mem_write_word] fail with [AlignmentError]
    exactly when [addr mod 4 <> 0]; an address above [MEM_SIZE - 4]
    ([MEM_SIZE] = 65536) always fails, with [BoundsError] once the alignment
    test, which comes first, has passed; a failing write leaves the memory
    as it was.  In particular reading at 0x102 fails with [AlignmentError],
    reading at 0x10000 fails with [BoundsError], and reading at 0xFFFC
    succeeds. *)
Theorem mem_access_errors (m : Memory) (a v : Z) :
  (mem_read_word (Some m) a = Err AlignmentError <-> a mod 4 <> 0) /\
  (fst (mem_write_word (Some m) a v) = Err AlignmentError <-> a mod 4 <> 0) /\
  (mem_read_word (Some m) a = Err BoundsError <->
     a mod 4 = 0 /\ a > MEM_SIZE - 4) /\
  (fst (mem_write_word (Some m) a v) = Err BoundsError <->
     a mod 4 = 0 /\ a > MEM_SIZE - 4) /\
  (a > MEM_SIZE - 4 ->
     (exists e, mem_read_word (Some m) a = Err e) /\
     (exists e, fst (mem_write_word (Some m) a v) = Err e)) /\
  (forall e, fst (mem_write_word (Some m) a v) = Err e ->
     snd (mem_write_word (Some m) a v) = Some m) /\
  MEM_SIZE = 65536 /\
  mem_read_word (Some m) 0x102 = Err AlignmentError /\
  mem_read_word (Some m) 0x10000 = Err BoundsError /\
  (exists w, mem_read_word (Some m) 0xFFFC = Ok w).
Proof.
  unfold mem_read_word, mem_write_word.
  destruct (check_access_cases a)
    as [[Hn ->] | [(H0 & Hgt & ->) | (H0 & Hle & ->)]]; cbn [fst snd].
  all: repeat match goal with |- _ /\ _ => split end.
  all: try (split; [intros ? | intros ?]); try (intros ?).
  all: try solve [ reflexivity | congruence | lia | tauto
                 | split; eexists; reflexivity
                 | eexists; reflexivity ].
Qed.

(** ** Code generation *)

Section Lowering.

Lemma leaves_pos t : 1 <= leaves t.
Proof. induction t; cbn [leaves]; lia. Qed.

Lemma to_int_small x : - 2 ^ 31 <= x < 2 ^ 31 -> to_int x = x.
Proof. intros Hx. unfold to_int. rewrite Z.mod_small; lia. Qed.

(** [codegen_expr] returns the counter it started from, appends
    [lowered] to the program and leaves the counter of [lowered]. *)
Lemma codegen_expr_lowered t : forall cg,
  codegen_expr cg t =
    (next_reg cg,
     mkCodegen (prog cg ++ fst (lowered (next_reg cg) t))
               (snd (lowered (next_reg cg) t))).
Proof.
  induction t as [v | o l IHl r IHr]; intros cg.
  - reflexivity.
  - cbn [codegen_expr lowered]. rewrite IHl, IHr. cbn [prog next_reg].
    destruct (lowered (next_reg cg) l) as [cl n1]. cbn [fst snd].
    destruct (lowered n1 r) as [cr n2]. cbn [fst snd].
    unfold emit, ir_program_append. cbn [prog next_reg].
    now rewrite <- !app_assoc.
Qed.

(** Below the [int] limit the counter advances by one per leaf. *)
Lemma lowered_next t : forall n,
  0 <= n -> n + leaves t < 2 ^ 31 -> snd (lowered n t) = n + leaves t.
Proof.
  induction t as [v | o l IHl r IHr]; intros n Hn Hlim; cbn [lowered leaves] in *.
  - cbn [snd]. apply to_int_small. lia.
  - pose proof (leaves_pos l). pose proof (leaves_pos r).
    specialize (IHl n Hn ltac:(lia)).
    destruct (lowered n l) as [cl n1]. cbn [snd] in IHl. subst n1.
    specialize (IHr (n + leaves l) ltac:(lia) ltac:(lia)).
    destruct (lowered (n + leaves l) r) as [cr n2]. cbn [snd] in *. lia.
Qed.

(** A tree with [k] leaves lowers to [2k - 1] instructions. *)
Lemma lowered_length t : forall n,
  Z.of_nat (length (fst (lowered n t))) = 2 * leaves t - 1.
Proof.
  induction t as [v | o l IHl r IHr]; intros n; cbn [lowered leaves].
  - reflexivity.
  - specialize (IHl n). destruct (lowered n l) as [cl n1].
    specialize (IHr n1). destruct (lowered n1 r) as [cr n2].
    cbn [fst] in *. rewrite !length_app. cbn [length]. lia.
Qed.

Lemma compile_lowered t : compile t = (0, fst (lowered 0 t)).
Proof.
  unfold compile. rewrite codegen_expr_lowered. reflexivity.
Qed.

End Lowering.

(** C2.  [codegen_expr] lowers a tree post-order.  A Number leaf takes
    the register [r] from the counter, which advances by one, appends
    [LoadConst r, value] and returns [r].  A BinaryOp node lowers the left
    child to [lr], then the right child to [rr] (a larger index, since the
    counter only grows), appends the mapped opcode with [dst = lr] and
    [src = rr] after the code of both children, and returns [lr].  For the
    tree of [3+4] the program is exactly [LoadConst r0,3; LoadConst r1,4;
    Add r0,r1] and the returned register is [r0]. *)
Theorem codegen_expr_postorder (cg : Codegen) (v : Z) (o : BinaryOp)
    (l r : Node)
    (Hreg : 0 <= next_reg cg)
    (Hint : next_reg cg + leaves l + leaves r < 2 ^ 31) :
  codegen_expr cg (NODE_NUMBER v) =
    (next_reg cg,
     mkCodegen (prog cg ++ [mkInstr IR_LOAD_CONST (next_reg cg) 0 v 0 0])
               (next_reg cg + 1)) /\
  (exists lr cg1 rr cg2 code_l code_r,
     codegen_expr cg l = (lr, cg1) /\
     codegen_expr cg1 r = (rr, cg2) /\
     codegen_expr cg (NODE_BINARY_OP o l r) =
       (lr, mkCodegen
              (prog cg2 ++ [mkInstr (ast_op_to_ir o) lr rr 0 0 0])
              (next_reg cg2)) /\
     prog cg1 = prog cg ++ code_l /\
     prog cg2 = prog cg ++ code_l ++ code_r /\
     Z.of_nat (length code_l) = 2 * leaves l - 1 /\
     Z.of_nat (length code_r) = 2 * leaves r - 1 /\
     lr = next_reg cg /\
     rr = next_reg cg + leaves l /\
     lr < rr /\
     next_reg cg2 = next_reg cg + leaves l + leaves r) /\
  (ast_op_to_ir OP_ADD = IR_ADD /\ ast_op_to_ir OP_SUB = IR_SUB /\
   ast_op_to_ir OP_MUL = IR_MUL /\ ast_op_to_ir OP_DIV = IR_DIV) /\
  compile (NODE_BINARY_OP OP_ADD (NODE_NUMBER 3) (NODE_NUMBER 4)) =
    (0, [mkInstr IR_LOAD_CONST 0 0 3 0 0;
         mkInstr IR_LOAD_CONST 1 0 4 0 0;
         mkInstr IR_ADD 0 1 0 0 0]).
Proof.
  pose proof (leaves_pos l) as Hl. pose proof (leaves_pos r) as Hr.
  split; [|split; [|split; [repeat split | reflexivity]]].
  - cbn [codegen_expr]. unfold alloc_reg, emit, ir_program_append.
    cbn [prog next_reg]. now rewrite to_int_small by lia.
  - exists (next_reg cg),
      (mkCodegen (prog cg ++ fst (lowered (next_reg cg) l))
                 (next_reg cg + leaves l)),
      (next_reg cg + leaves l),
      (mkCodegen ((prog cg ++ fst (lowered (next_reg cg) l)) ++
                    fst (lowered (next_reg cg + leaves l) r))
                 (next_reg cg + leaves l + leaves r)),
      (fst (lowered (next_reg cg) l)),
      (fst (lowered (next_reg cg + leaves l) r)).
    assert (E1 : codegen_expr cg l =
              (next_reg cg,
               mkCodegen (prog cg ++ fst (lowered (next_reg cg) l))
                         (next_reg cg + leaves l))).
    { rewrite codegen_expr_lowered, lowered_next by lia. reflexivity. }
    assert (E2 : codegen_expr
                   (mkCodegen (prog cg ++ fst (lowered (next_reg cg) l))
                              (next_reg cg + leaves l)) r =
              (next_reg cg + leaves l,
               mkCodegen ((prog cg ++ fst (lowered (next_reg cg) l)) ++
                            fst (lowered (next_reg cg + leaves l) r))
                         (next_reg cg + leaves l + leaves r))).
    { rewrite codegen_expr_lowered. cbn [prog next_reg].
      rewrite lowered_next by lia. reflexivity. }
    split; [exact E1|]. split; [exact E2|].
    split; [cbn [codegen_expr]; rewrite E1, E2; reflexivity|].
    cbn [prog next_reg].
    repeat split; try lia.
    + now rewrite app_assoc.
    + apply lowered_length.
    + apply lowered_length.
Qed.

Lemma codegen_expr_postorder_witness :
  codegen_expr (codegen_init ir_program_init) (NODE_NUMBER 3) =
    (0, mkCodegen [mkInstr IR_LOAD_CONST 0 0 3 0 0] 1) /\
  compile (NODE_BINARY_OP OP_ADD (NODE_NUMBER 3) (NODE_NUMBER 4)) =
    (0, [mkInstr IR_LOAD_CONST 0 0 3 0 0;
         mkInstr IR_LOAD_CONST 1 0 4 0 0;
         mkInstr IR_ADD 0 1 0 0 0]).
Proof.
  assert (H0 : 0 <= next_reg (codegen_init ir_program_init))
    by (cbn; lia).
  assert (H1 : next_reg (codegen_init ir_program_init) +
               leaves (NODE_NUMBER 3) + leaves (NODE_NUMBER 4) < 2 ^ 31)
    by (cbn; lia).
  destruct (codegen_expr_postorder (codegen_init ir_program_init) 3 OP_ADD
              (NODE_NUMBER 3) (NODE_NUMBER 4) H0 H1) as (Hleaf & _ & _ & Hex).
  split; [exact Hleaf | exact Hex].
Defined.

(** ** One iteration of the CPU loop *)

Section Iteration.

Lemma check_reg_ok r :
  check_reg r = if bad_reg r then Err RegisterOutOfRange else Ok tt.
Proof. reflexivity. Qed.

Lemma dispatch_not_guard n i c last :
  dispatch n i c last <> Err InfiniteLoopGuard.
Proof.
  unfold dispatch, check_reg, check_target.
  repeat case_match; congruence.
Qed.

(** The flags after an instruction that is not an ALU operation. *)
Lemma dispatch_flags n i c last c' last' j :
  dispatch n i c last = Ok (c', last', j) ->
  In (op i) [IR_LOAD_CONST; IR_JMP; IR_JZ; IR_JNZ; IR_LOAD; IR_STORE] ->
  flags c' = flags c.
Proof.
  unfold dispatch, check_reg, check_target. intros Hd Hop.
  cbn [In] in Hop.
  repeat case_match; simplify_eq; try reflexivity;
    exfalso; intuition congruence.
Qed.

Lemma loop_body_inv n i s s' :
  loop_body n i s = Ok s' ->
  step_count s + 1 <= CPU_MAX_STEPS /\
  step_count s' = step_count s + 1 /\
  exists c last j,
    dispatch n i (cpu s) (last_dst s) = Ok (c, last, j) /\
    cpu s' = (if j then c else set_pc c (pc c + 1)) /\
    last_dst s' = last.
Proof.
  unfold loop_body. intros H.
  destruct (Z.gtb_spec (step_count s + 1) CPU_MAX_STEPS); [discriminate|].
  destruct (dispatch n i (cpu s) (last_dst s)) as [[[c last] j]|e];
    [|discriminate].
  injection H as <-. cbn [cpu last_dst step_count].
  repeat split; try lia. now exists c, last, j.
Qed.

End Iteration.

(** C6.  During [cpu_execute] the flags are written only by Add, Sub, Mul,
    Div and Cmp: an iteration that executes a LoadConst, Jmp, Jz, Jnz, Load
    or Store leaves Z, N, C and V exactly as they were, and an iteration
    that changes the flags executed one of the five ALU opcodes. *)
Theorem flags_written_only_by_alu (p : IRProgram) (s s' : Exec)
    (Hstep : cpu_iteration p s = Ok s') :
  let i := p !!! Z.to_nat (pc (cpu s)) in
  (In (op i) [IR_LOAD_CONST; IR_JMP; IR_JZ; IR_JNZ; IR_LOAD; IR_STORE] ->
   flags (cpu s') = flags (cpu s) /\
   flagZ (flags (cpu s')) = flagZ (flags (cpu s)) /\
   flagN (flags (cpu s')) = flagN (flags (cpu s)) /\
   flagC (flags (cpu s')) = flagC (flags (cpu s)) /\
   flagV (flags (cpu s')) = flagV (flags (cpu s))) /\
  (flags (cpu s') <> flags (cpu s) ->
   In (op i) [IR_ADD; IR_SUB; IR_MUL; IR_DIV; IR_CMP]).
Proof.
  cbv zeta. unfold cpu_iteration in Hstep.
  apply loop_body_inv in Hstep.
  destruct Hstep as (_ & _ & c & last & j & Hd & Hc & _).
  assert (Hframe :
    In (op (p !!! Z.to_nat (pc (cpu s))))
       [IR_LOAD_CONST; IR_JMP; IR_JZ; IR_JNZ; IR_LOAD; IR_STORE] ->
    flags (cpu s') = flags (cpu s)).
  { intros Hop. rewrite Hc.
    rewrite <- (dispatch_flags _ _ _ _ _ _ _ Hd Hop). now destruct j. }
  split.
  - intros Hop. specialize (Hframe Hop). now rewrite Hframe.
  - intros Hne. cbn [In] in *.
    destruct (op (p !!! Z.to_nat (pc (cpu s)))); tauto.
Qed.

Lemma flags_written_only_by_alu_witness :
  let p := [mkInstr IR_LOAD_CONST 3 0 42 0 0] in
  let s := mkExec (mkCPU (replicate 32 0) (mkFlags 1 0 1 0) 0 None) 0 0 in
  exists s', cpu_iteration p s = Ok s' /\
             flags (cpu s') = mkFlags 1 0 1 0 /\
             read_reg (cpu s') 3 = 42.
Proof.
  cbv zeta.
  eexists. split; [reflexivity|]. split; [|reflexivity].
  refine (proj1 (proj1 (flags_written_only_by_alu
            [mkInstr IR_LOAD_CONST 3 0 42 0 0]
            (mkExec (mkCPU (replicate 32 0) (mkFlags 1 0 1 0) 0 None) 0 0)
            _ eq_refl) _)).
  cbn. tauto.
Defined.

(** ** The loop *)

Section Loop.

Lemma cpu_loop_done fuel p s :
  count p <= pc (cpu s) -> cpu_loop fuel p s = Some (Finished s).
Proof.
  intros H. destruct fuel; cbn [cpu_loop];
    destruct (Z.ltb_spec (pc (cpu s)) (count p)); first [lia | reflexivity].
Qed.

Lemma cpu_loop_step fuel p s :
  pc (cpu s) < count p ->
  cpu_loop (S fuel) p s =
    match cpu_iteration p s with
    | Err e => Some (Failed e (pc (cpu s)) (step_count s + 1))
    | Ok s' => cpu_loop fuel p s'
    end.
Proof.
  intros H. cbn [cpu_loop].
  destruct (Z.ltb_spec (pc (cpu s)) (count p)); [reflexivity | lia].
Qed.

(** What one iteration can do to the step counter. *)
Lemma cpu_iteration_cases p s :
  (CPU_MAX_STEPS < step_count s + 1 /\
   cpu_iteration p s = Err InfiniteLoopGuard) \/
  (step_count s + 1 <= CPU_MAX_STEPS /\
   ((exists e, cpu_iteration p s = Err e /\ e <> InfiniteLoopGuard) \/
    (exists s', cpu_iteration p s = Ok s' /\
                step_count s' = step_count s + 1))).
Proof.
  unfold cpu_iteration, loop_body.
  destruct (Z.gtb_spec (step_count s + 1) CPU_MAX_STEPS) as [Hgt|Hle].
  - left. split; [lia | reflexivity].
  - right. split; [lia|].
    pose proof (dispatch_not_guard (count p)
                  (p !!! Z.to_nat (pc (cpu s))) (cpu s) (last_dst s)) as Hng.
    destruct (dispatch _ _ _ _) as [[[c last] j]|e].
    + right. eexists. split; reflexivity.
    + left. exists e. split; congruence.
Qed.

(** Enough fuel to reach the guard is enough fuel. *)
Lemma cpu_loop_total p : forall fuel s,
  0 <= step_count s <= CPU_MAX_STEPS ->
  CPU_MAX_STEPS < step_count s + Z.of_nat fuel ->
  exists r, cpu_loop fuel p s = Some r /\ loop_end_ok (step_count s) r.
Proof.
  induction fuel as [|fuel IH]; intros s Hs Hfuel; [lia|].
  destruct (Z.lt_ge_cases (pc (cpu s)) (count p)) as [Hlt|Hge].
  - rewrite cpu_loop_step by assumption.
    destruct (cpu_iteration_cases p s)
      as [[Hgt ->] | [Hle [(e & -> & Hne) | (s' & -> & Hs')]]].
    + eexists. split; [reflexivity|]. cbn. split; [lia|]. split; [reflexivity|lia].
    + eexists. split; [reflexivity|]. cbn. split; [lia|]. split; [lia|congruence].
    + destruct (IH s' ltac:(lia) ltac:(lia)) as (r & Hr & Hok).
      exists r. split; [assumption|].
      destruct r; cbn in *; rewrite Hs' in Hok; intuition lia.
  - rewrite cpu_loop_done by lia. eexists. split; [reflexivity|]. cbn. lia.
Qed.

End Loop.

(** C7.  [cpu_execute] always terminates: for every program it returns,
    with status 0 or -1, after dispatching at most [CPU_MAX_STEPS] =
    1,000,000 instructions; the step counter goes beyond [CPU_MAX_STEPS]
    exactly when the run fails with [InfiniteLoopGuard], as the one-
    instruction loop [Jmp 0] does. *)
Theorem cpu_execute_total (p : IRProgram) (m : option Memory) :
  (exists r,
     cpu_execute p m = Some r /\
     (status_code r = 0 \/ status_code r = -1) /\
     0 <= dispatched r <= CPU_MAX_STEPS /\
     match r with
     | Finished s => 0 <= step_count s <= CPU_MAX_STEPS
     | Failed e _ steps =>
         0 <= steps <= CPU_MAX_STEPS + 1 /\
         (CPU_MAX_STEPS < steps <-> e = InfiniteLoopGuard)
     end) /\
  CPU_MAX_STEPS = 1000000 /\
  cpu_execute [mkInstr IR_JMP 0 0 0 0 0] m =
    Some (Failed InfiniteLoopGuard 0 (CPU_MAX_STEPS + 1)).
Proof.
  split; [|split; [reflexivity|]].
  - unfold cpu_execute.
    destruct (Z.eqb_spec (count p) 0) as [H0|Hne].
    + eexists. split; [reflexivity|]. cbn. unfold CPU_MAX_STEPS.
      repeat split; first [lia | discriminate | now right].
    + destruct (cpu_loop_total p cpu_fuel (cpu_reset m)) as (r & Hr & Hok).
      * cbn. unfold CPU_MAX_STEPS. lia.
      * unfold cpu_fuel, CPU_MAX_STEPS. cbn [cpu_reset step_count]. lia.
      * exists r. split; [assumption|].
        cbn [cpu_reset step_count] in Hok.
        split; [destruct r; cbn; lia|].
        destruct r as [s|e k steps]; cbn in Hok |- *.
        -- lia.
        -- destruct Hok as [Hb Hiff].
           split; [|split; [lia|]].
           ++ destruct e; try lia;
                (assert (steps <> CPU_MAX_STEPS + 1)
                   by (intros Hx; apply Hiff in Hx; discriminate); lia).
           ++ split; [intros; apply Hiff; lia |].
              intros He. apply Hiff in He. lia.
  - vm_compute. reflexivity.
Qed.

(** C5, as amended.  A branch instruction checks its target when it is
    taken (Jmp always, Jz when Z = 1, Jnz when Z = 0): a taken branch whose
    target lies outside [0, program length] fails with [BranchOutOfRange];
    a target equal to the program length is legal and ends the loop.  A Jz
    or Jnz that is not taken falls through to [pc + 1] without looking at
    its target. *)
Theorem branch_target_checked_when_taken (p : IRProgram) (s : Exec)
    (fuel : nat)
    (Hpc : 0 <= pc (cpu s) < count p)
    (Hsteps : step_count s + 1 <= CPU_MAX_STEPS)
    (Hbr : is_branch (op (p !!! Z.to_nat (pc (cpu s)))) = true) :
  let i := p !!! Z.to_nat (pc (cpu s)) in
  let jumped :=
    mkExec (set_pc (cpu s) (target i)) (last_dst s) (step_count s + 1) in
  let fell_through :=
    mkExec (set_pc (cpu s) (pc (cpu s) + 1)) (last_dst s)
           (step_count s + 1) in
  (branch_taken i (flags (cpu s)) = true ->
   ~ (0 <= target i <= count p) ->
   cpu_loop (S fuel) p s =
     Some (Failed BranchOutOfRange (pc (cpu s)) (step_count s + 1))) /\
  (branch_taken i (flags (cpu s)) = true ->
   0 <= target i <= count p ->
   cpu_loop (S fuel) p s = cpu_loop fuel p jumped /\
   (target i = count p -> cpu_loop (S fuel) p s = Some (Finished jumped))) /\
  (branch_taken i (flags (cpu s)) = false ->
   cpu_loop (S fuel) p s = cpu_loop fuel p fell_through).
Proof.
  cbv zeta. rewrite cpu_loop_step by lia.
  unfold cpu_iteration, loop_body.
  destruct (Z.gtb_spec (step_count s + 1) CPU_MAX_STEPS) as [?|_]; [lia|].
  set (i := p !!! Z.to_nat (pc (cpu s))) in *.
  unfold branch_taken, dispatch, check_target.
  assert (Hrange : forall t n, (t <? 0) || (t >? n) = false <-> 0 <= t <= n).
  { intros t n. destruct (Z.ltb_spec t 0), (Z.gtb_spec t n); cbn;
      intuition (try discriminate; lia). }
  split; [|split].
  - intros Htaken Hout.
    assert (Hc : (target i <? 0) || (target i >? count p) = true).
    { destruct ((target i <? 0) || (target i >? count p)) eqn:E;
        [reflexivity|]. apply Hrange in E. contradiction. }
    destruct (op i); try discriminate; rewrite ?Htaken, Hc; reflexivity.
  - intros Htaken Hin. apply Hrange in Hin as Hc.
    unfold is_branch in Hbr.
    destruct (op i); try discriminate Hbr;
      rewrite ?Htaken, Hc in *; cbn [negb];
      (split; [reflexivity|]); intros Hend;
      apply cpu_loop_done; cbn [cpu set_pc pc]; lia.
  - intros Hnot.
    unfold is_branch in Hbr.
    destruct (op i); try discriminate Hbr; try discriminate Hnot;
      rewrite Hnot; reflexivity.
Qed.

Lemma branch_target_checked_when_taken_witness :
  cpu_loop 1 [mkInstr IR_JMP 0 0 0 1 0] (cpu_reset None) =
    Some (Finished (mkExec (set_pc (cpu (cpu_reset None)) 1) 0 1)).
Proof.
  assert (Hpc : 0 <= pc (cpu (cpu_reset None))
                  < count [mkInstr IR_JMP 0 0 0 1 0])
    by (unfold count; cbn; lia).
  assert (Hsteps : step_count (cpu_reset None) + 1 <= CPU_MAX_STEPS)
    by (cbn; unfold CPU_MAX_STEPS; lia).
  destruct (branch_target_checked_when_taken
              [mkInstr IR_JMP 0 0 0 1 0] (cpu_reset None) 0 Hpc Hsteps
              eq_refl) as (_ & Htaken & _).
  apply Htaken; [reflexivity | vm_compute; split; discriminate | reflexivity].
Defined.

(** C5 as stated fails: a Jz (Z = 0) and a Jnz (Z = 1) that are executed
    but not taken, each with a target far outside the program, do not
    stop the run; it finishes with status 0. *)
Lemma untaken_branch_target_unchecked :
  let jz := [mkInstr IR_JZ 0 0 0 7 0] in
  let jnz := [mkInstr IR_LOAD_CONST 0 0 0 0 0;
              mkInstr IR_CMP 0 0 0 0 0;
              mkInstr IR_JNZ 0 0 0 99 0] in
  ~ (0 <= target (jz !!! 0%nat) <= count jz) /\
  (exists s, cpu_execute jz None = Some (Finished s) /\
             status_code (Finished s) = 0 /\ step_count s = 1) /\
  ~ (0 <= target (jnz !!! 2%nat) <= count jnz) /\
  (exists s, cpu_execute jnz None = Some (Finished s) /\
             status_code (Finished s) = 0 /\ step_count s = 3).
Proof.
  cbv zeta. split; [unfold count; cbn; lia|]. split.
  - eexists. split; [vm_compute; reflexivity|]. split; reflexivity.
  - split; [unfold count; cbn; lia|].
    eexists. split; [vm_compute; reflexivity|]. split; reflexivity.
Qed.

(** ** Code without branches *)

Section Straight.

Lemma exec_block_app n c1 : forall c2 s,
  exec_block n (c1 ++ c2) s =
    match exec_block n c1 s with
    | Finished s' => exec_block n c2 s'
    | Failed e k st => Failed e k st
    end.
Proof.
  induction c1 as [|i c1 IH]; intros c2 s; [reflexivity|].
  cbn [exec_block app]. destruct (loop_body n i s); [apply IH | reflexivity].
Qed.

Lemma exec_alu_pc alu i c : pc (exec_alu alu i c) = pc c.
Proof. unfold exec_alu. now destruct (alu _ _ _). Qed.

Lemma exec_alu_regs alu i c :
  regs (exec_alu alu i c) =
    <[Z.to_nat (dst i) :=
        fst (alu (read_reg c (dst i)) (read_reg c (src i)) (flags c))]>
      (regs c).
Proof. unfold exec_alu. now destruct (alu _ _ _). Qed.

(** An instruction that is not a branch leaves [pc] to the loop. *)
Lemma dispatch_straight n i c last c' last' j :
  is_branch (op i) = false ->
  dispatch n i c last = Ok (c', last', j) ->
  j = false /\ pc c' = pc c.
Proof.
  unfold dispatch, check_reg. intros Hb Hd.
  destruct (op i); try discriminate Hb;
    repeat case_match; simplify_eq; cbn [pc write_reg set_flags set_mem];
    rewrite ?exec_alu_pc; auto.
Qed.

Lemma loop_body_straight n i s s' :
  is_branch (op i) = false ->
  loop_body n i s = Ok s' ->
  pc (cpu s') = pc (cpu s) + 1 /\ step_count s' = step_count s + 1.
Proof.
  intros Hb H. apply loop_body_inv in H.
  destruct H as (_ & Hs & c & last & j & Hd & Hc & _).
  destruct (dispatch_straight _ _ _ _ _ _ _ Hb Hd) as [-> Hpc].
  rewrite Hc. cbn [pc set_pc]. lia.
Qed.

Lemma count_app (p q : IRProgram) : count (p ++ q) = count p + count q.
Proof. unfold count. rewrite length_app. lia. Qed.

(** The loop on a stretch of branch-free code does what [exec_block]
    does on it. *)
Lemma cpu_loop_block code : forall pre post s,
  Forall (fun i => is_branch (op i) = false) code ->
  pc (cpu s) = count pre ->
  let p := pre ++ code ++ post in
  match exec_block (count p) code s with
  | Failed e k st =>
      forall fuel, st - step_count s <= Z.of_nat fuel ->
                   cpu_loop fuel p s = Some (Failed e k st)
  | Finished s' =>
      pc (cpu s') = count pre + count code /\
      forall fuel, cpu_loop (length code + fuel) p s = cpu_loop fuel p s'
  end.
Proof.
  induction code as [|i code IH]; intros pre post s Hall Hpc; cbv zeta.
  - cbn [exec_block]. split; [unfold count in *; cbn [length]; lia | reflexivity].
  - cbn [exec_block].
    assert (Hlt : pc (cpu s) < count (pre ++ (i :: code) ++ post)).
    { rewrite !count_app. unfold count in *. cbn [length]. lia. }
    assert (Hfetch : (pre ++ (i :: code) ++ post) !!! Z.to_nat (pc (cpu s))
                     = i).
    { rewrite Hpc. unfold count. rewrite Nat2Z.id.
      now apply list_lookup_total_middle. }
    inversion Hall as [|? ? Hi Hrest]; subst.
    destruct (loop_body _ i s) as [s1|e] eqn:Hbody.
    + destruct (loop_body_straight _ _ _ _ Hi Hbody) as [Hpc1 Hsc1].
      specialize (IH (pre ++ [i]) post s1 Hrest).
      rewrite count_app in IH. unfold count at 2 in IH. cbn [length] in IH.
      specialize (IH ltac:(lia)). cbv zeta in IH.
      replace ((pre ++ [i]) ++ code ++ post)
        with (pre ++ (i :: code) ++ post) in IH
        by (now rewrite <- app_assoc).
      destruct (exec_block _ code s1) as [s'|e k st].
      * destruct IH as [Hpc' Hloop]. split.
        -- unfold count in *. rewrite ?length_app in *. cbn [length] in *. lia.
        -- intros fuel. cbn [length Nat.add].
           rewrite cpu_loop_step by assumption.
           unfold cpu_iteration. rewrite Hfetch, Hbody. apply Hloop.
      * intros fuel Hfuel. destruct fuel as [|fuel].
        -- pose proof (IH 0%nat) as H0. 
           assert (Hst : step_count s1 < st).
           { destruct (Z.lt_ge_cases (step_count s1) st); [assumption|].
             specialize (H0 ltac:(lia)).
             destruct (Z.lt_ge_cases (pc (cpu s1))
                         (count (pre ++ (i :: code) ++ post))) as [Hl|Hg].
             - cbn [cpu_loop] in H0.
               destruct (Z.ltb_spec (pc (cpu s1))
                           (count (pre ++ (i :: code) ++ post)));
                 [discriminate | lia].
             - rewrite cpu_loop_done in H0 by lia. discriminate. }
           lia.
        -- rewrite cpu_loop_step by assumption.
           unfold cpu_iteration. rewrite Hfetch, Hbody. apply IH. lia.
    + intros fuel Hfuel. destruct fuel as [|fuel]; [lia|].
      rewrite cpu_loop_step by assumption.
      unfold cpu_iteration. now rewrite Hfetch, Hbody.
Qed.

End Straight.

(** ** Running compiled code *)

Section Compiled.

Lemma bad_reg_false r : bad_reg r = false <-> 0 <= r < 32.
Proof.
  unfold bad_reg, CPU_MAX_REGS.
  destruct (Z.ltb_spec r 0), (Z.geb_spec r 32); cbn; intuition (try discriminate; lia).
Qed.

Lemma regs_insert_same (rs : list Z) r v :
  0 <= r < 32 -> length rs = Z.to_nat CPU_MAX_REGS ->
  <[Z.to_nat r := v]> rs !!! Z.to_nat r = v.
Proof.
  intros Hr Hlen. apply list_lookup_total_insert_eq.
  rewrite Hlen. unfold CPU_MAX_REGS. lia.
Qed.

Lemma regs_insert_other (rs : list Z) r r' v :
  0 <= r -> 0 <= r' -> r <> r' ->
  <[Z.to_nat r := v]> rs !!! Z.to_nat r' = rs !!! Z.to_nat r'.
Proof.
  intros Hr Hr' Hne. apply list_lookup_total_insert_ne. lia.
Qed.

Lemma body_load_const_bad N n v s :
  step_count s + 1 <= CPU_MAX_STEPS -> bad_reg n = true ->
  loop_body N (mkInstr IR_LOAD_CONST n 0 v 0 0) s = Err RegisterOutOfRange.
Proof.
  intros Hs Hbad. unfold loop_body.
  destruct (Z.gtb_spec (step_count s + 1) CPU_MAX_STEPS); [lia|].
  unfold dispatch. cbn [op dst]. now rewrite check_reg_ok, Hbad.
Qed.

Lemma body_load_const_ok N n v s :
  step_count s + 1 <= CPU_MAX_STEPS -> bad_reg n = false ->
  exists s',
    loop_body N (mkInstr IR_LOAD_CONST n 0 v 0 0) s = Ok s' /\
    regs (cpu s') = <[Z.to_nat n := to_word v]> (regs (cpu s)) /\
    last_dst s' = n /\ step_count s' = step_count s + 1.
Proof.
  intros Hs Hbad. unfold loop_body.
  destruct (Z.gtb_spec (step_count s + 1) CPU_MAX_STEPS); [lia|].
  unfold dispatch. cbn [op dst imm]. rewrite check_reg_ok, Hbad.
  eexists. split; [reflexivity|]. now cbn.
Qed.

Lemma body_arith N o a b s :
  step_count s + 1 <= CPU_MAX_STEPS ->
  bad_reg a = false -> bad_reg b = false ->
  (o = OP_DIV /\ read_reg (cpu s) b = 0 /\
   loop_body N (mkInstr (ast_op_to_ir o) a b 0 0 0) s = Err DivisionByZero) \/
  ((o = OP_DIV -> read_reg (cpu s) b <> 0) /\
   exists s',
     loop_body N (mkInstr (ast_op_to_ir o) a b 0 0 0) s = Ok s' /\
     regs (cpu s') =
       <[Z.to_nat a :=
           fst (alu_of o (read_reg (cpu s) a) (read_reg (cpu s) b)
                  (flags (cpu s)))]> (regs (cpu s)) /\
     last_dst s' = a /\ step_count s' = step_count s + 1).
Proof.
  intros Hs Ha Hb. unfold loop_body.
  destruct (Z.gtb_spec (step_count s + 1) CPU_MAX_STEPS); [lia|].
  unfold dispatch.
  destruct o; cbn [ast_op_to_ir op dst src alu_of];
    rewrite !check_reg_ok, Ha, Hb.
  1-3: right; split; [discriminate|]; eexists; split; [reflexivity|];
       cbn [cpu last_dst step_count set_pc regs];
       rewrite exec_alu_regs; cbn [dst src]; auto.
  destruct (Z.eqb_spec (read_reg (cpu s) b) 0) as [H0|Hne].
  - left. auto.
  - right. split; [auto|]. eexists. split; [reflexivity|].
    cbn [cpu last_dst step_count set_pc regs].
    rewrite exec_alu_regs. cbn [dst src]. auto.
Qed.

(** The reference evaluator on a binary node that evaluates. *)
Lemma eval_binop_ok o l r :
  status (eval (NODE_BINARY_OP o l r)) = EVAL_OK ->
  status (eval l) = EVAL_OK /\ status (eval r) = EVAL_OK /\
  (o = OP_DIV -> value (eval r) <> 0) /\
  value (eval (NODE_BINARY_OP o l r)) =
    to_long (match o with
             | OP_ADD => value (eval l) + value (eval r)
             | OP_SUB => value (eval l) - value (eval r)
             | OP_MUL => value (eval l) * value (eval r)
             | OP_DIV => Z.quot (value (eval l)) (value (eval r))
             end).
Proof.
  cbn [eval]. destruct (eval l) as [vl [ | | | ]]; cbn; try discriminate.
  destruct (eval r) as [vr [ | | | ]]; cbn; try discriminate.
  destruct o; cbn; intros H; repeat split; try discriminate.
  - destruct (Z.eqb_spec vr 0); [discriminate | auto].
  - destruct (Z.eqb_spec vr 0); [discriminate | reflexivity].
Qed.

Lemma to_word_to_long x : to_word (to_long x) = to_word x.
Proof.
  unfold to_word, to_long.
  assert (E : (x + 2 ^ 63) mod 2 ^ 64 - 2 ^ 63 =
              x + 2 ^ 32 * (2 ^ 32 * (- ((x + 2 ^ 63) / 2 ^ 64)))).
  { pose proof (Z.div_mod (x + 2 ^ 63) (2 ^ 64) ltac:(lia)).
    change (2 ^ 64) with (2 ^ 32 * 2 ^ 32) in *. lia. }
  rewrite E, Z.mul_comm. apply Z.mod_add. lia.
Qed.

Lemma to_word_idem x : is_word x -> to_word x = x.
Proof. intros H. apply Z.mod_small. exact H. Qed.

Lemma to_word_is_word x : is_word (to_word x).
Proof. unfold is_word, to_word. apply Z.mod_pos_bound. lia. Qed.

(** What the ALU operation of [o] returns on the truncated operands. *)
Lemma alu_of_value o (x y : Z) f :
  (o = OP_DIV -> is_word x /\ is_word y /\ y <> 0) ->
  fst (alu_of o (to_word x) (to_word y) f) =
    to_word (match o with
             | OP_ADD => x + y
             | OP_SUB => x - y
             | OP_MUL => x * y
             | OP_DIV => Z.quot x y
             end).
Proof.
  intros Hdiv.
  pose proof (to_word_is_word x) as Hx. pose proof (to_word_is_word y) as Hy.
  destruct o; cbn [alu_of].
  - destruct (alu_add_sum _ _ f Hx Hy) as (-> & _).
    unfold to_word. now rewrite <- Zplus_mod.
  - destruct (alu_sub_diff _ _ f Hx Hy) as (-> & _).
    unfold to_word. now rewrite <- Zminus_mod.
  - unfold alu_mul. cbn [fst]. unfold to_word.
    change (2 ^ 64) with (2 ^ 32 * 2 ^ 32).
    rewrite Z.rem_mul_r by lia.
    rewrite (Z.mul_comm (2 ^ 32)), Z.mod_add by lia.
    rewrite Z.mod_mod by lia. now rewrite <- Zmult_mod.
  - destruct (Hdiv eq_refl) as (Wx & Wy & Hne).
    rewrite !to_word_idem by assumption.
    unfold alu_div. cbn [fst]. unfold is_word in *.
    rewrite Z.quot_div_nonneg by lia.
    symmetry. apply to_word_idem. unfold is_word. split.
    + apply Z.div_pos; lia.
    + apply Z.div_lt_upper_bound; nia.
Qed.

(** The code of a tree run from counter [n]: either it runs through,
    within the register file, leaving the value in register [n] and the
    registers below [n] alone; or it stops early, on a division by zero or
    on the first register beyond the file. *)
Lemma lowered_exec t : forall n s N,
  0 <= n <= 32 -> regs_wf s ->
  step_count s + 2 * (32 - n) + 1 <= CPU_MAX_STEPS ->
  match exec_block N (fst (lowered n t)) s with
  | Finished s' =>
      n + leaves t <= 32 /\ regs_wf s' /\
      step_count s' = step_count s + (2 * leaves t - 1) /\
      last_dst s' = n /\
      (forall r, 0 <= r < n ->
         read_reg (cpu s') r = read_reg (cpu s) r) /\
      (status (eval t) = EVAL_OK -> div_operands_unsigned t ->
         read_reg (cpu s') n = to_word (value (eval t)))
  | Failed e k st =>
      st <= step_count s + 2 * (32 - n) + 1 /\
      ((e = DivisionByZero /\
        ~ (status (eval t) = EVAL_OK /\ div_operands_unsigned t)) \/
       (e = RegisterOutOfRange /\ 32 < n + leaves t))
  end.
Proof.
  induction t as [v | o l IHl r IHr]; intros n s N Hn Hwf Hb.
  - cbn [lowered fst exec_block leaves].
    destruct (bad_reg n) eqn:Hbad.
    + rewrite body_load_const_bad by (assumption || lia).
      split; [lia|]. right. split; [reflexivity|].
      destruct (Z.lt_ge_cases n 32) as [Hlt|Hge]; [|lia].
      assert (bad_reg n = false) by (apply bad_reg_false; lia). congruence.
    + apply bad_reg_false in Hbad as Hr.
      destruct (body_load_const_ok N n v s ltac:(lia) Hbad)
        as (s' & -> & Hregs & Hlast & Hsteps).
      unfold regs_wf, read_reg in *. rewrite Hregs.
      repeat split; try lia.
      * now rewrite length_insert.
      * intros r Hr'. apply regs_insert_other; lia.
      * intros _ _. cbn [eval make_ok value].
        now apply regs_insert_same.
  - pose proof (leaves_pos l) as Hll. pose proof (leaves_pos r) as Hlr.
    cbn [lowered leaves].
    destruct (lowered n l) as [cl n1] eqn:El.
    destruct (lowered n1 r) as [cr n2] eqn:Er. cbn [fst].
    rewrite exec_block_app.
    specialize (IHl n s N Hn Hwf Hb). rewrite El in IHl. cbn [fst] in IHl.
    destruct (exec_block N cl s) as [s1 | e k st].
    + destruct IHl as (Hfit1 & Hwf1 & Hsc1 & Hlast1 & Hframe1 & Hval1).
      assert (Hn1 : n1 = n + leaves l).
      { pose proof (lowered_next l n ltac:(lia) ltac:(lia)) as H.
        now rewrite El in H. }
      subst n1.
      specialize (IHr (n + leaves l) s1 N ltac:(lia) Hwf1 ltac:(lia)).
      rewrite Er in IHr. cbn [fst] in IHr.
      rewrite exec_block_app.
      destruct (exec_block N cr s1) as [s2 | e k st].
      * destruct IHr as (Hfit2 & Hwf2 & Hsc2 & Hlast2 & Hframe2 & Hval2).
        cbn [exec_block].
        assert (Ha : bad_reg n = false) by (apply bad_reg_false; lia).
        assert (Hbr : bad_reg (n + leaves l) = false)
          by (apply bad_reg_false; lia).
        destruct (body_arith N o n (n + leaves l) s2 ltac:(lia) Ha Hbr)
          as [(-> & Hzero & ->) | (Hnz & s3 & -> & Hregs & Hlast & Hsteps)].
        -- split; [lia|]. left. split; [reflexivity|].
           intros [Hok (Hdl & Hdr & Hdo)].
           destruct (eval_binop_ok _ _ _ Hok) as (Hokl & Hokr & Hne & _).
           destruct (Hdo eq_refl) as [_ Wr].
           rewrite (Hval2 Hokr Hdr), (to_word_idem _ Wr) in Hzero.
           now apply Hne.
        -- unfold regs_wf, read_reg in *. rewrite Hregs.
           repeat split; try lia.
           ++ now rewrite length_insert.
           ++ intros r' Hr'. rewrite regs_insert_other by lia.
              rewrite Hframe2 by lia. apply Hframe1. lia.
           ++ intros Hok (Hdl & Hdr & Hdo).
              destruct (eval_binop_ok _ _ _ Hok) as (Hokl & Hokr & Hne & ->).
              rewrite regs_insert_same by (assumption || lia).
              rewrite (Hval2 Hokr Hdr).
              rewrite (Hframe2 n) by lia. rewrite (Hval1 Hokl Hdl).
              rewrite to_word_to_long. apply alu_of_value.
              intros ->. destruct (Hdo eq_refl). auto.
      * destruct IHr as [Hst [[-> Hnot] | [-> Hbig]]].
        -- split; [lia|]. left. split; [reflexivity|].
           intros [Hok (Hdl & Hdr & Hdo)].
           destruct (eval_binop_ok _ _ _ Hok) as (Hokl & Hokr & _).
           apply Hnot. auto.
        -- split; [lia|]. right. split; [reflexivity | lia].
    + destruct IHl as [Hst [[-> Hnot] | [-> Hbig]]].
      * split; [lia|]. left. split; [reflexivity|].
        intros [Hok (Hdl & Hdr & Hdo)].
        destruct (eval_binop_ok _ _ _ Hok) as (Hokl & Hokr & _).
        apply Hnot. auto.
      * split; [lia|]. right. split; [reflexivity | lia].
Qed.

Lemma lowered_straight t : forall n,
  Forall (fun i => is_branch (op i) = false) (fst (lowered n t)).
Proof.
  induction t as [v | o l IHl r IHr]; intros n; cbn [lowered].
  - cbn [fst]. repeat constructor.
  - specialize (IHl n). destruct (lowered n l) as [cl n1].
    specialize (IHr n1). destruct (lowered n1 r) as [cr n2].
    cbn [fst] in *. rewrite !Forall_app. repeat split; try assumption.
    repeat constructor. now destruct o.
Qed.

(** The [j]-th leaf is loaded into register [n + j]. *)
Lemma lowered_loads t : forall n j,
  0 <= n -> 0 <= j < leaves t -> n + j < 2 ^ 31 ->
  exists v, In (mkInstr IR_LOAD_CONST (n + j) 0 v 0 0) (fst (lowered n t)).
Proof.
  induction t as [v | o l IHl r IHr]; intros n j Hn Hj Hlim;
    cbn [lowered leaves] in *.
  - exists v. cbn [fst]. left. f_equal. lia.
  - pose proof (leaves_pos l). pose proof (leaves_pos r).
    pose proof (lowered_next l n Hn) as Hnext.
    specialize (IHl n). destruct (lowered n l) as [cl n1].
    specialize (IHr n1). destruct (lowered n1 r) as [cr n2].
    cbn [fst snd] in *.
    destruct (Z.lt_ge_cases j (leaves l)) as [Hlt|Hge].
    + destruct (IHl j Hn ltac:(lia) Hlim) as [w Hw].
      exists w. apply in_or_app. now left.
    + specialize (Hnext ltac:(lia)). subst n1.
      destruct (IHr (j - leaves l) ltac:(lia) ltac:(lia) ltac:(lia))
        as [w Hw].
      exists w. apply in_or_app. right. apply in_or_app. left.
      now replace (n + j) with (n + leaves l + (j - leaves l)) by lia.
Qed.

End Compiled.

(** ** Where a run of branch-free code stops *)

Section FirstBad.

Lemma dispatch_reg_err n i c last :
  dispatch n i c last = Err RegisterOutOfRange -> uses_bad_reg i = true.
Proof.
  unfold dispatch, uses_bad_reg, check_target. rewrite !check_reg_ok.
  repeat case_match; cbn; congruence.
Qed.

Lemma dispatch_div_err n i c last :
  dispatch n i c last = Err DivisionByZero ->
  op i = IR_DIV /\ uses_bad_reg i = false.
Proof.
  unfold dispatch, uses_bad_reg, check_target. rewrite !check_reg_ok.
  repeat case_match; cbn; try congruence; auto.
Qed.

Lemma dispatch_ok_good n i c last x :
  dispatch n i c last = Ok x -> uses_bad_reg i = false.
Proof.
  unfold dispatch, uses_bad_reg, check_target. rewrite !check_reg_ok.
  repeat case_match; cbn; congruence.
Qed.

Lemma loop_body_err n i s e :
  loop_body n i s = Err e ->
  e = InfiniteLoopGuard \/ dispatch n i (cpu s) (last_dst s) = Err e.
Proof.
  unfold loop_body.
  destruct (step_count s + 1 >? CPU_MAX_STEPS); [intros [= <-]; now left|].
  destruct (dispatch n i (cpu s) (last_dst s)) as [[[c last] j]|e'];
    [discriminate|]. intros [= <-]. now right.
Qed.

Lemma first_bad_from_ge p : forall k k',
  first_bad_from k p = Some k' -> k <= k'.
Proof.
  induction p as [|i p IH]; intros k k'; cbn [first_bad_from];
    [discriminate|].
  destruct (uses_bad_reg i).
  - intros [= <-]. lia.
  - intros H. apply IH in H. lia.
Qed.

Lemma first_bad_from_exists p : forall k i,
  In i p -> uses_bad_reg i = true -> exists k', first_bad_from k p = Some k'.
Proof.
  induction p as [|x p IH]; intros k i Hin Hbad; [destruct Hin|].
  cbn [first_bad_from]. destruct (uses_bad_reg x) eqn:Hx; [eauto|].
  destruct Hin as [-> | Hin]; [congruence|]. eauto.
Qed.

(** A register error is raised at the first instruction that names a
    register beyond the file; a division by zero is raised before it. *)
Lemma exec_block_stop code : forall s e k st N,
  Forall (fun i => is_branch (op i) = false) code ->
  exec_block N code s = Failed e k st ->
  pc (cpu s) <= k /\
  st = step_count s + (k - pc (cpu s)) + 1 /\
  (e = RegisterOutOfRange -> first_bad_from (pc (cpu s)) code = Some k) /\
  (e = DivisionByZero ->
     op (code !!! Z.to_nat (k - pc (cpu s))) = IR_DIV /\
     forall k', first_bad_from (pc (cpu s)) code = Some k' -> k < k').
Proof.
  induction code as [|i code IH]; intros s e k st N Hall H; [discriminate|].
  cbn [exec_block] in H. inversion Hall as [|? ? Hi Hrest]; subst.
  destruct (loop_body N i s) as [s1|e0] eqn:Hbody.
  - destruct (loop_body_straight _ _ _ _ Hi Hbody) as [Hpc1 Hsc1].
    apply loop_body_inv in Hbody as (_ & _ & c & last & j & Hd & _).
    apply dispatch_ok_good in Hd.
    destruct (IH s1 e k st N Hrest H) as (Hle & Hst & Hreg & Hdiv).
    cbn [first_bad_from]. rewrite Hd, <- Hpc1.
    split; [lia|]. split; [lia|]. split; [assumption|].
    intros He. destruct (Hdiv He) as [Hop Hlt]. split; [|assumption].
    replace (Z.to_nat (k - pc (cpu s)))
      with (S (Z.to_nat (k - pc (cpu s1)))) by lia.
    exact Hop.
  - injection H as <- <- <-. rewrite Z.sub_diag.
    split; [lia|]. split; [lia|].
    destruct (loop_body_err _ _ _ _ Hbody) as [-> | Hd].
    + split; discriminate.
    + split; intros ->.
      * apply dispatch_reg_err in Hd. cbn [first_bad_from]. now rewrite Hd.
      * apply dispatch_div_err in Hd as [Hop Hgood]. split; [exact Hop|].
        cbn [first_bad_from]. rewrite Hgood. intros k' Hk'.
        apply first_bad_from_ge in Hk'. lia.
Qed.

End FirstBad.

(** ** Compiled programs on the CPU *)

Section EndToEnd.

(** [cpu_execute] on a program without branches. *)
Lemma cpu_execute_straight (p : list IRInstr) m :
  p <> [] ->
  Forall (fun i => is_branch (op i) = false) p ->
  match exec_block (count p) p (cpu_reset m) with
  | Finished s' =>
      count p <= CPU_MAX_STEPS -> cpu_execute p m = Some (Finished s')
  | Failed e k st =>
      st <= CPU_MAX_STEPS -> cpu_execute p m = Some (Failed e k st)
  end.
Proof.
  intros Hne Hall.
  pose proof (cpu_loop_block p [] [] (cpu_reset m) Hall eq_refl) as H.
  cbv zeta in H. rewrite app_nil_l, app_nil_r in H.
  unfold cpu_execute.
  assert (Hc : (count p =? 0) = false).
  { apply Z.eqb_neq. unfold count. destruct p; [congruence | cbn; lia]. }
  rewrite Hc.
  destruct (exec_block (count p) p (cpu_reset m)) as [s' | e k st].
  - intros Hlen. destruct H as [Hpc Hloop].
    replace cpu_fuel with (length p + (cpu_fuel - length p))%nat
      by (unfold cpu_fuel, count in *; lia).
    rewrite Hloop. apply cpu_loop_done. unfold count in *. cbn in Hpc. lia.
  - intros Hst. apply H. cbn [cpu_reset step_count].
    unfold cpu_fuel. lia.
Qed.

Lemma lowered_nonempty t n : fst (lowered n t) <> [].
Proof.
  pose proof (lowered_length t n) as H. pose proof (leaves_pos t).
  destruct (fst (lowered n t)); [cbn in H; lia | discriminate].
Qed.

Lemma cpu_reset_wf m : regs_wf (cpu_reset m).
Proof. unfold regs_wf, cpu_reset. cbn [cpu regs]. apply length_replicate. Qed.

End EndToEnd.

(** C1, as amended.  For every expression tree with at most 32 Number
    leaves whose reference evaluation succeeds with value [v], and in
    which both operands of every Div node have reference values in
    [0, 2^32), [cpu_execute] on the program of [codegen_expr] finishes
    normally, [last_dst] is the register [codegen_expr] returned, and
    [R[last_dst]] is [v mod 2^32]; when [v] fits a signed 32-bit integer
    the out-parameter is [v] itself. *)
Theorem compiled_matches_eval (t : Node) (m : option Memory) (v : Z)
    (Hleaves : leaves t <= 32)
    (Heval : eval t = make_ok v)
    (Hdiv : div_operands_unsigned t) :
  exists s,
    cpu_execute (snd (compile t)) m = Some (Finished s) /\
    last_dst s = fst (compile t) /\
    final_register s = v mod 2 ^ 32 /\
    (- 2 ^ 31 <= v < 2 ^ 31 -> out_result s = v).
Proof.
  rewrite compile_lowered. cbn [fst snd].
  pose proof (cpu_execute_straight (fst (lowered 0 t)) m
                (lowered_nonempty t 0) (lowered_straight t 0)) as Hrun.
  pose proof (lowered_exec t 0 (cpu_reset m) (count (fst (lowered 0 t)))
                ltac:(lia) (cpu_reset_wf m)
                ltac:(cbn; unfold CPU_MAX_STEPS; lia)) as Hex.
  assert (Hok : status (eval t) = EVAL_OK) by now rewrite Heval.
  assert (Hv : value (eval t) = v) by now rewrite Heval.
  destruct (exec_block _ _ (cpu_reset m)) as [s' | e k st].
  - destruct Hex as (_ & _ & _ & Hlast & _ & Hval).
    exists s'. split.
    { apply Hrun. unfold count. rewrite lowered_length.
      unfold CPU_MAX_STEPS. lia. }
    split; [assumption|].
    assert (Hfin : final_register s' = v mod 2 ^ 32).
    { unfold final_register. rewrite Hlast, (Hval Hok Hdiv), Hv.
      reflexivity. }
    split; [assumption|].
    intros Hfit. unfold out_result. fold (final_register s').
    rewrite Hfin. unfold sign_extend32.
    destruct (Z.ltb_spec (v mod 2 ^ 32) (2 ^ 31)) as [Hlt|Hge].
    + destruct (Z.lt_ge_cases v 0) as [Hneg|Hpos].
      * assert (v mod 2 ^ 32 = v + 2 ^ 32)
          by (symmetry; apply Z.mod_unique with (q := -1); lia). lia.
      * apply Z.mod_small. lia.
    + destruct (Z.lt_ge_cases v 0) as [Hneg|Hpos].
      * assert (v mod 2 ^ 32 = v + 2 ^ 32)
          by (symmetry; apply Z.mod_unique with (q := -1); lia). lia.
      * rewrite Z.mod_small in Hge by lia. lia.
  - exfalso. destruct Hex as [_ [[_ Hnot] | [_ Hbig]]]; [|lia].
    apply Hnot. auto.
Qed.

Lemma compiled_matches_eval_witness :
  exists s,
    cpu_execute
      (snd (compile (NODE_BINARY_OP OP_ADD (NODE_NUMBER 3)
                       (NODE_BINARY_OP OP_MUL (NODE_NUMBER 4)
                          (NODE_NUMBER 2))))) None = Some (Finished s) /\
    final_register s = 11 mod 2 ^ 32.
Proof.
  destruct (compiled_matches_eval
              (NODE_BINARY_OP OP_ADD (NODE_NUMBER 3)
                 (NODE_BINARY_OP OP_MUL (NODE_NUMBER 4) (NODE_NUMBER 2)))
              None 11)
    as (s & Hrun & _ & Hfin & _).
  - cbn. lia.
  - reflexivity.
  - cbn. repeat split; discriminate.
  - exists s. split; assumption.
Defined.

(** C1 as stated fails on both counts.  [(0-6)/(0-2)] has reference value
    3, while the CPU divides 0xFFFFFFFA by 0xFFFFFFFE unsigned and ends
    with 0; the sum of 33 ones has reference value 33, while the CPU stops
    with [RegisterOutOfRange] at the load of the 33rd leaf. *)
Lemma compiled_disagrees_with_eval :
  (let t := NODE_BINARY_OP OP_DIV
              (NODE_BINARY_OP OP_SUB (NODE_NUMBER 0) (NODE_NUMBER 6))
              (NODE_BINARY_OP OP_SUB (NODE_NUMBER 0) (NODE_NUMBER 2)) in
   eval t = make_ok 3 /\ is_word 3 /\
   exists s, cpu_execute (snd (compile t)) None = Some (Finished s) /\
             last_dst s = fst (compile t) /\
             final_register s = 0 /\
             final_register s <> 3 mod 2 ^ 32) /\
  (let t := sum_chain 32 1 in
   leaves t = 33 /\ eval t = make_ok 33 /\ is_word 33 /\
   cpu_execute (snd (compile t)) None =
     Some (Failed RegisterOutOfRange 63 64)).
Proof.
  split; cbv zeta.
  - split; [reflexivity|]. split; [unfold is_word; lia|].
    eexists. split; [vm_compute; reflexivity|].
    split; [reflexivity|]. split; [reflexivity|]. vm_compute. discriminate.
  - split; [reflexivity|]. split; [reflexivity|].
    split; [unfold is_word; lia|]. vm_compute. reflexivity.
Qed.

(** C10, as amended.  [codegen_expr] puts no bound on its register
    counter: for every tree with more than 32 Number leaves it returns
    normally with a program that loads the 33rd leaf into register 32.
    Running that program fails in [cpu_execute]: with
    [RegisterOutOfRange] at the first instruction that names a register
    outside [0, 32), unless a Div instruction before it has already
    failed with [DivisionByZero]. *)
Theorem register_overflow_at_execution (t : Node) (m : option Memory)
    (Hbig : 32 < leaves t) :
  let p := snd (compile t) in
  (exists v, In (mkInstr IR_LOAD_CONST 32 0 v 0 0) p) /\
  exists k,
    first_bad p = Some k /\
    (cpu_execute p m = Some (Failed RegisterOutOfRange k (k + 1)) \/
     exists j,
       0 <= j < k /\ op (p !!! Z.to_nat j) = IR_DIV /\
       cpu_execute p m = Some (Failed DivisionByZero j (j + 1))).
Proof.
  rewrite compile_lowered. cbn [snd]. cbv zeta.
  destruct (lowered_loads t 0 32 ltac:(lia) ltac:(lia) ltac:(lia))
    as [v Hin].
  cbn [Z.add] in Hin.
  split; [now exists v|].
  destruct (first_bad_from_exists _ 0 _ Hin eq_refl) as [kb Hkb].
  exists kb. split; [exact Hkb|].
  pose proof (cpu_execute_straight (fst (lowered 0 t)) m
                (lowered_nonempty t 0) (lowered_straight t 0)) as Hrun.
  pose proof (lowered_exec t 0 (cpu_reset m) (count (fst (lowered 0 t)))
                ltac:(lia) (cpu_reset_wf m)
                ltac:(cbn; unfold CPU_MAX_STEPS; lia)) as Hex.
  pose proof (exec_block_stop (fst (lowered 0 t)) (cpu_reset m)) as Hstop.
  destruct (exec_block _ _ (cpu_reset m)) as [s' | e k st] eqn:Eb.
  - destruct Hex as (Hfit & _). lia.
  - destruct Hex as [Hst He].
    cbn [cpu_reset step_count] in Hst.
    specialize (Hrun ltac:(unfold CPU_MAX_STEPS; lia)).
    destruct (Hstop e k st _ (lowered_straight t 0) Eb)
      as (Hk & Hsteps & Hreg & Hdz).
    cbn [cpu_reset cpu pc step_count] in Hk, Hsteps, Hreg, Hdz.
    rewrite Z.sub_0_r in *. cbn [Z.add] in Hsteps. subst st.
    destruct He as [[-> _] | [-> _]].
    + right. destruct (Hdz eq_refl) as [Hop Hlt].
      exists k. split; [|split; assumption].
      split; [lia|]. apply Hlt. exact Hkb.
    + left. specialize (Hreg eq_refl). unfold first_bad in Hkb.
      rewrite Hreg in Hkb. injection Hkb as <-. exact Hrun.
Qed.

Lemma register_overflow_at_execution_witness :
  cpu_execute (snd (compile (sum_chain 32 7))) None =
    Some (Failed RegisterOutOfRange 63 64) /\
  first_bad (snd (compile (sum_chain 32 7))) = Some 63.
Proof.
  assert (Hbig : 32 < leaves (sum_chain 32 7)) by (vm_compute; reflexivity).
  destruct (register_overflow_at_execution (sum_chain 32 7) None Hbig)
    as (_ & k & Hk & Hrun).
  assert (Hk63 : k = 63) by (vm_compute in Hk; congruence).
  subst k. split; [|exact Hk].
  destruct Hrun as [Hrun | (j & _ & _ & Hrun)]; [exact Hrun|].
  vm_compute in Hrun. discriminate Hrun.
Defined.

(** C10 as stated fails: [(1/4294967296) + (1+1+...+1)] has 34 leaves
    and a reference value, its program names register 32 first at index
    62, and the run stops well before that, at index 2, with
    [DivisionByZero]: the divisor was truncated to 0 by LoadConst. *)
Lemma division_by_zero_before_register_error :
  let t := NODE_BINARY_OP OP_ADD
             (NODE_BINARY_OP OP_DIV (NODE_NUMBER 1) (NODE_NUMBER 4294967296))
             (sum_chain 31 1) in
  leaves t = 34 /\ eval t = make_ok 32 /\
  first_bad (snd (compile t)) = Some 62 /\
  cpu_execute (snd (compile t)) None = Some (Failed DivisionByZero 2 3) /\
  cpu_execute (snd (compile t)) None <>
    Some (Failed RegisterOutOfRange 62 63).
Proof.
  cbv zeta. split; [reflexivity|]. split; [reflexivity|].
  split; [vm_compute; reflexivity|].
  split; [vm_compute; reflexivity|]. vm_compute. discriminate.
Qed.

(** ** The scenarios of the driver *)

Section Scenarios.

Example alu_sub_boundaries f :
  alu_sub 0 1 f = (0xFFFFFFFF, mkFlags 0 1 0 0) /\
  alu_sub 5 5 f = (0, mkFlags 1 0 1 0).
Proof.
  split; (rewrite alu_sub_value by (unfold is_word; lia)); now vm_compute.
Qed.

Example precedence_scenarios :
  reported (cpu_execute (snd (compile
    (NODE_BINARY_OP OP_ADD (NODE_NUMBER 3)
       (NODE_BINARY_OP OP_MUL (NODE_NUMBER 4) (NODE_NUMBER 2))))) None)
    = Some 11 /\
  reported (cpu_execute (snd (compile
    (NODE_BINARY_OP OP_MUL
       (NODE_BINARY_OP OP_ADD (NODE_NUMBER 3) (NODE_NUMBER 4))
       (NODE_NUMBER 2)))) None)
    = Some 14 /\
  failure (cpu_execute (snd (compile
    (NODE_BINARY_OP OP_DIV (NODE_NUMBER 10) (NODE_NUMBER 0)))) None)
    = Some DivisionByZero.
Proof. repeat split; vm_compute; reflexivity. Qed.

Example branch_demo :
  let p v := [LoadConst 1 3; LoadConst 2 v;
              mkInstr IR_CMP 1 2 0 0 0;
              mkInstr IR_JZ 0 0 0 6 0;
              LoadConst 3 99;
              mkInstr IR_JMP 0 0 0 7 0;
              LoadConst 3 42] in
  reported (cpu_execute (p 3) None) = Some 42 /\
  reported (cpu_execute (p 5) None) = Some 99.
Proof. split; vm_compute; reflexivity. Qed.

Example loop_demo :
  match cpu_execute [LoadConst 0 5; LoadConst 1 1;
                     mkInstr IR_SUB 0 1 0 0 0;
                     mkInstr IR_JNZ 0 0 0 2 0] None with
  | Some (Finished s) => final_register s = 0 /\ step_count s = 12
  | _ => False
  end.
Proof. vm_compute. split; reflexivity. Qed.

Example memory_demo :
  reported (cpu_execute [LoadConst 0 0x200; LoadConst 1 0xDEADBEEF;
                         mkInstr IR_STORE 0 1 0 0 0;
                         mkInstr IR_LOAD 2 0 0 0 0] ram)
    = Some 0xDEADBEEF /\
  failure (cpu_execute [LoadConst 0 0x102; LoadConst 1 7;
                        mkInstr IR_STORE 0 1 0 0 0] ram)
    = Some (MemoryFault AlignmentError) /\
  failure (cpu_execute [LoadConst 0 0x10000;
                        mkInstr IR_LOAD 1 0 0 0 0] ram)
    = Some (MemoryFault BoundsError) /\
  failure (cpu_execute [LoadConst 0 0x200;
                        mkInstr IR_LOAD 1 0 0 0 0] None)
    = Some MemoryNotAttached.
Proof. repeat split; vm_compute; reflexivity. Qed.

End Scenarios.

(** * Further properties *)

(** ** The ALU beyond addition and subtraction *)

Section ALUMore.

Lemma testbit_31_word x : is_word x -> Z.testbit x 31 = (2 ^ 31 <=? x).
Proof.
  intros [H0 H1].
  destruct (Z.leb_spec (2 ^ 31) x) as [Hge|Hlt].
  - replace x with ((x - 2 ^ 31) + 1 * 2 ^ 31) by lia.
    assert (Hs : 0 <= x - 2 ^ 31 < 2 ^ 31) by lia.
    rewrite <- lor_above by lia.
    rewrite Z.lor_spec, (testbit_above _ 31 31 Hs) by lia.
    now rewrite Z.shiftl_spec, Z.sub_diag by lia.
  - apply (testbit_above x 31); lia.
Qed.

(** The sum and the difference of two words, reduced. *)
Lemma add_mod_cases a b :
  is_word a -> is_word b ->
  (a + b < 2 ^ 32 /\ (a + b) mod 2 ^ 32 = a + b) \/
  (2 ^ 32 <= a + b /\ (a + b) mod 2 ^ 32 = a + b - 2 ^ 32).
Proof.
  unfold is_word. intros Ha Hb.
  destruct (Z.lt_ge_cases (a + b) (2 ^ 32)); [left | right]; split; try lia.
  - apply Z.mod_small. lia.
  - symmetry. apply Z.mod_unique with (q := 1); lia.
Qed.

Lemma sub_mod_cases a b :
  is_word a -> is_word b ->
  (b <= a /\ (a - b) mod 2 ^ 32 = a - b) \/
  (a < b /\ (a - b) mod 2 ^ 32 = a - b + 2 ^ 32).
Proof.
  unfold is_word. intros Ha Hb.
  destruct (Z.le_gt_cases b a); [left | right]; split; try lia.
  - apply Z.mod_small. lia.
  - symmetry. apply Z.mod_unique with (q := -1); lia.
Qed.

Lemma mod_word x : is_word (x mod 2 ^ 32).
Proof. unfold is_word. apply Z.mod_pos_bound. lia. Qed.

End ALUMore.

(** X1.  Addition is commutative in the result and in all four flags. *)
Theorem alu_add_comm (a b : Z) (f : ALUFlags)
    (Ha : is_word a) (Hb : is_word b) :
  alu_add a b f = alu_add b a f.
Proof.
  rewrite !alu_add_value by assumption. cbv zeta.
  rewrite (Z.add_comm b a).
  destruct (Z.testbit a 31), (Z.testbit b 31),
    (Z.testbit ((a + b) mod 2 ^ 32) 31); reflexivity.
Qed.

Lemma alu_add_comm_witness :
  alu_add 0xFFFFFFFF 2 zero_flags = alu_add 2 0xFFFFFFFF zero_flags.
Proof.
  apply alu_add_comm; unfold is_word; lia.
Defined.

(** X2.  Division of a word by a non-zero word returns the unsigned
    quotient: with the remainder [a mod b] it rebuilds [a], it is a word,
    Z is set exactly when [a < b], N is bit 31 of the quotient, and C and V
    are cleared whatever they were. *)
Theorem alu_div_quotient (a b : Z) (f : ALUFlags)
    (Ha : is_word a) (Hb : is_word b) (Hnz : b <> 0) :
  let q := fst (alu_div a b f) in
  let f' := snd (alu_div a b f) in
  q * b + a mod b = a /\ 0 <= a mod b < b /\
  is_word q /\ q <= a /\
  flagZ f' = Z.b2z (a <? b) /\
  flagN f' = Z.b2z (Z.testbit q 31) /\
  flagC f' = 0 /\ flagV f' = 0.
Proof.
  unfold is_word in *. cbv zeta. unfold alu_div. cbn [fst snd flagZ flagN flagC flagV].
  assert (Hq : 0 <= a / b <= a).
  { split; [apply Z.div_pos; lia|].
    apply Z.div_le_upper_bound; [lia | nia]. }
  pose proof (Z.mod_pos_bound a b ltac:(lia)) as Hm.
  repeat split; try lia.
  - pose proof (Z.div_mod a b Hnz). lia.
  - destruct (Z.ltb_spec a b) as [Hlt|Hge].
    + rewrite Z.div_small by lia. reflexivity.
    + assert (1 <= a / b) by (apply Z.div_le_lower_bound; lia).
      destruct (Z.eqb_spec (a / b) 0); [lia | reflexivity].
  - rewrite bit_extract by lia. apply to_u8_b2z.
Qed.

Lemma alu_div_quotient_witness :
  fst (alu_div 17 5 zero_flags) * 5 + 17 mod 5 = 17 /\
  flagZ (snd (alu_div 17 5 zero_flags)) = 0.
Proof.
  assert (H17 : is_word 17) by (unfold is_word; lia).
  assert (H5 : is_word 5) by (unfold is_word; lia).
  assert (Hnz : 5 <> 0) by lia.
  destruct (alu_div_quotient 17 5 zero_flags H17 H5 Hnz)
    as (Hqr & _ & _ & _ & HZ & _).
  split; [exact Hqr | exact HZ].
Defined.

(** X3.  Multiplication returns the low word of the product, is
    commutative, sets Z and N from the result, and clears C and V. *)
Theorem alu_mul_low_word (a b : Z) (f : ALUFlags)
    (Ha : is_word a) (Hb : is_word b) :
  let r := fst (alu_mul a b f) in
  let f' := snd (alu_mul a b f) in
  r = (a * b) mod 2 ^ 32 /\ is_word r /\
  alu_mul a b f = alu_mul b a f /\
  flagZ f' = Z.b2z (r =? 0) /\
  flagN f' = Z.b2z (Z.testbit r 31) /\
  flagC f' = 0 /\ flagV f' = 0.
Proof.
  cbv zeta. unfold alu_mul. cbn [fst snd flagZ flagN flagC flagV].
  assert (E : to_word ((a * b) mod 2 ^ 64) = (a * b) mod 2 ^ 32).
  { unfold to_word. change (2 ^ 64) with (2 ^ 32 * 2 ^ 32).
    rewrite Z.rem_mul_r by lia.
    rewrite (Z.mul_comm (2 ^ 32)), Z.mod_add by lia.
    apply Z.mod_mod. lia. }
  rewrite E.
  pose proof (Z.mod_pos_bound (a * b) (2 ^ 32) ltac:(lia)) as Hr.
  repeat split; try reflexivity; try lia.
  - now rewrite (Z.mul_comm b a), E.
  - rewrite bit_extract by lia. apply to_u8_b2z.
Qed.

Lemma alu_mul_low_word_witness :
  fst (alu_mul 0x10000 0x10001 zero_flags) = 0x10000.
Proof.
  assert (H1 : is_word 0x10000) by (unfold is_word; lia).
  assert (H2 : is_word 0x10001) by (unfold is_word; lia).
  destruct (alu_mul_low_word 0x10000 0x10001 zero_flags H1 H2) as (Hr & _).
  rewrite Hr. reflexivity.
Defined.

Section Signed.

(** Case analysis on every comparison in the goal. *)
Ltac split_comparisons :=
  repeat match goal with
         | |- context [Z.leb ?x ?y] => destruct (Z.leb_spec x y)
         | |- context [Z.ltb ?x ?y] => destruct (Z.ltb_spec x y)
         | H : context [Z.leb ?x ?y] |- _ => destruct (Z.leb_spec x y)
         | H : context [Z.ltb ?x ?y] |- _ => destruct (Z.ltb_spec x y)
         end.

Lemma add_flagV_signed a b f :
  is_word a -> is_word b ->
  flagV (snd (alu_add a b f)) =
    Z.b2z (negb ((- 2 ^ 31 <=? sign_extend32 a + sign_extend32 b) &&
                 (sign_extend32 a + sign_extend32 b <? 2 ^ 31))).
Proof.
  intros Ha Hb.
  destruct (alu_add_sum a b f Ha Hb) as (Hr & _ & _ & _ & ->).
  rewrite Hr. rewrite !testbit_31_word by (assumption || apply mod_word).
  unfold sign_extend32, is_word in *.
  destruct (add_mod_cases a b Ha Hb) as [[Hc ->] | [Hc ->]];
    split_comparisons; cbn; try reflexivity; lia.
Qed.

Lemma sub_flags_signed a b f :
  is_word a -> is_word b ->
  flagV (snd (alu_sub a b f)) =
    Z.b2z (negb ((- 2 ^ 31 <=? sign_extend32 a - sign_extend32 b) &&
                 (sign_extend32 a - sign_extend32 b <? 2 ^ 31))) /\
  Z.b2z (negb (flagN (snd (alu_sub a b f)) =? flagV (snd (alu_sub a b f)))) =
    Z.b2z (sign_extend32 a <? sign_extend32 b).
Proof.
  intros Ha Hb.
  destruct (alu_sub_diff a b f Ha Hb) as (Hr & _ & _ & -> & ->).
  rewrite Hr. rewrite !testbit_31_word by (assumption || apply mod_word).
  unfold sign_extend32, is_word in *.
  destruct (sub_mod_cases a b Ha Hb) as [[Hc ->] | [Hc ->]];
    split_comparisons; cbn; try (split; reflexivity); lia.
Qed.

End Signed.

(** X4.  V is the signed-overflow flag: after an addition (a subtraction)
    it is 1 exactly when the sum (the difference) of the operands, read as
    two's-complement numbers, does not fit a signed 32-bit integer; when it
    is 0 the result read the same way is that sum (that difference). *)
Theorem alu_overflow_flag (a b : Z) (f : ALUFlags)
    (Ha : is_word a) (Hb : is_word b) :
  let sa := sign_extend32 a in
  let sb := sign_extend32 b in
  (flagV (snd (alu_add a b f)) = 1 <-> ~ (- 2 ^ 31 <= sa + sb < 2 ^ 31)) /\
  (flagV (snd (alu_add a b f)) = 0 ->
   sign_extend32 (fst (alu_add a b f)) = sa + sb) /\
  (flagV (snd (alu_sub a b f)) = 1 <-> ~ (- 2 ^ 31 <= sa - sb < 2 ^ 31)) /\
  (flagV (snd (alu_sub a b f)) = 0 ->
   sign_extend32 (fst (alu_sub a b f)) = sa - sb).
Proof.
  cbv zeta.
  rewrite add_flagV_signed by assumption.
  destruct (sub_flags_signed a b f Ha Hb) as [-> _].
  destruct (alu_add_sum a b f Ha Hb) as (-> & _).
  destruct (alu_sub_diff a b f Ha Hb) as (-> & _).
  unfold is_word in *.
  assert (Hsa : sign_extend32 a = a \/ sign_extend32 a = a - 2 ^ 32)
    by (unfold sign_extend32; destruct (a <? 2 ^ 31); auto).
  assert (Hsb : sign_extend32 b = b \/ sign_extend32 b = b - 2 ^ 32)
    by (unfold sign_extend32; destruct (b <? 2 ^ 31); auto).
  assert (Ra : - 2 ^ 31 <= sign_extend32 a < 2 ^ 31)
    by (unfold sign_extend32; destruct (Z.ltb_spec a (2 ^ 31)); lia).
  assert (Rb : - 2 ^ 31 <= sign_extend32 b < 2 ^ 31)
    by (unfold sign_extend32; destruct (Z.ltb_spec b (2 ^ 31)); lia).
  assert (Hext : forall x s, - 2 ^ 31 <= s < 2 ^ 31 ->
            (exists k, x = s + k * 2 ^ 32) ->
            sign_extend32 (x mod 2 ^ 32) = s).
  { intros x s Hs [k ->]. rewrite Z.mod_add by lia.
    unfold sign_extend32.
    destruct (Z.lt_ge_cases s 0).
    - assert (E : s mod 2 ^ 32 = s + 2 ^ 32)
        by (symmetry; apply Z.mod_unique with (q := -1); lia).
      rewrite E. destruct (Z.ltb_spec (s + 2 ^ 32) (2 ^ 31)); lia.
    - rewrite Z.mod_small by lia.
      destruct (Z.ltb_spec s (2 ^ 31)); lia. }
  repeat split.
  - destruct (Z.leb_spec (- 2 ^ 31) (sign_extend32 a + sign_extend32 b)),
      (Z.ltb_spec (sign_extend32 a + sign_extend32 b) (2 ^ 31));
      cbn; intros; try discriminate; lia.
  - destruct (Z.leb_spec (- 2 ^ 31) (sign_extend32 a + sign_extend32 b)),
      (Z.ltb_spec (sign_extend32 a + sign_extend32 b) (2 ^ 31));
      cbn; intros; try reflexivity; exfalso; lia.
  - destruct (Z.leb_spec (- 2 ^ 31) (sign_extend32 a + sign_extend32 b)),
      (Z.ltb_spec (sign_extend32 a + sign_extend32 b) (2 ^ 31));
      cbn; intros; try discriminate.
    apply Hext; [lia|].
    destruct Hsa as [-> | ->], Hsb as [-> | ->];
      [exists 0 | exists 1 | exists 1 | exists 2]; lia.
  - destruct (Z.leb_spec (- 2 ^ 31) (sign_extend32 a - sign_extend32 b)),
      (Z.ltb_spec (sign_extend32 a - sign_extend32 b) (2 ^ 31));
      cbn; intros; try discriminate; lia.
  - destruct (Z.leb_spec (- 2 ^ 31) (sign_extend32 a - sign_extend32 b)),
      (Z.ltb_spec (sign_extend32 a - sign_extend32 b) (2 ^ 31));
      cbn; intros; try reflexivity; exfalso; lia.
  - destruct (Z.leb_spec (- 2 ^ 31) (sign_extend32 a - sign_extend32 b)),
      (Z.ltb_spec (sign_extend32 a - sign_extend32 b) (2 ^ 31));
      cbn; intros; try discriminate.
    apply Hext; [lia|].
    destruct Hsa as [-> | ->], Hsb as [-> | ->];
      [exists 0 | exists (-1) | exists 1 | exists 0]; lia.
Qed.

Lemma alu_overflow_flag_witness :
  flagV (snd (alu_add 0x7FFFFFFF 1 zero_flags)) = 1 /\
  sign_extend32 (fst (alu_sub 3 5 zero_flags)) = -2.
Proof.
  assert (H1 : is_word 0x7FFFFFFF) by (unfold is_word; lia).
  assert (H2 : is_word 1) by (unfold is_word; lia).
  assert (H3 : is_word 3) by (unfold is_word; lia).
  assert (H5 : is_word 5) by (unfold is_word; lia).
  destruct (alu_overflow_flag 0x7FFFFFFF 1 zero_flags H1 H2)
    as (HV & _).
  destruct (alu_overflow_flag 3 5 zero_flags H3 H5) as (_ & _ & _ & Hs).
  split.
  - apply HV. vm_compute. intros [_ H]. discriminate H.
  - rewrite Hs; reflexivity.
Defined.

(** X5.  After a subtraction (so after Cmp) the flags order the operands
    both ways: N differs from V exactly when [a < b] as signed numbers,
    and C is 0 exactly when [a < b] as unsigned numbers. *)
Theorem alu_sub_orders (a b : Z) (f : ALUFlags)
    (Ha : is_word a) (Hb : is_word b) :
  let f' := snd (alu_sub a b f) in
  (flagN f' <> flagV f' <-> sign_extend32 a < sign_extend32 b) /\
  (flagC f' = 0 <-> a < b).
Proof.
  cbv zeta.
  destruct (sub_flags_signed a b f Ha Hb) as [_ HNV].
  destruct (alu_sub_diff a b f Ha Hb) as (_ & HC & _).
  split.
  - destruct (Z.eqb_spec (flagN (snd (alu_sub a b f)))
                (flagV (snd (alu_sub a b f)))) as [E|E];
      destruct (Z.ltb_spec (sign_extend32 a) (sign_extend32 b));
      cbn in HNV; try discriminate; split; intros; try lia; congruence.
  - rewrite HC. unfold is_word in *.
    destruct (Z.le_gt_cases b a).
    + assert ((a - b + 2 ^ 32) / 2 ^ 32 = 1)
        by (symmetry; apply Z.div_unique with (r := a - b); lia). lia.
    + rewrite Z.div_small by lia. lia.
Qed.

Lemma alu_sub_orders_witness :
  flagN (snd (alu_sub 0xFFFFFFFF 1 zero_flags)) <>
  flagV (snd (alu_sub 0xFFFFFFFF 1 zero_flags)).
Proof.
  assert (H1 : is_word 0xFFFFFFFF) by (unfold is_word; lia).
  assert (H2 : is_word 1) by (unfold is_word; lia).
  destruct (alu_sub_orders 0xFFFFFFFF 1 zero_flags H1 H2) as (HNV & _).
  apply HNV. vm_compute. reflexivity.
Defined.

(** X6.  Subtraction undoes addition and addition undoes subtraction, on
    words, whatever the flags. *)
Theorem alu_add_sub_inverse (a b : Z) (f g : ALUFlags)
    (Ha : is_word a) (Hb : is_word b) :
  fst (alu_sub (fst (alu_add a b f)) b g) = a /\
  fst (alu_add (fst (alu_sub a b f)) b g) = a.
Proof.
  destruct (alu_add_sum a b f Ha Hb) as (Eadd & _).
  destruct (alu_sub_diff a b f Ha Hb) as (Esub & _).
  rewrite Eadd, Esub.
  destruct (alu_sub_diff _ b g (mod_word (a + b)) Hb) as (-> & _).
  destruct (alu_add_sum _ b g (mod_word (a - b)) Hb) as (-> & _).
  unfold is_word in *. split.
  - rewrite Zminus_mod_idemp_l. replace (a + b - b) with a by lia.
    apply Z.mod_small. lia.
  - rewrite Zplus_mod_idemp_l. replace (a - b + b) with a by lia.
    apply Z.mod_small. lia.
Qed.

Lemma alu_add_sub_inverse_witness :
  fst (alu_sub (fst (alu_add 0xFFFFFFF0 0x20 zero_flags)) 0x20 zero_flags)
    = 0xFFFFFFF0.
Proof.
  assert (H1 : is_word 0xFFFFFFF0) by (unfold is_word; lia).
  assert (H2 : is_word 0x20) by (unfold is_word; lia).
  exact (proj1 (alu_add_sub_inverse 0xFFFFFFF0 0x20 zero_flags zero_flags
                  H1 H2)).
Defined.

(** ** More on the memory *)

Section MemMore.

Lemma check_access_ok a :
  a mod 4 = 0 -> 0 <= a <= MEM_SIZE - 4 -> check_access a = Ok tt.
Proof.
  intros Hal Ha.
  destruct (check_access_cases a) as [[Hn _] | [(_ & Hgt & _) | (_ & _ & E)]];
    [contradiction | lia | exact E].
Qed.

Lemma byte_at_range m i :
  mem_wf m -> mem_bytes m -> 0 <= i < MEM_SIZE -> 0 <= byte_at m i < 256.
Proof.
  unfold mem_wf, mem_bytes, byte_at. intros Hlen Hall Hi.
  assert (Hlt : (Z.to_nat i < length (data m))%nat) by (rewrite Hlen; lia).
  destruct (lookup_lt_is_Some_2 _ _ Hlt) as [b Hb].
  rewrite (list_lookup_total_correct _ _ _ Hb).
  exact (Forall_lookup_1 _ _ _ _ Hall Hb).
Qed.

Lemma set_byte_bytes m i b :
  mem_bytes m -> 0 <= b < 256 -> mem_bytes (set_byte m i b).
Proof.
  unfold mem_bytes, set_byte. cbn [data]. intros Hall Hb.
  now apply Forall_insert.
Qed.

Lemma land_255_range x : 0 <= Z.land x 255 < 256.
Proof.
  change 255 with (Z.ones 8). rewrite Z.land_ones by lia.
  apply Z.mod_pos_bound. lia.
Qed.

(** The memory a successful write leaves, cell by cell. *)
Lemma mem_write_cells m a v :
  mem_wf m -> a mod 4 = 0 -> 0 <= a <= MEM_SIZE - 4 ->
  exists m',
    mem_write_word (Some m) a v = (Ok tt, Some m') /\
    mem_wf m' /\
    (mem_bytes m -> mem_bytes m') /\
    (forall k, 0 <= k < 4 ->
       byte_at m' (a + k) = Z.land (Z.shiftr v (8 * k)) 255) /\
    (forall i, 0 <= i -> i < a \/ a + 4 <= i -> byte_at m' i = byte_at m i).
Proof.
  intros Hwf Hal Ha. unfold mem_write_word.
  rewrite check_access_ok by assumption.
  eexists. split; [reflexivity|]. cbv zeta.
  destruct (write_bytes m a (to_u8 (Z.land v 255))
              (to_u8 (Z.land (Z.shiftr v 8) 255))
              (to_u8 (Z.land (Z.shiftr v 16) 255))
              (to_u8 (Z.land (Z.shiftr v 24) 255)) Hwf Ha)
    as (E0 & E1 & E2 & E3).
  cbv zeta in E0, E1, E2, E3.
  split; [now repeat apply set_byte_wf|].
  split; [|split].
  - intros Hb. rewrite !to_u8_land_255.
    repeat apply set_byte_bytes; first [assumption | apply land_255_range].
  - intros k Hk.
    assert (Hcase : k = 0 \/ k = 1 \/ k = 2 \/ k = 3) by lia.
    destruct Hcase as [-> | [-> | [-> | ->]]].
    + rewrite Z.add_0_r, E0, to_u8_land_255. now rewrite Z.shiftr_0_r.
    + rewrite E1. apply to_u8_land_255.
    + rewrite E2. apply to_u8_land_255.
    + rewrite E3. apply to_u8_land_255.
  - intros i Hi Hout. now rewrite !byte_at_set_ne by lia.
Qed.

(** What a successful read returns, from the four cells. *)
Lemma mem_read_cells m a :
  a mod 4 = 0 -> 0 <= a <= MEM_SIZE - 4 ->
  mem_read_word (Some m) a =
    Ok (Z.lor (Z.lor (Z.lor
          (to_word (byte_at m a))
          (to_word (Z.shiftl (to_word (byte_at m (a + 1))) 8)))
          (to_word (Z.shiftl (to_word (byte_at m (a + 2))) 16)))
          (to_word (Z.shiftl (to_word (byte_at m (a + 3))) 24))).
Proof.
  intros Hal Ha. unfold mem_read_word. now rewrite check_access_ok.
Qed.

Lemma shifted_byte b k :
  0 <= b < 256 -> 0 <= k <= 24 ->
  to_word b = b /\ to_word (Z.shiftl (to_word b) k) = b * 2 ^ k.
Proof.
  intros Hb Hk. unfold to_word.
  rewrite (Z.mod_small b) by lia. split; [reflexivity|].
  rewrite Z.shiftl_mul_pow2 by lia. apply Z.mod_small.
  assert (2 ^ k <= 2 ^ 24) by (apply Z.pow_le_mono_r; lia).
  assert (0 < 2 ^ k) by (apply Z.pow_pos_nonneg; lia). nia.
Qed.

(** Two memories of full size with the same cells are the same. *)
Lemma memory_ext m1 m2 :
  mem_wf m1 -> mem_wf m2 ->
  (forall i, 0 <= i < MEM_SIZE -> byte_at m1 i = byte_at m2 i) ->
  m1 = m2.
Proof.
  destruct m1 as [d1], m2 as [d2]. unfold mem_wf, byte_at. cbn [data].
  intros H1 H2 Heq. f_equal. apply list_eq_same_length with (Z.to_nat MEM_SIZE);
    try assumption.
  intros i x y Hi Hx Hy.
  specialize (Heq (Z.of_nat i) ltac:(lia)). rewrite Nat2Z.id in Heq.
  rewrite (list_lookup_total_correct _ _ _ Hx) in Heq.
  rewrite (list_lookup_total_correct _ _ _ Hy) in Heq. exact Heq.
Qed.

End MemMore.

(** X7.  A freshly initialised memory has full size, holds bytes, and
    reads as zero at every aligned address in range. *)
Theorem mem_init_reads_zero (m : Memory) (a : Z)
    (Hal : a mod 4 = 0) (Ha : 0 <= a <= MEM_SIZE - 4) :
  mem_wf (mem_init m) /\ mem_bytes (mem_init m) /\
  mem_read_word (Some (mem_init m)) a = Ok 0.
Proof.
  split; [apply mem_init_wf|]. split.
  - unfold mem_bytes, mem_init. cbn [data]. apply Forall_replicate. lia.
  - rewrite mem_read_cells by assumption.
    assert (Hz : forall i, 0 <= i < MEM_SIZE -> byte_at (mem_init m) i = 0).
    { intros i Hi. unfold byte_at, mem_init. cbn [data].
      apply lookup_total_replicate_2. lia. }
    rewrite !Hz by lia. reflexivity.
Qed.

Lemma mem_init_reads_zero_witness :
  mem_read_word (Some (mem_init (mkMemory [1; 2; 3]))) 0xFFFC = Ok 0.
Proof.
  refine (proj2 (proj2 (mem_init_reads_zero (mkMemory [1; 2; 3]) 0xFFFC
                          eq_refl _))).
  unfold MEM_SIZE. lia.
Defined.

(** X8.  A successful write touches only its own four cells: every other
    cell keeps its byte, so a read at any other aligned address returns
    what it returned before, and the memory keeps its size. *)
Theorem mem_write_frame (m : Memory) (a v a' : Z)
    (Hwf : mem_wf m)
    (Hal : a mod 4 = 0) (Ha : 0 <= a <= MEM_SIZE - 4)
    (Hal' : a' mod 4 = 0) (Ha' : 0 <= a' <= MEM_SIZE - 4)
    (Hne : a' <> a) :
  exists m',
    mem_write_word (Some m) a v = (Ok tt, Some m') /\
    mem_wf m' /\
    (forall i, 0 <= i -> i < a \/ a + 4 <= i -> byte_at m' i = byte_at m i) /\
    mem_read_word (Some m') a' = mem_read_word (Some m) a'.
Proof.
  destruct (mem_write_cells m a v Hwf Hal Ha)
    as (m' & Hw & Hwf' & _ & _ & Hframe).
  exists m'. split; [exact Hw|]. split; [exact Hwf'|].
  split; [exact Hframe|].
  assert (Hfar : a' + 4 <= a \/ a + 4 <= a').
  { assert (E : a = 4 * (a / 4)) by (rewrite (Z.div_mod a 4) at 1; lia).
    assert (E' : a' = 4 * (a' / 4)) by (rewrite (Z.div_mod a' 4) at 1; lia).
    lia. }
  rewrite !mem_read_cells by assumption.
  now rewrite !Hframe by lia.
Qed.

Lemma mem_write_frame_witness :
  exists m',
    mem_write_word (Some (mem_init (mkMemory []))) 0x100 0xDEADBEEF
      = (Ok tt, Some m') /\
    mem_read_word (Some m') 0x104 = Ok 0.
Proof.
  destruct (mem_write_frame (mem_init (mkMemory [])) 0x100 0xDEADBEEF 0x104)
    as (m' & Hw & _ & _ & Hr).
  - apply mem_init_wf.
  - reflexivity.
  - unfold MEM_SIZE. lia.
  - reflexivity.
  - unfold MEM_SIZE. lia.
  - lia.
  - exists m'. split; [exact Hw|]. rewrite Hr. reflexivity.
Defined.

(** X9.  A successful read assembles the four cells little-endian: the
    cell at [a + k] supplies bits [8k .. 8k+7], and the value is a 32-bit
    word. *)
Theorem mem_read_little_endian (m : Memory) (a : Z)
    (Hwf : mem_wf m) (Hbytes : mem_bytes m)
    (Hal : a mod 4 = 0) (Ha : 0 <= a <= MEM_SIZE - 4) :
  exists w,
    mem_read_word (Some m) a = Ok w /\ is_word w /\
    w = byte_at m a + 2 ^ 8 * byte_at m (a + 1) +
        2 ^ 16 * byte_at m (a + 2) + 2 ^ 24 * byte_at m (a + 3) /\
    forall k, 0 <= k < 4 ->
      Z.land (Z.shiftr w (8 * k)) 255 = byte_at m (a + k).
Proof.
  pose proof (byte_at_range m a Hwf Hbytes ltac:(lia)) as B0.
  pose proof (byte_at_range m (a + 1) Hwf Hbytes ltac:(lia)) as B1.
  pose proof (byte_at_range m (a + 2) Hwf Hbytes ltac:(lia)) as B2.
  pose proof (byte_at_range m (a + 3) Hwf Hbytes ltac:(lia)) as B3.
  rewrite mem_read_cells by assumption.
  destruct (shifted_byte _ 0 B0 ltac:(lia)) as [-> _].
  destruct (shifted_byte _ 8 B1 ltac:(lia)) as [_ ->].
  destruct (shifted_byte _ 16 B2 ltac:(lia)) as [_ ->].
  destruct (shifted_byte _ 24 B3 ltac:(lia)) as [_ ->].
  set (b0 := byte_at m a) in *. set (b1 := byte_at m (a + 1)) in *.
  set (b2 := byte_at m (a + 2)) in *. set (b3 := byte_at m (a + 3)) in *.
  rewrite <- (Z.shiftl_mul_pow2 b1 8), <- (Z.shiftl_mul_pow2 b2 16),
    <- (Z.shiftl_mul_pow2 b3 24) by lia.
  rewrite (lor_above b0 b1 8) by lia.
  rewrite (lor_above _ b2 16) by lia.
  rewrite (lor_above _ b3 24) by lia.
  eexists. split; [reflexivity|].
  split; [unfold is_word; lia|]. split; [lia|].
  intros k Hk. change 255 with (Z.ones 8).
  rewrite Z.land_ones, Z.shiftr_div_pow2 by lia.
  assert (Hcase : k = 0 \/ k = 1 \/ k = 2 \/ k = 3) by lia.
  destruct Hcase as [-> | [-> | [-> | ->]]]; cbn [Z.mul Z.add];
    rewrite ?Z.add_0_r; fold b0 b1 b2 b3;
    change (8 * 0) with 0; change (8 * 1) with 8;
    change (8 * 2) with 16; change (8 * 3) with 24;
    Z.div_mod_to_equations; lia.
Qed.

Lemma mem_read_little_endian_witness :
  exists w,
    mem_read_word (Some (mem_init (mkMemory []))) 0x40 = Ok w /\ is_word w.
Proof.
  destruct (mem_read_little_endian (mem_init (mkMemory [])) 0x40)
    as (w & Hr & Hw & _).
  - apply mem_init_wf.
  - unfold mem_bytes, mem_init. cbn [data]. apply Forall_replicate. lia.
  - reflexivity.
  - unfold MEM_SIZE. lia.
  - exists w. split; assumption.
Defined.

(** X10.  The last write wins: writing [v1] and then [v2] at the same
    address leaves exactly the memory that writing [v2] alone leaves. *)
Theorem mem_write_last_wins (m : Memory) (a v1 v2 : Z)
    (Hwf : mem_wf m)
    (Hal : a mod 4 = 0) (Ha : 0 <= a <= MEM_SIZE - 4) :
  mem_write_word (snd (mem_write_word (Some m) a v1)) a v2 =
  mem_write_word (Some m) a v2.
Proof.
  destruct (mem_write_cells m a v1 Hwf Hal Ha)
    as (m1 & Hw1 & Hwf1 & _ & _ & Hf1).
  destruct (mem_write_cells m1 a v2 Hwf1 Hal Ha)
    as (m12 & Hw12 & Hwf12 & _ & Hc12 & Hf12).
  destruct (mem_write_cells m a v2 Hwf Hal Ha)
    as (m2 & Hw2 & Hwf2 & _ & Hc2 & Hf2).
  rewrite Hw1. cbn [snd]. rewrite Hw12, Hw2. do 2 f_equal.
  apply memory_ext; try assumption.
  intros i Hi.
  destruct (Z.lt_ge_cases i a) as [Hlt|Hge].
  - rewrite Hf12, Hf1, Hf2 by lia. reflexivity.
  - destruct (Z.lt_ge_cases i (a + 4)) as [Hin|Hout].
    + replace i with (a + (i - a)) by lia.
      rewrite Hc12, Hc2 by lia. reflexivity.
    + rewrite Hf12, Hf1, Hf2 by lia. reflexivity.
Qed.

Lemma mem_write_last_wins_witness :
  mem_write_word
    (snd (mem_write_word (Some (mem_init (mkMemory []))) 8 0x11223344))
    8 0x55667788
  = mem_write_word (Some (mem_init (mkMemory []))) 8 0x55667788.
Proof.
  apply mem_write_last_wins.
  - apply mem_init_wf.
  - reflexivity.
  - unfold MEM_SIZE. lia.
Defined.

(** ** The program buffer *)

Section Buffer.

Lemma ir_buffer_init_wf junk : buffer_wf (ir_buffer_init junk).
Proof.
  unfold buffer_wf, ir_buffer_init, IR_INITIAL_CAPACITY.
  cbn [buf_data buf_count buf_capacity].
  rewrite length_replicate.
  split; [lia|]. split; [lia|]. split; [|now left].
  exists 0. split; [lia | reflexivity].
Qed.

Lemma ir_buffer_append_step junk b i :
  buffer_wf b ->
  buffer_wf (ir_buffer_append junk b i) /\
  buffer_contents (ir_buffer_append junk b i) =
    ir_program_append (buffer_contents b) i /\
  buf_count (ir_buffer_append junk b i) = buf_count b + 1 /\
  buf_capacity (ir_buffer_append junk b i) =
    (if buf_count b =? buf_capacity b
     then 2 * buf_capacity b else buf_capacity b).
Proof.
  unfold buffer_wf, ir_buffer_append, buffer_contents, ir_program_append,
    IR_INITIAL_CAPACITY.
  intros (Hc & Hlen & (k & Hk & Hcap) & Hslack).
  assert (Hpos : 16 <= buf_capacity b).
  { rewrite Hcap. assert (0 < 2 ^ k) by (apply Z.pow_pos_nonneg; lia). lia. }
  destruct (Z.eqb_spec (buf_count b) (buf_capacity b)) as [Hfull|Hroom];
    cbn [ir_buffer_grow buf_data buf_count buf_capacity].
  - split; [|split; [|split; reflexivity || lia]].
    + rewrite length_insert, length_app, length_replicate.
      split; [lia|]. split; [lia|]. split; [|right; lia].
      exists (k + 1). split; [lia|].
      rewrite Z.pow_add_r, Z.pow_1_r by lia. lia.
    + assert (Hn : Z.to_nat (buf_count b) = length (buf_data b)) by lia.
      replace (Z.to_nat (buf_count b + 1))
        with (S (length (buf_data b))) by lia.
      rewrite Hn, (take_ge (buf_data b)) by lia.
      rewrite insert_app_r_alt by lia. rewrite Nat.sub_diag.
      replace (Z.to_nat (buf_capacity b * 2 - buf_capacity b))
        with (S (Z.to_nat (buf_capacity b - 1))) by lia.
      cbn [replicate]. simpl.
      rewrite cons_middle, app_assoc.
      apply take_app_length'. rewrite length_app. cbn. lia.
  - split; [|split; [|split; reflexivity]].
    + rewrite length_insert.
      split; [lia|]. split; [lia|]. split.
      * exists k. split; [lia | assumption].
      * destruct Hslack as [H16 | Hlt]; [now left | right; lia].
    + assert (Hlt : (Z.to_nat (buf_count b) < length (buf_data b))%nat)
        by lia.
      replace (Z.to_nat (buf_count b + 1))
        with (S (Z.to_nat (buf_count b))) by lia.
      destruct (lookup_lt_is_Some_2 _ _ Hlt) as [x Hx].
      rewrite (take_S_r _ _ i).
      * now rewrite take_insert_ge by lia.
      * now apply list_lookup_insert_eq.
Qed.

Lemma ir_buffer_appends_from junk (l : list IRInstr) : forall b,
  buffer_wf b ->
  buffer_wf (fold_left (ir_buffer_append junk) l b) /\
  buffer_contents (fold_left (ir_buffer_append junk) l b) =
    buffer_contents b ++ l /\
  buf_count (fold_left (ir_buffer_append junk) l b) =
    buf_count b + Z.of_nat (length l).
Proof.
  induction l as [|i l IH]; intros b Hwf; cbn [fold_left length].
  - rewrite app_nil_r. split; [assumption|]. split; [reflexivity | lia].
  - destruct (ir_buffer_append_step junk b i Hwf) as (Hwf' & Hc & Hn & _).
    destruct (IH _ Hwf') as (Hwf'' & Hc' & Hn').
    split; [assumption|]. split.
    + rewrite Hc', Hc. unfold ir_program_append.
      now rewrite <- app_assoc.
    + rewrite Hn', Hn. lia.
Qed.

End Buffer.

(** X11.  Appending to a well-formed buffer keeps it well formed (count
    within capacity, capacity 16 times a power of two), stores the
    instruction at index [count] after all earlier ones, which are left
    in place, and doubles the capacity exactly when the buffer was full:
    on its contents it is the list append used for programs above. *)
Theorem ir_buffer_append_refines (junk : IRInstr) (b : IRBuffer)
    (i : IRInstr) (Hwf : buffer_wf b) :
  let b' := ir_buffer_append junk b i in
  buffer_wf b' /\
  buffer_contents b' = ir_program_append (buffer_contents b) i /\
  count (buffer_contents b') = buf_count b' /\
  buf_count b' = buf_count b + 1 /\
  buf_capacity b' =
    (if buf_count b =? buf_capacity b
     then 2 * buf_capacity b else buf_capacity b) /\
  (forall j, 0 <= j < buf_count b ->
     buf_data b' !! Z.to_nat j = buf_data b !! Z.to_nat j) /\
  buf_data b' !! Z.to_nat (buf_count b) = Some i.
Proof.
  cbv zeta.
  destruct (ir_buffer_append_step junk b i Hwf) as (Hwf' & Hc & Hn & Hcap).
  split; [assumption|]. split; [assumption|].
  assert (Hlen : count (buffer_contents (ir_buffer_append junk b i)) =
                 buf_count (ir_buffer_append junk b i)).
  { destruct Hwf' as (Hr & Hl & _). unfold count, buffer_contents.
    rewrite length_take. lia. }
  split; [assumption|]. split; [assumption|]. split; [assumption|].
  assert (Hpre : forall j, (j < Z.to_nat (buf_count b + 1))%nat ->
            buf_data (ir_buffer_append junk b i) !! j =
            (buffer_contents b ++ [i]) !! j).
  { intros j Hj. unfold ir_program_append in Hc. rewrite <- Hc.
    unfold buffer_contents. rewrite Hn. now rewrite lookup_take_lt. }
  assert (Hcnt : length (buffer_contents b) = Z.to_nat (buf_count b)).
  { destruct Hwf as (Hr & Hl & _). unfold buffer_contents.
    rewrite length_take. lia. }
  split.
  - intros j Hj. rewrite Hpre by lia.
    rewrite lookup_app_l by lia.
    unfold buffer_contents. now rewrite lookup_take_lt by lia.
  - destruct Hwf as (Hr & _). rewrite Hpre by lia.
    rewrite lookup_app_r by lia. rewrite Hcnt, Nat.sub_diag. reflexivity.
Qed.

Lemma ir_buffer_append_refines_witness :
  buffer_contents
    (ir_buffer_append (LoadConst 9 9) (ir_buffer_init (LoadConst 9 9))
       (LoadConst 0 3))
  = [LoadConst 0 3].
Proof.
  exact (proj1 (proj2 (ir_buffer_append_refines (LoadConst 9 9)
                         (ir_buffer_init (LoadConst 9 9)) (LoadConst 0 3)
                         (ir_buffer_init_wf (LoadConst 9 9))))).
Defined.

(** X12.  A buffer filled from [ir_program_init] by any sequence of
    appends holds exactly that sequence, in order; it is still at its
    initial capacity of 16 if the sequence has at most 16 instructions,
    and its capacity stays below twice its count otherwise. *)
Theorem ir_buffer_holds_appended (junk : IRInstr) (l : list IRInstr) :
  let b := fold_left (ir_buffer_append junk) l (ir_buffer_init junk) in
  buffer_contents b = l /\
  buf_count b = count l /\
  buffer_wf b /\
  (count l <= 16 -> buf_capacity b = 16) /\
  (16 < count l -> count l <= buf_capacity b < 2 * count l).
Proof.
  cbv zeta.
  destruct (ir_buffer_appends_from junk l _ (ir_buffer_init_wf junk))
    as (Hwf & Hc & Hn).
  cbn in Hc, Hn. unfold count.
  split; [assumption|]. split; [assumption|]. split; [assumption|].
  destruct Hwf as (Hr & _ & (k & Hk & Hcap) & Hslack).
  unfold IR_INITIAL_CAPACITY in *. rewrite Hn in *.
  split.
  - intros Hsmall. destruct Hslack as [H16 | Hlt]; [assumption|].
    destruct (Z.eq_dec k 0) as [-> | Hk0]; [rewrite Hcap; reflexivity|].
    assert (2 ^ 1 <= 2 ^ k) by (apply Z.pow_le_mono_r; lia). lia.
  - intros Hbig. destruct Hslack as [H16 | Hlt]; lia.
Qed.

(** ** The shape of generated code *)

Section Shape.

Lemma leaf_values_length t : Z.of_nat (length (leaf_values t)) = leaves t.
Proof.
  induction t as [v | o l IHl r IHr]; cbn [leaf_values leaves length].
  - reflexivity.
  - rewrite length_app. lia.
Qed.

Lemma lowered_shape t : forall n,
  count (List.filter is_load_const (fst (lowered n t))) = leaves t /\
  count (List.filter is_arith (fst (lowered n t))) = leaves t - 1 /\
  Forall emitted_form (fst (lowered n t)).
Proof.
  unfold count.
  induction t as [v | o l IHl r IHr]; intros n; cbn [lowered leaves].
  - cbn. split; [reflexivity|]. split; [reflexivity|].
    constructor; [|constructor]. unfold emitted_form. cbn. auto.
  - specialize (IHl n). destruct (lowered n l) as [cl n1].
    specialize (IHr n1). destruct (lowered n1 r) as [cr n2].
    cbn [fst] in *.
    destruct IHl as (L1 & A1 & F1), IHr as (L2 & A2 & F2).
    rewrite !List.filter_app, !length_app.
    assert (Hop : is_load_const (mkInstr (ast_op_to_ir o) n n1 0 0 0) = false
                  /\ is_arith (mkInstr (ast_op_to_ir o) n n1 0 0 0) = true)
      by (destruct o; split; reflexivity).
    destruct Hop as [Hl Ha].
    cbn [List.filter]. rewrite Hl, Ha. cbn [length].
    split; [lia|]. split; [lia|].
    rewrite !Forall_app. split; [assumption|]. split; [assumption|].
    constructor; [|constructor]. unfold emitted_form.
    cbn [target addr imm]. split; [reflexivity|]. split; [reflexivity|].
    right. split; [exact Ha | reflexivity].
Qed.

(** The loads of a walk, in program order: one per leaf, into
    consecutive registers. *)
Lemma lowered_loads_in_order t : forall n,
  0 <= n -> n + leaves t < 2 ^ 31 ->
  map (fun i => (dst i, imm i))
      (List.filter is_load_const (fst (lowered n t))) =
  zip (seqZ n (leaves t)) (leaf_values t).
Proof.
  induction t as [v | o l IHl r IHr]; intros n Hn Hlim;
    cbn [lowered leaves leaf_values] in *.
  - reflexivity.
  - pose proof (leaves_pos l). pose proof (leaves_pos r).
    pose proof (lowered_next l n Hn ltac:(lia)) as Hnext.
    specialize (IHl n Hn ltac:(lia)). destruct (lowered n l) as [cl n1].
    cbn [snd] in Hnext. subst n1.
    specialize (IHr (n + leaves l) ltac:(lia) ltac:(lia)).
    destruct (lowered (n + leaves l) r) as [cr n2]. cbn [fst] in *.
    rewrite !List.filter_app, !map_app, IHl, IHr.
    assert (Hl : is_load_const
                   (mkInstr (ast_op_to_ir o) n (n + leaves l) 0 0 0) = false)
      by (destruct o; reflexivity).
    cbn [List.filter]. rewrite Hl. cbn [map]. rewrite app_nil_r.
    rewrite seqZ_app by lia.
    rewrite zip_with_app; [reflexivity|].
    rewrite length_seqZ. pose proof (leaf_values_length l). lia.
Qed.

Lemma lowered_head t : forall n,
  exists v, fst (lowered n t) !! 0%nat = Some (LoadConst n v).
Proof.
  induction t as [v | o l IHl r IHr]; intros n; cbn [lowered].
  - exists v. reflexivity.
  - destruct (IHl n) as [v Hv]. destruct (lowered n l) as [cl n1].
    destruct (lowered n1 r) as [cr n2]. cbn [fst] in *.
    exists v. rewrite lookup_app_l; [assumption|].
    apply lookup_lt_Some in Hv. lia.
Qed.

(** Every arithmetic instruction finds both operands loaded earlier. *)
Lemma lowered_operands t : forall n k i,
  0 <= n -> n + leaves t < 2 ^ 31 ->
  fst (lowered n t) !! k = Some i -> is_arith i = true ->
  n <= dst i < src i /\ src i < n + leaves t /\
  exists j1 j2 v1 v2,
    (j1 < j2 < k)%nat /\
    fst (lowered n t) !! j1 = Some (LoadConst (dst i) v1) /\
    fst (lowered n t) !! j2 = Some (LoadConst (src i) v2).
Proof.
  induction t as [v | o l IHl r IHr]; intros n k i Hn Hlim Hk Hi;
    cbn [lowered leaves] in *.
  - cbn [fst] in Hk. destruct k; [|discriminate].
    injection Hk as <-. discriminate.
  - pose proof (leaves_pos l). pose proof (leaves_pos r).
    pose proof (lowered_next l n Hn ltac:(lia)) as Hnext.
    pose proof (lowered_head l n) as [vl Hhl].
    specialize (IHl n). destruct (lowered n l) as [cl n1].
    cbn [snd] in Hnext. subst n1.
    pose proof (lowered_head r (n + leaves l)) as [vr Hhr].
    specialize (IHr (n + leaves l)).
    destruct (lowered (n + leaves l) r) as [cr n2]. cbn [fst] in *.
    apply lookup_app_Some in Hk as [Hk | [Hge Hk]].
    + destruct (IHl k i Hn ltac:(lia) Hk Hi)
        as (Hd & Hs & j1 & j2 & v1 & v2 & Hj & H1 & H2).
      split; [lia|]. split; [lia|].
      exists j1, j2, v1, v2. split; [lia|].
      split; apply lookup_app_l_Some; assumption.
    + apply lookup_app_Some in Hk as [Hk | [Hge' Hk]].
      * destruct (IHr _ i ltac:(lia) ltac:(lia) Hk Hi)
          as (Hd & Hs & j1 & j2 & v1 & v2 & Hj & H1 & H2).
        split; [lia|]. split; [lia|].
        exists (length cl + j1)%nat, (length cl + j2)%nat, v1, v2.
        split; [lia|].
        split; rewrite lookup_app_r by lia.
        -- replace (length cl + j1 - length cl)%nat with j1 by lia.
           apply lookup_app_l_Some; assumption.
        -- replace (length cl + j2 - length cl)%nat with j2 by lia.
           apply lookup_app_l_Some; assumption.
      * destruct (k - length cl - length cr)%nat as [|?] eqn:Ek;
          [|discriminate].
        injection Hk as <-. cbn [dst src].
        split; [lia|]. split; [lia|].
        apply lookup_lt_Some in Hhr as Hlr.
        exists 0%nat, (length cl), vl, vr.
        split; [apply lookup_lt_Some in Hhl; lia|].
        split.
        -- apply lookup_app_l_Some. assumption.
        -- rewrite lookup_app_r by lia. rewrite Nat.sub_diag.
           apply lookup_app_l_Some. assumption.
Qed.

End Shape.

(** X13.  The program [codegen_expr] builds for a tree with [k] leaves
    has [2k - 1] instructions: [k] LoadConst and [k - 1] arithmetic ones,
    nothing else (no Cmp, branch, Load or Store), each with the fields its
    opcode does not use set to zero; the register returned is 0. *)
Theorem compile_shape (t : Node) :
  let p := snd (compile t) in
  fst (compile t) = 0 /\
  count p = 2 * leaves t - 1 /\
  count (List.filter is_load_const p) = leaves t /\
  count (List.filter is_arith p) = leaves t - 1 /\
  Forall emitted_form p.
Proof.
  rewrite compile_lowered. cbn [fst snd]. cbv zeta.
  destruct (lowered_shape t 0) as (HL & HA & HF).
  split; [reflexivity|]. split; [apply lowered_length|].
  split; [assumption|]. split; assumption.
Qed.

(** X14.  The LoadConst instructions appear in the order of the leaves,
    left to right, and the [j]-th of them loads the [j]-th leaf value into
    register [j]. *)
Theorem compile_loads_in_order (t : Node) (Hint : leaves t < 2 ^ 31) :
  map (fun i => (dst i, imm i))
      (List.filter is_load_const (snd (compile t))) =
  zip (seqZ 0 (leaves t)) (leaf_values t).
Proof.
  rewrite compile_lowered. cbn [snd].
  apply lowered_loads_in_order; lia.
Qed.

Lemma compile_loads_in_order_witness :
  map (fun i => (dst i, imm i))
      (List.filter is_load_const
         (snd (compile (NODE_BINARY_OP OP_SUB
                          (NODE_BINARY_OP OP_MUL (NODE_NUMBER 7)
                             (NODE_NUMBER 8))
                          (NODE_NUMBER 9))))) =
  [(0, 7); (1, 8); (2, 9)].
Proof.
  apply (compile_loads_in_order
           (NODE_BINARY_OP OP_SUB
              (NODE_BINARY_OP OP_MUL (NODE_NUMBER 7) (NODE_NUMBER 8))
              (NODE_NUMBER 9))).
  cbn. lia.
Defined.

(** X15.  Operands are defined before use: every arithmetic instruction
    of a generated program has [dst < src], both below the number of
    leaves, and is preceded by the LoadConst of its [dst] register and,
    after that, by the LoadConst of its [src] register. *)
Theorem compile_operands_loaded_before (t : Node) (k : nat) (i : IRInstr)
    (Hint : leaves t < 2 ^ 31)
    (Hk : snd (compile t) !! k = Some i)
    (Hi : is_arith i = true) :
  0 <= dst i < src i /\ src i < leaves t /\
  exists j1 j2 v1 v2,
    (j1 < j2 < k)%nat /\
    snd (compile t) !! j1 = Some (LoadConst (dst i) v1) /\
    snd (compile t) !! j2 = Some (LoadConst (src i) v2).
Proof.
  rewrite compile_lowered in *. cbn [snd] in *.
  destruct (lowered_operands t 0 k i ltac:(lia) ltac:(lia) Hk Hi)
    as (Hd & Hs & Hex).
  split; [lia|]. split; [lia | exact Hex].
Qed.

Lemma compile_operands_loaded_before_witness :
  exists j1 j2 v1 v2,
    (j1 < j2 < 4)%nat /\
    snd (compile (NODE_BINARY_OP OP_ADD (NODE_NUMBER 3)
                    (NODE_BINARY_OP OP_MUL (NODE_NUMBER 4) (NODE_NUMBER 2))))
      !! j1 = Some (LoadConst 0 v1) /\
    snd (compile (NODE_BINARY_OP OP_ADD (NODE_NUMBER 3)
                    (NODE_BINARY_OP OP_MUL (NODE_NUMBER 4) (NODE_NUMBER 2))))
      !! j2 = Some (LoadConst 1 v2).
Proof.
  assert (Hint : leaves (NODE_BINARY_OP OP_ADD (NODE_NUMBER 3)
                    (NODE_BINARY_OP OP_MUL (NODE_NUMBER 4) (NODE_NUMBER 2)))
                 < 2 ^ 31) by (cbn; lia).
  exact (proj2 (proj2 (compile_operands_loaded_before
                         (NODE_BINARY_OP OP_ADD (NODE_NUMBER 3)
                            (NODE_BINARY_OP OP_MUL (NODE_NUMBER 4)
                               (NODE_NUMBER 2))) 4
                         (mkInstr IR_ADD 0 1 0 0 0) Hint eq_refl eq_refl))).
Defined.

(** ** The reference evaluator *)

Section Eval.



End Eval.


(** ** What every iteration keeps *)

Section Invariant.

Lemma b2z_bit (c : bool) : Z.b2z c = 0 \/ Z.b2z c = 1.
Proof. destruct c; auto. Qed.

Lemma alu_of_ok o a b f :
  is_word a -> is_word b -> (o = OP_DIV -> b <> 0) ->
  is_word (fst (alu_of o a b f)) /\ flags_ok (snd (alu_of o a b f)).
Proof.
  intros Ha Hb Hnz. unfold flags_ok. destruct o; cbn [alu_of].
  - destruct (alu_add_sum a b f Ha Hb) as (-> & -> & -> & -> & ->).
    split; [apply mod_word|].
    unfold is_word in *.
    repeat split; try apply b2z_bit.
    destruct (Z.lt_ge_cases (a + b) (2 ^ 32)).
    + left. apply Z.div_small. lia.
    + right. symmetry. apply Z.div_unique with (r := a + b - 2 ^ 32); lia.
  - destruct (alu_sub_diff a b f Ha Hb) as (-> & -> & -> & -> & ->).
    split; [apply mod_word|].
    unfold is_word in *.
    repeat split; try apply b2z_bit.
    destruct (Z.le_gt_cases b a).
    + right. symmetry. apply Z.div_unique with (r := a - b); lia.
    + left. apply Z.div_small. lia.
  - unfold alu_mul. cbn [fst snd flagZ flagN flagC flagV].
    split; [apply mod_word|].
    rewrite bit_extract, to_u8_b2z by lia.
    repeat split; try apply b2z_bit; auto.
  - unfold alu_div. cbn [fst snd flagZ flagN flagC flagV].
    specialize (Hnz eq_refl). unfold is_word in *.
    split.
    + split; [apply Z.div_pos; lia|].
      apply Z.div_lt_upper_bound; nia.
    + rewrite bit_extract, to_u8_b2z by lia.
      repeat split; try apply b2z_bit; auto.
Qed.

Lemma exec_alu_flags alu i c :
  flags (exec_alu alu i c) =
    snd (alu (read_reg c (dst i)) (read_reg c (src i)) (flags c)).
Proof. unfold exec_alu. now destruct (alu _ _ _). Qed.

Lemma exec_alu_mem alu i c : mem (exec_alu alu i c) = mem c.
Proof. unfold exec_alu. now destruct (alu _ _ _). Qed.

Lemma read_reg_word c r :
  cpu_ok c -> bad_reg r = false -> is_word (read_reg c r).
Proof.
  intros (Hlen & Hall & _) Hr. apply bad_reg_false in Hr.
  unfold read_reg, CPU_MAX_REGS in *.
  assert (Hlt : (Z.to_nat r < length (regs c))%nat) by lia.
  destruct (lookup_lt_is_Some_2 _ _ Hlt) as [x Hx].
  rewrite (list_lookup_total_correct _ _ _ Hx).
  exact (Forall_lookup_1 _ _ _ _ Hall Hx).
Qed.

Lemma write_reg_ok c r v : cpu_ok c -> is_word v -> cpu_ok (write_reg c r v).
Proof.
  intros (Hlen & Hall & Hf & Hm) Hv. unfold cpu_ok, write_reg.
  cbn [regs flags mem]. rewrite length_insert.
  split; [assumption|]. split; [now apply Forall_insert|].
  split; assumption.
Qed.

Lemma exec_alu_ok o i c :
  cpu_ok c -> bad_reg (dst i) = false -> bad_reg (src i) = false ->
  (o = OP_DIV -> read_reg c (src i) <> 0) ->
  cpu_ok (exec_alu (alu_of o) i c).
Proof.
  intros Hc Hd Hs Hnz.
  destruct (alu_of_ok o _ _ (flags c) (read_reg_word c _ Hc Hd)
              (read_reg_word c _ Hc Hs) Hnz) as [Hw Hf].
  destruct Hc as (Hlen & Hall & _ & Hm).
  unfold cpu_ok. rewrite exec_alu_regs, exec_alu_flags, exec_alu_mem.
  rewrite length_insert.
  split; [assumption|]. split; [now apply Forall_insert|].
  split; assumption.
Qed.

Lemma lor_word x y : is_word x -> is_word y -> is_word (Z.lor x y).
Proof.
  unfold is_word. intros Hx Hy.
  split; [apply Z.lor_nonneg; lia|].
  destruct (Z.eq_dec (Z.lor x y) 0) as [->|Hnz]; [lia|].
  apply Z.log2_lt_pow2; [pose proof (Z.lor_nonneg x y); lia|].
  rewrite Z.log2_lor by lia.
  destruct (Z.eq_dec x 0) as [->|Hx0], (Z.eq_dec y 0) as [->|Hy0].
  - cbn. lia.
  - rewrite Z.max_r by (apply Z.log2_nonneg). apply Z.log2_lt_pow2; lia.
  - rewrite Z.max_l by (apply Z.log2_nonneg). apply Z.log2_lt_pow2; lia.
  - apply Z.max_lub_lt; apply Z.log2_lt_pow2; lia.
Qed.

(** Whatever the cells hold, a read assembles a word. *)
Lemma mem_read_word_ok m a w :
  mem_read_word m a = Ok w -> is_word w.
Proof.
  unfold mem_read_word. destruct m as [m|]; [|discriminate].
  destruct (check_access a); [|discriminate].
  intros [= <-]. repeat apply lor_word; apply to_word_is_word.
Qed.

Lemma mem_write_word_ok m a v m' :
  mem_ok (Some m) -> mem_write_word (Some m) a v = (Ok tt, m') -> mem_ok m'.
Proof.
  intros [Hwf Hb] Hw.
  destruct (check_access_cases a)
    as [[_ E] | [(_ & _ & E) | (Hal & Hle & E)]];
    try (unfold mem_write_word in Hw; rewrite E in Hw; discriminate).
  unfold mem_write_word in Hw. rewrite E in Hw. injection Hw as <-.
  cbn [mem_ok]. split.
  - now repeat apply set_byte_wf.
  - rewrite !to_u8_land_255.
    repeat apply set_byte_bytes; first [assumption | apply land_255_range].
Qed.

Lemma set_pc_ok c p : cpu_ok c -> cpu_ok (set_pc c p).
Proof. intros H. exact H. Qed.

Lemma target_checked t n :
  (t <? 0) || (t >? n) = false -> 0 <= t <= n.
Proof.
  destruct (Z.ltb_spec t 0), (Z.gtb_spec t n); cbn; try discriminate. lia.
Qed.

(** The switch keeps the CPU well formed and [last_dst] a register, and
    sets [pc] only to a checked target. *)
Lemma dispatch_keeps n i c last c' last' j :
  cpu_ok c -> 0 <= last < CPU_MAX_REGS ->
  dispatch n i c last = Ok (c', last', j) ->
  cpu_ok c' /\ 0 <= last' < CPU_MAX_REGS /\
  (if j then 0 <= pc c' <= n else pc c' = pc c).
Proof.
  intros Hc Hl Hd. unfold dispatch in Hd.
  rewrite ?check_reg_ok in Hd. unfold check_target in Hd.
  assert (Hreg : forall r, bad_reg r = false -> 0 <= r < CPU_MAX_REGS)
    by (intros r Hr; apply bad_reg_false in Hr; unfold CPU_MAX_REGS; lia).
  destruct (op i) eqn:Hop.
  - (* LOAD_CONST *)
    destruct (bad_reg (dst i)) eqn:Hb; [discriminate|].
    injection Hd as <- <- <-.
    split; [apply write_reg_ok; [assumption | apply to_word_is_word]|].
    split; [auto | reflexivity].
  - destruct (bad_reg (dst i)) eqn:Hb; [discriminate|].
    destruct (bad_reg (src i)) eqn:Hs; [discriminate|].
    injection Hd as <- <- <-.
    split; [apply (exec_alu_ok OP_ADD); auto; discriminate|].
    split; [auto | apply exec_alu_pc].
  - destruct (bad_reg (dst i)) eqn:Hb; [discriminate|].
    destruct (bad_reg (src i)) eqn:Hs; [discriminate|].
    injection Hd as <- <- <-.
    split; [apply (exec_alu_ok OP_SUB); auto; discriminate|].
    split; [auto | apply exec_alu_pc].
  - destruct (bad_reg (dst i)) eqn:Hb; [discriminate|].
    destruct (bad_reg (src i)) eqn:Hs; [discriminate|].
    injection Hd as <- <- <-.
    split; [apply (exec_alu_ok OP_MUL); auto; discriminate|].
    split; [auto | apply exec_alu_pc].
  - destruct (bad_reg (dst i)) eqn:Hb; [discriminate|].
    destruct (bad_reg (src i)) eqn:Hs; [discriminate|].
    destruct (Z.eqb_spec (read_reg c (src i)) 0) as [|Hnz]; [discriminate|].
    injection Hd as <- <- <-.
    split; [apply (exec_alu_ok OP_DIV); auto|].
    split; [auto | apply exec_alu_pc].
  - (* CMP *)
    destruct (bad_reg (dst i)) eqn:Hb; [discriminate|].
    destruct (bad_reg (src i)) eqn:Hs; [discriminate|].
    destruct (alu_of_ok OP_SUB _ _ (flags c) (read_reg_word c _ Hc Hb)
                (read_reg_word c _ Hc Hs) ltac:(discriminate)) as [_ Hf].
    cbn [alu_of] in Hf.
    destruct (alu_sub _ _ _) as [r f]. injection Hd as <- <- <-.
    cbn [snd] in Hf. destruct Hc as (H1 & H2 & _ & H4).
    split; [|split; [assumption | reflexivity]].
    split; [assumption|]. split; [assumption|]. split; assumption.
  - (* JMP *)
    destruct ((target i <? 0) || (target i >? n)) eqn:Ht; [discriminate|].
    injection Hd as <- <- <-. apply target_checked in Ht.
    split; [assumption|]. split; [assumption | exact Ht].
  - destruct (negb (flagZ (flags c) =? 0)).
    + destruct ((target i <? 0) || (target i >? n)) eqn:Ht; [discriminate|].
      injection Hd as <- <- <-. apply target_checked in Ht.
      split; [assumption|]. split; [assumption | exact Ht].
    + injection Hd as <- <- <-. auto.
  - destruct (flagZ (flags c) =? 0).
    + destruct ((target i <? 0) || (target i >? n)) eqn:Ht; [discriminate|].
      injection Hd as <- <- <-. apply target_checked in Ht.
      split; [assumption|]. split; [assumption | exact Ht].
    + injection Hd as <- <- <-. auto.
  - (* LOAD *)
    destruct (bad_reg (dst i)) eqn:Hb; [discriminate|].
    destruct (bad_reg (addr i)) eqn:Ha; [discriminate|].
    destruct (mem c) as [m|] eqn:Hm; [|discriminate].
    destruct (mem_read_word (Some m) _) as [w|e] eqn:Hr; [|discriminate].
    injection Hd as <- <- <-.
    split; [apply write_reg_ok;
            [assumption | exact (mem_read_word_ok _ _ _ Hr)]|].
    split; [auto | reflexivity].
  - (* STORE *)
    destruct (bad_reg (src i)) eqn:Hb; [discriminate|].
    destruct (bad_reg (addr i)) eqn:Ha; [discriminate|].
    destruct (mem c) as [m|] eqn:Hm; [|discriminate].
    destruct (mem_write_word (Some m) _ _) as [[[]|e] m'] eqn:Hw;
      [|discriminate].
    injection Hd as <- <- <-.
    destruct Hc as (H1 & H2 & H3 & H4). rewrite Hm in H4.
    split; [|split; [assumption | reflexivity]].
    unfold cpu_ok, set_mem. cbn [regs flags mem].
    split; [assumption|]. split; [assumption|]. split; [assumption|].
    exact (mem_write_word_ok _ _ _ _ H4 Hw).
Qed.

Lemma cpu_iteration_keeps p s s' :
  exec_ok (count p) s -> pc (cpu s) < count p ->
  cpu_iteration p s = Ok s' ->
  exec_ok (count p) s' /\ step_count s' = step_count s + 1.
Proof.
  intros (Hc & Hl & Hpc & Hsc) Hlt H. unfold cpu_iteration in H.
  apply loop_body_inv in H.
  destruct H as (Hguard & Hsteps & c & last & j & Hd & Hcpu & Hlast).
  destruct (dispatch_keeps _ _ _ _ _ _ _ Hc Hl Hd) as (Hc' & Hl' & Hj).
  split; [|assumption].
  unfold exec_ok. rewrite Hcpu, Hlast, Hsteps.
  split; [destruct j; assumption|]. split; [assumption|].
  split; [|lia].
  destruct j; [assumption|]. cbn [pc set_pc]. lia.
Qed.

Lemma cpu_reset_ok p m :
  mem_ok m -> exec_ok (count p) (cpu_reset m).
Proof.
  intros Hm. unfold exec_ok, cpu_ok, cpu_reset, flags_ok, zero_flags,
    CPU_MAX_REGS, CPU_MAX_STEPS, count.
  cbn [cpu regs flags mem pc last_dst step_count flagZ flagN flagC flagV].
  rewrite length_replicate.
  repeat split; auto; try lia.
  apply Forall_replicate. unfold is_word. lia.
Qed.

(** A run that finishes ends in a well-formed state at the end of the
    program. *)
Lemma cpu_loop_keeps p : forall fuel s s',
  exec_ok (count p) s ->
  cpu_loop fuel p s = Some (Finished s') ->
  exec_ok (count p) s' /\ pc (cpu s') = count p /\
  step_count s <= step_count s'.
Proof.
  induction fuel as [|fuel IH]; intros s s' Hok H.
  - cbn [cpu_loop] in H.
    destruct (Z.ltb_spec (pc (cpu s)) (count p)); [discriminate|].
    injection H as <-. pose proof Hok as (_ & _ & Hpc & _).
    split; [assumption|]. split; lia.
  - destruct (Z.lt_ge_cases (pc (cpu s)) (count p)) as [Hlt|Hge].
    + rewrite cpu_loop_step in H by assumption.
      destruct (cpu_iteration p s) as [s1|e] eqn:Hit; [|discriminate].
      destruct (cpu_iteration_keeps p s s1 Hok Hlt Hit) as [Hok1 Hs1].
      destruct (IH s1 s' Hok1 H) as (Hok' & Hpc' & Hsc').
      split; [assumption|]. split; [assumption | lia].
    + rewrite cpu_loop_done in H by lia. injection H as <-.
      destruct Hok as (Hc & Hl & Hpc & Hsc).
      split; [|split; lia].
      split; [assumption|]. split; [assumption|]. split; lia.
Qed.

Lemma sign_extend32_round w :
  is_word w ->
  to_word (sign_extend32 w) = w /\ - 2 ^ 31 <= sign_extend32 w < 2 ^ 31.
Proof.
  unfold is_word, sign_extend32, to_word. intros Hw.
  destruct (Z.ltb_spec w (2 ^ 31)).
  - split; [apply Z.mod_small; lia | lia].
  - split; [|lia]. symmetry. apply Z.mod_unique with (q := -1); lia.
Qed.

End Invariant.

(** X17.  Every successful iteration keeps the machine well formed: 32
    registers, each a 32-bit word; flags that are bits; [last_dst] a valid
    register index; [0 <= pc <= program length]; an attached memory of
    full size holding bytes; and the step counter, one larger than before,
    within [CPU_MAX_STEPS]. *)
Theorem cpu_iteration_invariant (p : IRProgram) (s s' : Exec)
    (Hok : exec_ok (count p) s)
    (Hpc : pc (cpu s) < count p)
    (Hstep : cpu_iteration p s = Ok s') :
  exec_ok (count p) s' /\
  length (regs (cpu s')) = 32%nat /\
  Forall is_word (regs (cpu s')) /\
  0 <= last_dst s' < 32 /\
  0 <= pc (cpu s') <= count p /\
  step_count s' = step_count s + 1 /\
  step_count s' <= CPU_MAX_STEPS.
Proof.
  destruct (cpu_iteration_keeps p s s' Hok Hpc Hstep) as [Hok' Hs].
  split; [assumption|].
  destruct Hok' as ((Hlen & Hall & _) & Hl & Hp & Hsc).
  unfold CPU_MAX_REGS in *.
  split; [rewrite Hlen; reflexivity|].
  repeat split; try assumption; lia.
Qed.

Lemma cpu_iteration_invariant_witness :
  exists s',
    cpu_iteration [LoadConst 4 (-1)] (cpu_reset None) = Ok s' /\
    Forall is_word (regs (cpu s')) /\ pc (cpu s') = 1.
Proof.
  eexists. split; [reflexivity|].
  destruct (cpu_iteration_invariant [LoadConst 4 (-1)] (cpu_reset None) _
              (cpu_reset_ok [LoadConst 4 (-1)] None I) eq_refl eq_refl)
    as (_ & _ & Hall & _).
  split; [exact Hall | reflexivity].
Defined.

(** X18.  A run that returns 0 ends with [pc] equal to the program length
    after at least one and at most [CPU_MAX_STEPS] instructions, in a
    well-formed machine; the register it reports is a 32-bit word, and the
    out-parameter is that word sign-extended: it lies in the signed 32-bit
    range and casts back to the register. *)
Theorem finished_run_state (p : IRProgram) (m : option Memory) (s : Exec)
    (Hm : mem_ok m)
    (Hrun : cpu_execute p m = Some (Finished s)) :
  exec_ok (count p) s /\
  pc (cpu s) = count p /\
  1 <= step_count s <= CPU_MAX_STEPS /\
  is_word (final_register s) /\
  to_word (out_result s) = final_register s /\
  - 2 ^ 31 <= out_result s < 2 ^ 31.
Proof.
  unfold cpu_execute in Hrun.
  destruct (Z.eqb_spec (count p) 0) as [|Hne]; [discriminate|].
  assert (Hlt : pc (cpu (cpu_reset m)) < count p).
  { cbn. unfold count in *. lia. }
  unfold cpu_fuel in Hrun. rewrite cpu_loop_step in Hrun by assumption.
  destruct (cpu_iteration p (cpu_reset m)) as [s1|e] eqn:Hit; [|discriminate].
  destruct (cpu_iteration_keeps p _ s1 (cpu_reset_ok p m Hm) Hlt Hit)
    as [Hok1 Hs1].
  destruct (cpu_loop_keeps p _ s1 s Hok1 Hrun) as (Hok & Hpc & Hsc).
  cbn [cpu_reset step_count] in Hs1.
  split; [assumption|]. split; [assumption|].
  pose proof Hok as (Hc & Hl & _ & Hsteps).
  split; [lia|].
  assert (Hw : is_word (final_register s)).
  { unfold final_register. apply read_reg_word; [assumption|].
    apply bad_reg_false. unfold CPU_MAX_REGS in Hl. lia. }
  split; [assumption|]. unfold out_result. fold (final_register s).
  apply sign_extend32_round. assumption.
Qed.

Lemma finished_run_state_witness :
  exists s,
    cpu_execute [LoadConst 0 (-7)] None = Some (Finished s) /\
    out_result s = -7 /\ final_register s = 0xFFFFFFF9.
Proof.
  pose (s := mkExec (mkCPU (<[0%nat := 0xFFFFFFF9]> (replicate 32 0))
                       zero_flags 1 None) 0 1).
  assert (Hrun : cpu_execute [LoadConst 0 (-7)] None = Some (Finished s))
    by (vm_compute; reflexivity).
  destruct (finished_run_state [LoadConst 0 (-7)] None s I Hrun)
    as (_ & _ & _ & _ & Hcast & _).
  exists s. split; [exact Hrun|]. split; [reflexivity|].
  rewrite <- Hcast. reflexivity.
Defined.

(** ** What one instruction touches *)

Section WriteSets.

Lemma exec_alu_frame alu i c :
  length (regs (exec_alu alu i c)) = length (regs c) /\
  (forall r, 0 <= r -> 0 <= dst i -> r <> dst i ->
             read_reg (exec_alu alu i c) r = read_reg c r) /\
  pc (exec_alu alu i c) = pc c.
Proof.
  unfold exec_alu.
  destruct (alu (read_reg c (dst i)) (read_reg c (src i)) (flags c))
    as [res f].
  unfold read_reg. cbn.
  split; [apply length_insert|]. split; [|reflexivity].
  intros r Hr Hd Hne. apply list_lookup_total_insert_ne. lia.
Qed.

Lemma write_reg_frame c d v :
  length (regs (write_reg c d v)) = length (regs c) /\
  (forall r, 0 <= r -> 0 <= d -> r <> d ->
             read_reg (write_reg c d v) r = read_reg c r).
Proof.
  unfold read_reg. cbn. split; [apply length_insert|].
  intros r Hr Hd Hne. apply list_lookup_total_insert_ne. lia.
Qed.

Lemma check_reg_Ok r x : check_reg r = Ok x -> 0 <= r < 32.
Proof.
  rewrite check_reg_ok. destruct (bad_reg r) eqn:E; [discriminate|].
  intros _. now apply bad_reg_false.
Qed.

(** What the switch leaves alone, case by case. *)
Lemma dispatch_frame n i c last c' last' j :
  dispatch n i c last = Ok (c', last', j) ->
  (writes_register (op i) = true ->
     last' = dst i /\
     forall r, 0 <= r -> r <> dst i -> read_reg c' r = read_reg c r) /\
  (writes_register (op i) = false -> regs c' = regs c /\ last' = last) /\
  (op i <> IR_STORE -> mem c' = mem c) /\
  (is_branch (op i) = false -> j = false /\ pc c' = pc c) /\
  length (regs c') = length (regs c).
Proof.
  unfold dispatch. intros Hd.
  destruct (op i);
    cbn [writes_register is_branch];
    repeat match type of Hd with
    | context [check_reg ?r] =>
        let E := fresh "E" in
        destruct (check_reg r) eqn:E; [apply check_reg_Ok in E|discriminate]
    | context [check_target ?t ?n] =>
        destruct (check_target t n); [|discriminate]
    | context [read_reg ?c ?r =? 0] =>
        destruct (read_reg c r =? 0); [discriminate|]
    | context [negb (flagZ ?f =? 0)] => destruct (negb (flagZ f =? 0))
    | context [flagZ ?f =? 0] => destruct (flagZ f =? 0)
    | context [alu_sub ?a ?b ?f] => destruct (alu_sub a b f)
    | context [match mem ?c with _ => _ end] =>
        destruct (mem c) eqn:?; [|discriminate]
    | context [mem_read_word ?m ?a] =>
        destruct (mem_read_word m a); [|discriminate]
    | context [mem_write_word ?m ?a ?v] =>
        let o := fresh "o" in
        destruct (mem_write_word m a v) as [o ?]; destruct o; [|discriminate]
    end;
    injection Hd as <- <- <-;
    try (pose proof (exec_alu_frame alu_add i c) as (Hl & Hr & Hp));
    try (pose proof (exec_alu_frame alu_sub i c) as (Hl2 & Hr2 & Hp2));
    try (pose proof (exec_alu_frame alu_mul i c) as (Hl3 & Hr3 & Hp3));
    try (pose proof (exec_alu_frame alu_div i c) as (Hl4 & Hr4 & Hp4));
    try (pose proof (write_reg_frame c (dst i) (to_word (imm i))) as (Hl5 & Hr5));
    (split; [intros Hw;
             first [ discriminate
                   | split; [reflexivity|];
                     intros r Hr0 Hne;
                     first [ apply Hr; lia | apply Hr2; lia | apply Hr3; lia
                           | apply Hr4; lia | apply Hr5; lia
                           | apply write_reg_frame; lia ] ]
           | split; [intros Hw;
                     first [discriminate | split; reflexivity]
           | split; [intros Hs; first [reflexivity | assumption | congruence
                                      | apply exec_alu_mem ]
           | split; [intros Hb;
                     first [ discriminate
                           | split; first [reflexivity | assumption] ]
           | first [ reflexivity | assumption | apply length_insert ]]]]]).
Qed.

End WriteSets.

(** X19.  The write set of each instruction.  LoadConst, Add, Sub, Mul,
    Div and Load set [last_dst] to their [dst] and change no register but
    [R[dst]]; Cmp, Store and the branches change no register and leave
    [last_dst]; only Store changes the memory; every instruction that is
    not a branch advances [pc] by one; the register file keeps its
    size. *)
Theorem instruction_write_set (p : IRProgram) (s s' : Exec)
    (Hstep : cpu_iteration p s = Ok s') :
  let i := p !!! Z.to_nat (pc (cpu s)) in
  (writes_register (op i) = true ->
     last_dst s' = dst i /\ 0 <= dst i < CPU_MAX_REGS /\
     forall r, 0 <= r -> r <> dst i ->
               read_reg (cpu s') r = read_reg (cpu s) r) /\
  (writes_register (op i) = false ->
     regs (cpu s') = regs (cpu s) /\ last_dst s' = last_dst s) /\
  (op i <> IR_STORE -> mem (cpu s') = mem (cpu s)) /\
  (is_branch (op i) = false -> pc (cpu s') = pc (cpu s) + 1) /\
  length (regs (cpu s')) = length (regs (cpu s)).
Proof.
  cbv zeta. unfold cpu_iteration in Hstep.
  apply loop_body_inv in Hstep.
  destruct Hstep as (_ & _ & c & last & j & Hd & Hc & Hl).
  pose proof (dispatch_ok_good _ _ _ _ _ Hd) as Hgood.
  destruct (dispatch_frame _ _ _ _ _ _ _ Hd) as (Hw & Hnw & Hm & Hb & Hlen).
  set (i := p !!! Z.to_nat (pc (cpu s))) in *.
  assert (Hregs : regs (cpu s') = regs c) by (rewrite Hc; now destruct j).
  assert (Hmem : mem (cpu s') = mem c) by (rewrite Hc; now destruct j).
  unfold read_reg. rewrite Hregs, Hmem, Hl.
  split.
  - intros H. destruct (Hw H) as [-> Hr]. split; [reflexivity|].
    split; [|exact Hr].
    apply bad_reg_false. unfold uses_bad_reg in Hgood.
    destruct (op i); try discriminate; cbn in H;
      first [exact Hgood | now apply orb_false_elim in Hgood].
  - split; [exact Hnw|]. split; [exact Hm|]. split; [|exact Hlen].
    intros H. destruct (Hb H) as [-> Hp]. rewrite Hc. cbn. now rewrite Hp.
Qed.

Lemma instruction_write_set_witness :
  exists s',
    cpu_iteration [mkInstr IR_ADD 2 2 0 0 0]
      (mkExec (mkCPU (<[2%nat := 21]> (replicate 32 0)) zero_flags 0 None)
              7 0) = Ok s' /\
    read_reg (cpu s') 2 = 42 /\ last_dst s' = 2 /\ pc (cpu s') = 1.
Proof.
  eexists. split; [reflexivity|].
  destruct (instruction_write_set [mkInstr IR_ADD 2 2 0 0 0]
      (mkExec (mkCPU (<[2%nat := 21]> (replicate 32 0)) zero_flags 0 None)
              7 0) _ eq_refl) as (Hw & _ & _ & Hpc & _).
  split; [reflexivity|]. split; [exact (proj1 (Hw eq_refl))|].
  exact (Hpc eq_refl).
Defined.

(** X20.  Below the step guard, an iteration fails with the register
    diagnostic exactly when the fetched instruction names, in a field its
    opcode uses, a register outside [0, 32): whatever the registers, the
    flags and the memory hold, and whether or not a memory is attached.
    In particular a branch never raises it, and the unused fields of an
    instruction are never checked. *)
Theorem register_error_iff (p : IRProgram) (s : Exec)
    (Hguard : step_count s + 1 <= CPU_MAX_STEPS) :
  let i := p !!! Z.to_nat (pc (cpu s)) in
  uses_bad_reg i = true <-> cpu_iteration p s = Err RegisterOutOfRange.
Proof.
  cbv zeta. unfold cpu_iteration. split.
  - intros Hbad. unfold loop_body.
    destruct (Z.gtb_spec (step_count s + 1) CPU_MAX_STEPS); [lia|].
    set (i := p !!! Z.to_nat (pc (cpu s))) in *.
    assert (Hd : dispatch (count p) i (cpu s) (last_dst s)
                   = Err RegisterOutOfRange).
    { unfold dispatch, uses_bad_reg in *. rewrite !check_reg_ok.
      destruct (op i); cbn beta iota in Hbad; try discriminate;
        destruct (bad_reg (dst i)), (bad_reg (src i)), (bad_reg (addr i));
        first [reflexivity | discriminate]. }
    now rewrite Hd.
  - intros Herr. apply loop_body_err in Herr.
    destruct Herr as [Hg | Hd]; [discriminate|].
    exact (dispatch_reg_err _ _ _ _ Hd).
Qed.

Lemma register_error_iff_witness :
  cpu_iteration [mkInstr IR_STORE 99 3 0 0 32] (cpu_reset None)
    = Err RegisterOutOfRange.
Proof.
  apply (register_error_iff [mkInstr IR_STORE 99 3 0 0 32] (cpu_reset None));
    [vm_compute; discriminate | reflexivity].
Defined.

(** X21.  The arithmetic instructions are two-address operations on
    words: with both registers in range, Add, Sub and Mul always succeed
    and Div succeeds unless [R[src]] is 0, in which case the iteration
    fails with the division diagnostic and nothing else; on success
    [R[dst]] holds [R[dst] op R[src]] reduced modulo [2^32] (the unsigned
    quotient for Div), also when [dst] and [src] are the same register,
    every other register is unchanged and [dst] becomes the reported
    register. *)
Theorem arithmetic_instruction (p : IRProgram) (s : Exec) (o : BinaryOp)
    (Hguard : step_count s + 1 <= CPU_MAX_STEPS)
    (Hok : cpu_ok (cpu s))
    (Hop : op (p !!! Z.to_nat (pc (cpu s))) = ast_op_to_ir o)
    (Hd : 0 <= dst (p !!! Z.to_nat (pc (cpu s))) < CPU_MAX_REGS)
    (Hs : 0 <= src (p !!! Z.to_nat (pc (cpu s))) < CPU_MAX_REGS) :
  let i := p !!! Z.to_nat (pc (cpu s)) in
  let a := read_reg (cpu s) (dst i) in
  let b := read_reg (cpu s) (src i) in
  (o = OP_DIV /\ b = 0 -> cpu_iteration p s = Err DivisionByZero) /\
  (~ (o = OP_DIV /\ b = 0) ->
   exists s',
     cpu_iteration p s = Ok s' /\
     read_reg (cpu s') (dst i) =
       match o with
       | OP_ADD => (a + b) mod 2 ^ 32
       | OP_SUB => (a - b) mod 2 ^ 32
       | OP_MUL => (a * b) mod 2 ^ 32
       | OP_DIV => a / b
       end /\
     (forall r, 0 <= r -> r <> dst i ->
                read_reg (cpu s') r = read_reg (cpu s) r) /\
     last_dst s' = dst i /\
     pc (cpu s') = pc (cpu s) + 1).
Proof.
  cbv zeta. set (i := p !!! Z.to_nat (pc (cpu s))) in *.
  assert (Bd : bad_reg (dst i) = false) by now apply bad_reg_false.
  assert (Bs : bad_reg (src i) = false) by now apply bad_reg_false.
  pose proof (read_reg_word _ _ Hok Bd) as Wa.
  pose proof (read_reg_word _ _ Hok Bs) as Wb.
  unfold cpu_iteration, loop_body. fold i.
  destruct (Z.gtb_spec (step_count s + 1) CPU_MAX_STEPS); [lia|].
  assert (Hrun : forall alu,
    exists s',
      Ok (A := Exec) (E := cpu_error)
         {| cpu := set_pc (exec_alu alu i (cpu s))
                     (pc (exec_alu alu i (cpu s)) + 1);
            last_dst := dst i; step_count := step_count s + 1 |} = Ok s' /\
      read_reg (cpu s') (dst i) =
        fst (alu (read_reg (cpu s) (dst i)) (read_reg (cpu s) (src i))
               (flags (cpu s))) /\
      (forall r, 0 <= r -> r <> dst i ->
                 read_reg (cpu s') r = read_reg (cpu s) r) /\
      last_dst s' = dst i /\ pc (cpu s') = pc (cpu s) + 1).
  { intros alu. eexists. split; [reflexivity|].
    cbn [cpu last_dst]. unfold read_reg at 1. cbn [set_pc regs pc].
    rewrite exec_alu_regs, exec_alu_pc.
    destruct Hok as (Hlen & _).
    split; [apply regs_insert_same; assumption|].
    split; [|split; reflexivity].
    intros r Hr Hne. unfold read_reg. cbn [cpu set_pc regs].
    rewrite exec_alu_regs. apply regs_insert_other; lia. }
  unfold dispatch. rewrite Hop.
  destruct o; cbn [ast_op_to_ir]; rewrite !check_reg_ok, Bd, Bs.
  - split; [intros [? _]; discriminate|]. intros _.
    destruct (Hrun alu_add) as (s' & E & Hv & Hrest).
    exists s'. split; [exact E|]. split; [|exact Hrest].
    rewrite Hv. now destruct (alu_add_sum _ _ (flags (cpu s)) Wa Wb) as (-> & _).
  - split; [intros [? _]; discriminate|]. intros _.
    destruct (Hrun alu_sub) as (s' & E & Hv & Hrest).
    exists s'. split; [exact E|]. split; [|exact Hrest].
    rewrite Hv. now destruct (alu_sub_diff _ _ (flags (cpu s)) Wa Wb) as (-> & _).
  - split; [intros [? _]; discriminate|]. intros _.
    destruct (Hrun alu_mul) as (s' & E & Hv & Hrest).
    exists s'. split; [exact E|]. split; [|exact Hrest].
    rewrite Hv.
    pose proof (alu_of_value OP_MUL (read_reg (cpu s) (dst i))
                  (read_reg (cpu s) (src i)) (flags (cpu s))
                  ltac:(discriminate)) as Hm.
    rewrite !to_word_idem in Hm by assumption. exact Hm.
  - destruct (Z.eqb_spec (read_reg (cpu s) (src i)) 0) as [H0|Hne].
    + split; [reflexivity|]. intros Hn. exfalso. apply Hn. now split.
    + split; [intros [_ H0]; contradiction|]. intros _.
      destruct (Hrun alu_div) as (s' & E & Hv & Hrest).
      exists s'. split; [exact E|]. split; [|exact Hrest].
      rewrite Hv. reflexivity.
Qed.

Lemma arithmetic_instruction_witness :
  cpu_iteration [mkInstr IR_DIV 1 0 0 0 0]
    (mkExec (mkCPU (<[1%nat := 7]> (replicate 32 0)) zero_flags 0 None) 1 1)
    = Err DivisionByZero.
Proof.
  refine (proj1 (arithmetic_instruction [mkInstr IR_DIV 1 0 0 0 0]
    (mkExec (mkCPU (<[1%nat := 7]> (replicate 32 0)) zero_flags 0 None) 1 1)
    OP_DIV _ _ eq_refl _ _) (conj eq_refl eq_refl)).
  - vm_compute. discriminate.
  - apply (write_reg_ok (cpu (cpu_reset None)) 1 7
             (proj1 (cpu_reset_ok [] None I))).
    unfold is_word. lia.
  - vm_compute. split; [discriminate | reflexivity].
  - vm_compute. split; [discriminate | reflexivity].
Defined.

(** ** Instructions in sequence *)

Section Sequences.

Lemma sub_zero_iff a b :
  is_word a -> is_word b -> ((a - b) mod 2 ^ 32 =? 0) = (a =? b).
Proof.
  unfold is_word. intros Ha Hb.
  destruct (Z.eqb_spec a b) as [->|Hne].
  - now rewrite Z.sub_diag.
  - apply Z.eqb_neq. intros H0.
    apply Z.mod_divide in H0; [|lia]. destruct H0 as [k Hk].
    assert (k = 0) by nia. subst k. lia.
Qed.

(** The Z flag a comparison leaves. *)
Lemma cmp_flagZ a b f :
  is_word a -> is_word b ->
  flagZ (snd (alu_sub a b f)) = if a =? b then 1 else 0.
Proof.
  intros Ha Hb. rewrite alu_sub_value by assumption. cbv zeta.
  cbn [snd flagZ]. now rewrite sub_zero_iff.
Qed.

End Sequences.

(** X22.  Compare and branch.  A Cmp of two registers followed by Jz
    jumps to the target exactly when the two registers hold the same
    word, and followed by Jnz exactly when they differ; otherwise
    execution falls through to the instruction after the branch.  The two
    instructions change no register, leave the memory and the reported
    register alone and count as two steps. *)
Theorem compare_then_branch (p : IRProgram) (s : Exec)
    (Hok : cpu_ok (cpu s))
    (Hguard : step_count s + 2 <= CPU_MAX_STEPS)
    (Hpc : 0 <= pc (cpu s))
    (Hcmp : op (p !!! Z.to_nat (pc (cpu s))) = IR_CMP)
    (Hd : 0 <= dst (p !!! Z.to_nat (pc (cpu s))) < CPU_MAX_REGS)
    (Hs : 0 <= src (p !!! Z.to_nat (pc (cpu s))) < CPU_MAX_REGS)
    (Hbr : op (p !!! Z.to_nat (pc (cpu s) + 1)) = IR_JZ \/
           op (p !!! Z.to_nat (pc (cpu s) + 1)) = IR_JNZ)
    (Ht : 0 <= target (p !!! Z.to_nat (pc (cpu s) + 1)) <= count p) :
  let i := p !!! Z.to_nat (pc (cpu s)) in
  let j := p !!! Z.to_nat (pc (cpu s) + 1) in
  let same := read_reg (cpu s) (dst i) =? read_reg (cpu s) (src i) in
  let taken := match op j with IR_JZ => same | _ => negb same end in
  exists s1 s2,
    cpu_iteration p s = Ok s1 /\
    cpu_iteration p s1 = Ok s2 /\
    pc (cpu s2) = (if taken then target j else pc (cpu s) + 2) /\
    regs (cpu s2) = regs (cpu s) /\
    mem (cpu s2) = mem (cpu s) /\
    last_dst s2 = last_dst s /\
    step_count s2 = step_count s + 2.
Proof.
  cbv zeta.
  set (i := p !!! Z.to_nat (pc (cpu s))) in *.
  set (j := p !!! Z.to_nat (pc (cpu s) + 1)) in *.
  assert (Bd : bad_reg (dst i) = false) by now apply bad_reg_false.
  assert (Bs : bad_reg (src i) = false) by now apply bad_reg_false.
  pose proof (cmp_flagZ _ _ (flags (cpu s))
                (read_reg_word _ _ Hok Bd) (read_reg_word _ _ Hok Bs)) as HZ.
  assert (Htgt : check_target (target j) (count p) = Ok tt).
  { unfold check_target.
    destruct (Z.ltb_spec (target j) 0), (Z.gtb_spec (target j) (count p));
      first [lia | reflexivity]. }
  set (f := snd (alu_sub (read_reg (cpu s) (dst i))
                   (read_reg (cpu s) (src i)) (flags (cpu s)))) in *.
  set (s1 := {| cpu := set_pc (set_flags (cpu s) f) (pc (cpu s) + 1);
                last_dst := last_dst s;
                step_count := step_count s + 1 |}).
  assert (E1 : cpu_iteration p s = Ok s1).
  { unfold cpu_iteration, loop_body. fold i.
    destruct (Z.gtb_spec (step_count s + 1) CPU_MAX_STEPS); [lia|].
    unfold dispatch. rewrite Hcmp, !check_reg_ok, Bd, Bs.
    subst s1 f.
    now destruct (alu_sub (read_reg (cpu s) (dst i))
                    (read_reg (cpu s) (src i)) (flags (cpu s))). }
  exists s1.
  unfold cpu_iteration at 2, loop_body.
  change (pc (cpu s1)) with (pc (cpu s) + 1). fold j.
  change (step_count s1) with (step_count s + 1).
  destruct (Z.gtb_spec (step_count s + 1 + 1) CPU_MAX_STEPS); [lia|].
  unfold dispatch.
  change (flags (cpu s1)) with f. rewrite HZ.
  destruct Hbr as [Hj | Hj]; rewrite Hj;
    destruct (read_reg (cpu s) (dst i) =? read_reg (cpu s) (src i));
    cbn [Z.eqb negb]; try rewrite Htgt;
    eexists; (split; [exact E1|]); (split; [reflexivity|]);
    subst s1;
    cbn [cpu pc set_pc regs mem last_dst step_count set_flags negb];
    (split; [first [reflexivity | lia]|]);
    repeat split; lia.
Qed.

Lemma compare_then_branch_witness :
  exists s1 s2,
    cpu_iteration
      [mkInstr IR_CMP 0 1 0 0 0; mkInstr IR_JZ 0 0 0 3 0; LoadConst 2 9]
      (cpu_reset None) = Ok s1 /\
    cpu_iteration
      [mkInstr IR_CMP 0 1 0 0 0; mkInstr IR_JZ 0 0 0 3 0; LoadConst 2 9]
      s1 = Ok s2 /\
    pc (cpu s2) = 3.
Proof.
  destruct (compare_then_branch
      [mkInstr IR_CMP 0 1 0 0 0; mkInstr IR_JZ 0 0 0 3 0; LoadConst 2 9]
      (cpu_reset None)
      (proj1 (cpu_reset_ok [] None I)))
    as (s1 & s2 & E1 & E2 & Hp & _);
    [ vm_compute; discriminate
    | vm_compute; discriminate
    | reflexivity
    | vm_compute; split; [discriminate | reflexivity]
    | vm_compute; split; [discriminate | reflexivity]
    | left; reflexivity
    | vm_compute; split; discriminate
    | ].
  exists s1, s2. split; [exact E1|]. split; [exact E2|]. exact Hp.
Defined.

(** ** Load and Store *)

Section LoadStore.

Lemma mem_write_then_read m a v :
  mem_wf m -> 0 <= a <= MEM_SIZE - 4 -> a mod 4 = 0 -> is_word v ->
  exists m',
    mem_write_word (Some m) a v = (Ok tt, Some m') /\
    mem_read_word (Some m') a = Ok v.
Proof.
  intros Hwf Ha Hal Hv. unfold mem_write_word, mem_read_word.
  rewrite check_access_ok by assumption.
  eexists. split; [reflexivity|]. cbv zeta.
  destruct (write_bytes m a (to_u8 (Z.land v 255))
              (to_u8 (Z.land (Z.shiftr v 8) 255))
              (to_u8 (Z.land (Z.shiftr v 16) 255))
              (to_u8 (Z.land (Z.shiftr v 24) 255)) Hwf Ha)
    as (E0 & E1 & E2 & E3).
  cbv zeta in E0, E1, E2, E3.
  rewrite E0, E1, E2, E3. f_equal. now apply word_of_bytes.
Qed.

Lemma guard_passes s :
  step_count s + 1 <= CPU_MAX_STEPS ->
  (step_count s + 1 >? CPU_MAX_STEPS) = false.
Proof. intros H. destruct (Z.gtb_spec (step_count s + 1) CPU_MAX_STEPS); lia. Qed.

End LoadStore.

(** X23.  What a Load or a Store does, both registers being in range.
    Without an attached memory the iteration fails with the diagnostic
    for that; with one, an address register that is not a multiple of 4
    gives the alignment fault, also when the address is beyond the
    memory; an aligned address above [MEM_SIZE - 4] gives the bounds
    fault; any other address succeeds and the iteration advances [pc] by
    one, a Load leaving the memory as it was. *)
Theorem memory_instruction_outcome (p : IRProgram) (s : Exec)
    (Hguard : step_count s + 1 <= CPU_MAX_STEPS)
    (Hop : op (p !!! Z.to_nat (pc (cpu s))) = IR_LOAD \/
           op (p !!! Z.to_nat (pc (cpu s))) = IR_STORE)
    (Hgood : uses_bad_reg (p !!! Z.to_nat (pc (cpu s))) = false) :
  let i := p !!! Z.to_nat (pc (cpu s)) in
  let a := read_reg (cpu s) (addr i) in
  match mem (cpu s) with
  | None => cpu_iteration p s = Err MemoryNotAttached
  | Some m =>
      (a mod 4 <> 0 ->
       cpu_iteration p s = Err (MemoryFault AlignmentError)) /\
      (a mod 4 = 0 -> MEM_SIZE - 4 < a ->
       cpu_iteration p s = Err (MemoryFault BoundsError)) /\
      (a mod 4 = 0 -> a <= MEM_SIZE - 4 ->
       exists s', cpu_iteration p s = Ok s' /\
                  pc (cpu s') = pc (cpu s) + 1 /\
                  (op i = IR_LOAD -> mem (cpu s') = mem (cpu s)))
  end.
Proof.
  cbv zeta. unfold cpu_iteration, loop_body.
  rewrite guard_passes by assumption.
  set (i := p !!! Z.to_nat (pc (cpu s))) in *.
  unfold dispatch, uses_bad_reg in *.
  destruct Hop as [Hop | Hop]; rewrite Hop in *;
    apply orb_false_elim in Hgood; destruct Hgood as [B1 B2];
    rewrite !check_reg_ok, B1, B2;
    destruct (mem (cpu s)) as [m|] eqn:Hm; try reflexivity;
    unfold mem_read_word, mem_write_word;
    destruct (check_access_cases (read_reg (cpu s) (addr i)))
      as [[Hn E] | [(Hal & Hgt & E) | (Hal & Hle & E)]]; rewrite E;
    (split; [intros ?; first [reflexivity | contradiction]|]);
    (split; [intros ? ?; first [reflexivity | contradiction | lia]|]);
    intros ? ?; try contradiction; try lia;
    eexists; (split; [reflexivity|]);
    (split; [reflexivity|]); intros ?; first [assumption | discriminate].
Qed.

Lemma memory_instruction_outcome_witness :
  cpu_iteration [mkInstr IR_LOAD 1 0 0 0 0]
    (mkExec (mkCPU (<[0%nat := 65538]> (replicate 32 0)) zero_flags 0
                   (Some (mem_init (mkMemory [])))) 0 0)
    = Err (MemoryFault AlignmentError).
Proof.
  refine (proj1 (memory_instruction_outcome [mkInstr IR_LOAD 1 0 0 0 0]
    (mkExec (mkCPU (<[0%nat := 65538]> (replicate 32 0)) zero_flags 0
                   (Some (mem_init (mkMemory [])))) 0 0) _ _ _) _).
  - vm_compute. discriminate.
  - left. reflexivity.
  - reflexivity.
  - vm_compute. discriminate.
Defined.

(** X24.  A Store followed by a Load through an address register holding
    the same aligned, in-range address brings the stored word back: after
    the two instructions the Load's destination holds what the Store's
    source held, every other register is unchanged, the flags are
    unchanged, and the destination is the reported register. *)
Theorem store_then_load (p : IRProgram) (s : Exec) (m : Memory)
    (Hok : cpu_ok (cpu s))
    (Hmem : mem (cpu s) = Some m)
    (Hguard : step_count s + 2 <= CPU_MAX_STEPS)
    (Hpc : 0 <= pc (cpu s))
    (Hst : op (p !!! Z.to_nat (pc (cpu s))) = IR_STORE)
    (Hld : op (p !!! Z.to_nat (pc (cpu s) + 1)) = IR_LOAD)
    (Hgood1 : uses_bad_reg (p !!! Z.to_nat (pc (cpu s))) = false)
    (Hgood2 : uses_bad_reg (p !!! Z.to_nat (pc (cpu s) + 1)) = false)
    (Hsame : read_reg (cpu s) (addr (p !!! Z.to_nat (pc (cpu s) + 1))) =
             read_reg (cpu s) (addr (p !!! Z.to_nat (pc (cpu s)))))
    (Hal : read_reg (cpu s) (addr (p !!! Z.to_nat (pc (cpu s)))) mod 4 = 0)
    (Hin : read_reg (cpu s) (addr (p !!! Z.to_nat (pc (cpu s))))
             <= MEM_SIZE - 4) :
  let i := p !!! Z.to_nat (pc (cpu s)) in
  let j := p !!! Z.to_nat (pc (cpu s) + 1) in
  exists s1 s2,
    cpu_iteration p s = Ok s1 /\
    cpu_iteration p s1 = Ok s2 /\
    read_reg (cpu s2) (dst j) = read_reg (cpu s) (src i) /\
    (forall r, 0 <= r -> r <> dst j ->
               read_reg (cpu s2) r = read_reg (cpu s) r) /\
    flags (cpu s2) = flags (cpu s) /\
    last_dst s2 = dst j /\
    pc (cpu s2) = pc (cpu s) + 2 /\
    step_count s2 = step_count s + 2.
Proof.
  cbv zeta.
  set (i := p !!! Z.to_nat (pc (cpu s))) in *.
  set (j := p !!! Z.to_nat (pc (cpu s) + 1)) in *.
  unfold uses_bad_reg in Hgood1, Hgood2. rewrite Hst in Hgood1.
  rewrite Hld in Hgood2.
  apply orb_false_elim in Hgood1. destruct Hgood1 as [Bs Ba].
  apply orb_false_elim in Hgood2. destruct Hgood2 as [Bd Ba'].
  pose proof (read_reg_word _ _ Hok Bs) as Wv.
  pose proof (read_reg_word _ _ Hok Ba) as Wa.
  pose proof Hok as (Hlen & _ & _ & Hmok). rewrite Hmem in Hmok.
  destruct Hmok as [Hwf _].
  destruct (mem_write_then_read m (read_reg (cpu s) (addr i))
              (read_reg (cpu s) (src i)) Hwf
              ltac:(unfold is_word in Wa; lia) Hal Wv)
    as (m' & Ew & Er).
  set (s1 := {| cpu := set_pc (set_mem (cpu s) (Some m')) (pc (cpu s) + 1);
                last_dst := last_dst s;
                step_count := step_count s + 1 |}).
  assert (E1 : cpu_iteration p s = Ok s1).
  { unfold cpu_iteration, loop_body. fold i.
    rewrite guard_passes by lia.
    unfold dispatch. rewrite Hst, !check_reg_ok, Bs, Ba, Hmem, Ew.
    reflexivity. }
  exists s1.
  unfold cpu_iteration at 2, loop_body.
  change (pc (cpu s1)) with (pc (cpu s) + 1). fold j.
  rewrite guard_passes by (subst s1; cbn [step_count]; lia).
  unfold dispatch. rewrite Hld, !check_reg_ok, Bd, Ba'.
  change (mem (cpu s1)) with (Some m').
  change (read_reg (cpu s1) (addr j)) with (read_reg (cpu s) (addr j)).
  rewrite Hsame, Er.
  eexists. split; [exact E1|]. split; [reflexivity|].
  subst s1. unfold read_reg.
  cbn [cpu pc set_pc set_mem write_reg regs flags last_dst step_count].
  apply bad_reg_false in Bd.
  split; [apply regs_insert_same; assumption|].
  split; [intros r Hr Hne; apply regs_insert_other; lia|].
  repeat split; lia.
Qed.

Lemma store_then_load_witness :
  exists s1 s2,
    cpu_iteration [mkInstr IR_STORE 0 3 0 0 1; mkInstr IR_LOAD 5 0 0 0 1]
      (mkExec (mkCPU (<[3%nat := 77]> (replicate 32 0)) zero_flags 0
                     (Some (mem_init (mkMemory [])))) 0 0) = Ok s1 /\
    cpu_iteration [mkInstr IR_STORE 0 3 0 0 1; mkInstr IR_LOAD 5 0 0 0 1]
      s1 = Ok s2 /\
    read_reg (cpu s2) 5 = 77.
Proof.
  assert (Hok : cpu_ok (mkCPU (<[3%nat := 77]> (replicate 32 0)) zero_flags 0
                          (Some (mem_init (mkMemory []))))).
  { apply (write_reg_ok (cpu (cpu_reset (Some (mem_init (mkMemory [])))))
             3 77).
    - apply (cpu_reset_ok []). split; [apply mem_init_wf|].
      unfold mem_bytes, mem_init. cbn [data]. apply Forall_replicate. lia.
    - unfold is_word. lia. }
  destruct (store_then_load
      [mkInstr IR_STORE 0 3 0 0 1; mkInstr IR_LOAD 5 0 0 0 1]
      (mkExec (mkCPU (<[3%nat := 77]> (replicate 32 0)) zero_flags 0
                     (Some (mem_init (mkMemory [])))) 0 0)
      (mem_init (mkMemory [])) Hok eq_refl)
    as (s1 & s2 & E1 & E2 & Hv & _);
    [ vm_compute; discriminate
    | vm_compute; discriminate
    | reflexivity | reflexivity | reflexivity | reflexivity
    | reflexivity | reflexivity
    | vm_compute; discriminate
    | ].
  exists s1, s2. split; [exact E1|]. split; [exact E2|]. exact Hv.
Defined.

(** ** The lexer *)

Section Lexer.

Lemma char_at_app pre c rest :
  char_at (pre ++ c :: rest) (Z.of_nat (length pre)) = c.
Proof.
  unfold char_at. rewrite Nat2Z.id.
  now rewrite list_lookup_total_middle.
Qed.

(** Where the loop of [skip_ws] and of the drain stops. *)
Lemma advance_while_spec test src len : forall fuel pos,
  (Z.to_nat (len - pos) <= fuel)%nat ->
  let p' := advance_while test fuel src pos len in
  pos <= p' /\ (p' <= len \/ p' = pos) /\
  (forall k, pos <= k < p' -> test (char_at src k) = true) /\
  (p' < len -> test (char_at src p') = false).
Proof.
  induction fuel as [|fuel IH]; intros pos Hf; cbn [advance_while].
  - cbv zeta. split; [lia|]. split; [now right|].
    split; [intros k Hk; lia|]. intros Hlt. lia.
  - destruct (Z.ltb_spec pos len) as [Hlt|Hge]; cbn [andb].
    + destruct (test (char_at src pos)) eqn:Ht.
      * destruct (IH (pos + 1) ltac:(lia)) as (H1 & H2 & H3 & H4).
        cbv zeta. split; [lia|]. split; [left; lia|].
        split; [|exact H4].
        intros k Hk. destruct (Z.eq_dec k pos) as [->|Hne]; [exact Ht|].
        apply H3. lia.
      * cbv zeta. split; [lia|]. split; [now right|].
        split; [intros k Hk; lia|]. intros _. exact Ht.
    + cbv zeta. split; [lia|]. split; [now right|].
      split; [intros k Hk; lia|]. intros Hlt. lia.
Qed.

Lemma advance_while_stay test fuel src pos len :
  len <= pos \/ test (char_at src pos) = false ->
  advance_while test fuel src pos len = pos.
Proof.
  intros H. destruct fuel; [reflexivity|]. cbn [advance_while].
  destruct (Z.ltb_spec pos len); cbn [andb]; [|reflexivity].
  destruct H as [H | ->]; [lia | reflexivity].
Qed.

(** Over a run of characters that pass the test, followed by one that
    does not. *)
Lemma advance_while_run test : forall ds pre rest fuel,
  Forall (fun c => test c = true) ds ->
  match rest with [] => True | c :: _ => test c = false end ->
  (length ds <= fuel)%nat ->
  advance_while test fuel (pre ++ ds ++ rest) (Z.of_nat (length pre))
    (Z.of_nat (length (pre ++ ds ++ rest)))
  = Z.of_nat (length pre) + Z.of_nat (length ds).
Proof.
  induction ds as [|d ds IH]; intros pre rest fuel Hall Hrest Hf.
  - cbn [app length]. rewrite Z.add_0_r. apply advance_while_stay.
    destruct rest as [|c rest].
    + left. rewrite app_nil_r. lia.
    + right. now rewrite char_at_app.
  - destruct fuel as [|fuel]; [cbn in Hf; lia|].
    cbn [advance_while]. cbn [app]. rewrite char_at_app.
    inversion Hall as [|? ? Hd Hds]; subst. rewrite Hd.
    destruct (Z.ltb_spec (Z.of_nat (length pre))
                (Z.of_nat (length (pre ++ d :: ds ++ rest)))) as [_|Hge];
      [|rewrite length_app in Hge; cbn [length] in Hge; lia].
    cbn [andb].
    replace (pre ++ d :: ds ++ rest) with ((pre ++ [d]) ++ ds ++ rest)
      by now rewrite <- app_assoc.
    replace (Z.of_nat (length pre) + 1) with (Z.of_nat (length (pre ++ [d])))
      by (rewrite length_app; cbn [length]; lia).
    rewrite IH; [|assumption|assumption|cbn [length] in Hf; lia].
    rewrite length_app. cbn [length]. lia.
Qed.

Lemma isdigit_value c : isdigit c = true -> 0 <= char_code c - 48 <= 9.
Proof.
  unfold isdigit. intros H. apply andb_prop in H. destruct H as [H1 H2].
  apply Z.leb_le in H1. apply Z.leb_le in H2. lia.
Qed.

(** The overflow test is exact. *)
Lemma overflow_test v d :
  0 <= v -> 0 <= d <= 9 ->
  (v >? Z.quot (LONG_MAX - d) 10) = (LONG_MAX <? v * 10 + d).
Proof.
  intros Hv Hd. unfold LONG_MAX.
  rewrite Z.quot_div_nonneg by lia.
  destruct (Z.gtb_spec v ((2 ^ 63 - 1 - d) / 10)) as [H|H],
           (Z.ltb_spec (2 ^ 63 - 1) (v * 10 + d)) as [H'|H'];
    try reflexivity; exfalso.
  - assert (v * 10 <= 2 ^ 63 - 1 - d) by lia.
    assert (v <= (2 ^ 63 - 1 - d) / 10) by (apply Z.div_le_lower_bound; lia).
    lia.
  - assert (10 * v <= 2 ^ 63 - 1 - d).
    { etransitivity; [apply Z.mul_le_mono_nonneg_l; [lia | exact H]|].
      apply Z.mul_div_le. lia. }
    lia.
Qed.

Lemma decimal_from_grows : forall ds acc,
  Forall (fun c => isdigit c = true) ds -> 0 <= acc ->
  acc <= decimal_from acc ds.
Proof.
  induction ds as [|d ds IH]; intros acc Hall Hacc; cbn; [lia|].
  inversion Hall as [|? ? Hd Hds]; subst.
  pose proof (isdigit_value d Hd).
  etransitivity; [|apply IH; [assumption | lia]]. lia.
Qed.

(** The loop over a literal: the digits are all read, and the value is
    returned exactly when it fits a [long]. *)
Lemma scan_number_run : forall ds pre rest fuel acc,
  Forall (fun c => isdigit c = true) ds -> ends_number rest ->
  (length ds + length rest <= fuel)%nat -> 0 <= acc <= LONG_MAX ->
  scan_number fuel (pre ++ ds ++ rest) (Z.of_nat (length pre))
    (Z.of_nat (length (pre ++ ds ++ rest))) acc
  = (if decimal_from acc ds <=? LONG_MAX
     then Some (decimal_from acc ds) else None,
     Z.of_nat (length pre) + Z.of_nat (length ds)).
Proof.
  induction ds as [|d ds IH]; intros pre rest fuel acc Hall Hrest Hf Hacc.
  - cbn [app length decimal_from fold_left]. rewrite Z.add_0_r.
    destruct (Z.leb_spec acc LONG_MAX); [|lia].
    destruct fuel as [|fuel]; cbn [scan_number]; [reflexivity|].
    destruct rest as [|c rest].
    + rewrite app_nil_r.
      destruct (Z.ltb_spec (Z.of_nat (length pre)) (Z.of_nat (length pre)));
        [lia | reflexivity].
    + rewrite char_at_app. cbn in Hrest. rewrite Hrest.
      now rewrite andb_false_r.
  - destruct fuel as [|fuel]; [cbn in Hf; lia|].
    inversion Hall as [|? ? Hd Hds]; subst.
    pose proof (isdigit_value d Hd) as Hdv.
    cbn [scan_number app]. rewrite char_at_app, Hd.
    destruct (Z.ltb_spec (Z.of_nat (length pre))
                (Z.of_nat (length (pre ++ d :: ds ++ rest)))) as [_|Hge];
      [|rewrite length_app in Hge; cbn [length] in Hge; lia].
    cbn [andb]. cbv zeta.
    rewrite overflow_test by lia.
    change (decimal_from acc (d :: ds))
      with (decimal_from (acc * 10 + (char_code d - 48)) ds).
    destruct (Z.ltb_spec LONG_MAX (acc * 10 + (char_code d - 48)))
      as [Hov|Hfit].
    + pose proof (decimal_from_grows ds (acc * 10 + (char_code d - 48))
                    Hds ltac:(lia)) as Hg.
      destruct (Z.leb_spec (decimal_from (acc * 10 + (char_code d - 48)) ds)
                  LONG_MAX); [lia|].
      f_equal.
      replace (Z.to_nat (Z.of_nat (length (pre ++ d :: ds ++ rest))
                         - Z.of_nat (length pre)))
        with (length (d :: ds) + length rest)%nat
        by (rewrite !length_app; cbn [length]; rewrite length_app; lia).
      change (pre ++ d :: ds ++ rest) with (pre ++ (d :: ds) ++ rest).
      apply advance_while_run; [assumption| |lia].
      destruct rest; [exact I | exact Hrest].
    + replace (pre ++ d :: ds ++ rest) with ((pre ++ [d]) ++ ds ++ rest)
        by now rewrite <- app_assoc.
      replace (Z.of_nat (length pre) + 1)
        with (Z.of_nat (length (pre ++ [d])))
        by (rewrite length_app; cbn [length]; lia).
      rewrite IH; [|assumption|assumption|cbn [length] in Hf; lia|lia].
      rewrite length_app. cbn [length]. f_equal. lia.
Qed.

Lemma ends_number_stay (rest : list Ascii.ascii) :
  ends_number rest ->
  match rest with [] => True | c :: _ => isdigit c = false end.
Proof. now destruct rest. Qed.

Lemma digit_not_space c : isdigit c = true -> isspace c = false.
Proof.
  unfold isdigit, isspace. intros H. apply andb_prop in H.
  destruct H as [H1 H2]. apply Z.leb_le in H1. apply Z.leb_le in H2.
  destruct (Z.eqb_spec (char_code c) 32); [lia|].
  destruct (Z.leb_spec 9 (char_code c)), (Z.leb_spec (char_code c) 13);
    cbn; first [reflexivity | lia].
Qed.

Lemma set_ts_pos_ok ts pos :
  stream_ok ts -> 0 <= pos <= ts_len ts -> stream_ok (set_ts_pos ts pos).
Proof. unfold stream_ok. cbn. tauto. Qed.

(** The position [skip_ws] returns, from a read head inside the text. *)
Lemma skip_ws_spec src pos len :
  0 <= pos <= len ->
  let p' := skip_ws src pos len in
  pos <= p' <= len /\
  (forall k, pos <= k < p' -> isspace (char_at src k) = true) /\
  (p' < len -> isspace (char_at src p') = false).
Proof.
  intros Hpos. unfold skip_ws.
  destruct (advance_while_spec isspace src len (Z.to_nat (len - pos)) pos
              ltac:(lia)) as (H1 & H2 & H3 & H4).
  cbv zeta. split; [lia|]. split; assumption.
Qed.

(** The loop over a literal in general position: it ends inside the
    text, beyond its first digit. *)
Lemma scan_number_bounds src len : forall fuel pos acc,
  (Z.to_nat (len - pos) <= fuel)%nat -> 0 <= pos <= len ->
  pos <= snd (scan_number fuel src pos len acc) <= len /\
  (pos < len -> isdigit (char_at src pos) = true ->
   pos < snd (scan_number fuel src pos len acc)).
Proof.
  induction fuel as [|fuel IH]; intros pos acc Hf Hpos; cbn [scan_number].
  - cbn [snd]. split; [lia|]. intros Hlt. lia.
  - destruct (Z.ltb_spec pos len) as [Hlt|Hge]; cbn [andb].
    + destruct (isdigit (char_at src pos)) eqn:Hd.
      * cbv zeta.
        destruct (_ >? _).
        -- cbn [snd].
           destruct (advance_while_spec isdigit src len
                       (Z.to_nat (len - pos)) pos ltac:(lia))
             as (H1 & H2 & H3 & H4).
           cbv zeta in H1, H2, H3, H4.
           assert (Hne : advance_while isdigit (Z.to_nat (len - pos)) src
                           pos len <> pos).
           { intros E. rewrite E in H4. specialize (H4 Hlt). congruence. }
           split; [lia|]. intros _ _. lia.
        -- destruct (IH (pos + 1) (acc * 10 + (char_code (char_at src pos) - 48))
                       ltac:(lia) ltac:(lia)) as [H1 _].
           split; [lia|]. intros _ _. lia.
      * cbn [snd]. split; [lia|]. intros _ H. discriminate.
    + cbn [snd]. split; [lia|]. intros H. lia.
Qed.

End Lexer.

(** X25.  The look-ahead contract of lexer.h.  [lexer_peek] is
    idempotent: a second peek returns the same token and the same
    stream.  The [lexer_next] after a peek returns the peeked token; and
    when the cache was empty, peeking first changes nothing of what
    [lexer_next] returns or of where it leaves the read head. *)
Theorem lexer_peek_contract (ts : TokenStream) :
  let '(t, ts1) := lexer_peek ts in
  lexer_peek ts1 = (t, ts1) /\
  ts_has_current ts1 = true /\
  fst (lexer_next ts1) = t /\
  ts_pos (snd (lexer_next ts1)) = ts_pos ts1 /\
  (ts_has_current ts = false ->
   fst (lexer_next ts) = t /\
   snd (lexer_next ts1) = set_ts_cache (snd (lexer_next ts)) t false).
Proof.
  unfold lexer_peek.
  destruct (ts_has_current ts) eqn:Hc; cbn [negb].
  - unfold lexer_peek, lexer_next. rewrite Hc. cbn [negb fst snd].
    repeat split.
  - destruct (lexer_next ts) as [t ts'] eqn:Hn.
    unfold lexer_peek, lexer_next at 1 2 3. cbn [set_ts_cache ts_has_current
      ts_current negb fst snd ts_pos].
    repeat split.
Qed.

(** X26.  An integer literal is read whole and its overflow test is
    exact.  At a run of digits that the text does not continue with a
    digit, [lexer_next] consumes exactly the run; it returns a
    [TOK_NUMBER] carrying the decimal value when that value is at most
    [LONG_MAX], and [TOK_INVALID] otherwise, in both cases at the
    position of the first digit. *)
Theorem lexer_next_literal (ts : TokenStream) (pre ds rest : list Ascii.ascii)
    (Hc : ts_has_current ts = false)
    (Hsrc : ts_src ts = pre ++ ds ++ rest)
    (Hlen : ts_len ts = Z.of_nat (length (ts_src ts)))
    (Hpos : ts_pos ts = Z.of_nat (length pre))
    (Hne : ds <> [])
    (Hds : Forall (fun c => isdigit c = true) ds)
    (Hrest : ends_number rest) :
  lexer_next ts =
    (if decimal ds <=? LONG_MAX
     then make_token TOK_NUMBER (decimal ds) (ts_pos ts)
     else make_token TOK_INVALID 0 (ts_pos ts),
     set_ts_pos ts (ts_pos ts + Z.of_nat (length ds))) /\
  0 <= decimal ds.
Proof.
  split; [|apply (decimal_from_grows ds 0 Hds); lia].
  destruct ds as [|d ds']; [congruence|]. set (ds := d :: ds') in *.
  assert (Hd : isdigit d = true) by (now inversion Hds).
  assert (Hat : char_at (ts_src ts) (ts_pos ts) = d).
  { rewrite Hsrc, Hpos. apply char_at_app. }
  unfold lexer_next. rewrite Hc.
  assert (Hskip : skip_ws (ts_src ts) (ts_pos ts) (ts_len ts) = ts_pos ts).
  { apply advance_while_stay. right. rewrite Hat.
    now apply digit_not_space. }
  rewrite Hskip. cbn [set_ts_pos ts_pos ts_len ts_src].
  destruct (Z.geb_spec (ts_pos ts) (ts_len ts)) as [Hge|_].
  { subst ds. rewrite Hlen, Hsrc, Hpos, !length_app in Hge.
    cbn [length] in Hge. lia. }
  rewrite Hat, Hd.
  assert (Hrun := scan_number_run ds pre rest
                    (Z.to_nat (ts_len ts - ts_pos ts)) 0 Hds Hrest).
  rewrite <- Hsrc, <- Hlen, <- Hpos in Hrun.
  rewrite Hrun.
  - fold (decimal ds). now destruct (decimal ds <=? LONG_MAX).
  - rewrite Hlen, Hsrc, Hpos, !length_app. lia.
  - unfold LONG_MAX. lia.
Qed.

Lemma lexer_next_literal_witness :
  fst (lexer_next (lexer_init (mkStream [] 0 0 (mkToken TOK_EOF 0 0) false)
                     (String.list_ascii_of_string
                        "9223372036854775808+1"%string)))
    = make_token TOK_INVALID 0 0.
Proof.
  destruct (lexer_next_literal
    (lexer_init (mkStream [] 0 0 (mkToken TOK_EOF 0 0) false)
       (String.list_ascii_of_string "9223372036854775808+1"%string))
    []
    (String.list_ascii_of_string "9223372036854775808"%string)
    (String.list_ascii_of_string "+1"%string)
    eq_refl eq_refl eq_refl eq_refl) as [E _].
  - discriminate.
  - repeat constructor.
  - reflexivity.
  - rewrite E. reflexivity.
Defined.

(** X27.  Progress of the lexer.  From a read head inside the text and an
    empty cache, [lexer_next] skips white space only, leaves the read
    head inside the text and the cache empty, and never moves backwards;
    a token other than [TOK_EOF] starts where the white space ends and
    consumes at least one character; [TOK_EOF] is returned exactly when
    nothing but white space is left, sits at the end of the text, and is
    returned again by every later call. *)
Theorem lexer_next_progress (ts : TokenStream)
    (Hok : stream_ok ts) (Hc : ts_has_current ts = false) :
  let '(t, ts') := lexer_next ts in
  stream_ok ts' /\
  ts_src ts' = ts_src ts /\ ts_len ts' = ts_len ts /\
  ts_has_current ts' = false /\
  ts_pos ts <= tok_pos t /\
  (forall k, ts_pos ts <= k < tok_pos t ->
             isspace (char_at (ts_src ts) k) = true) /\
  (tok_type t <> TOK_EOF ->
   tok_pos t < ts_pos ts' /\
   isspace (char_at (ts_src ts) (tok_pos t)) = false) /\
  (tok_type t = TOK_EOF ->
   tok_pos t = ts_len ts /\ ts_pos ts' = ts_len ts /\
   lexer_next ts' = (t, ts')).
Proof.
  destruct Hok as [Hlen Hpos]. unfold lexer_next. rewrite Hc.
  destruct (skip_ws_spec (ts_src ts) (ts_pos ts) (ts_len ts) Hpos)
    as (Hp & Hws & Hstop).
  cbv zeta in Hp, Hws, Hstop.
  set (p1 := skip_ws (ts_src ts) (ts_pos ts) (ts_len ts)) in *.
  cbn [set_ts_pos ts_pos ts_len ts_src].
  destruct (Z.geb_spec p1 (ts_len ts)) as [Hge|Hlt].
  - (* end of text *)
    assert (Hp1 : p1 = ts_len ts) by lia.
    unfold stream_ok. cbn [make_token tok_type tok_pos set_ts_pos ts_pos
      ts_len ts_src ts_has_current].
    split; [split; [assumption | lia]|].
    split; [reflexivity|]. split; [reflexivity|]. split; [assumption|].
    split; [lia|]. split; [assumption|].
    split; [intros H; congruence|]. intros _.
    split; [assumption|]. split; [assumption|].
    rewrite Hc.
    assert (Hs : skip_ws (ts_src ts) p1 (ts_len ts) = p1).
    { apply advance_while_stay. left. lia. }
    rewrite Hs.
    destruct (Z.geb_spec p1 (ts_len ts)); [reflexivity | lia].
  - specialize (Hstop Hlt).
    destruct (isdigit (char_at (ts_src ts) p1)) eqn:Hd.
    + destruct (scan_number_bounds (ts_src ts) (ts_len ts)
                  (Z.to_nat (ts_len ts - p1)) p1 0 ltac:(lia) ltac:(lia))
        as [Hb Hadv].
      specialize (Hadv Hlt Hd).
      destruct (scan_number _ _ _ _ _) as [[v|] p2]; cbn [snd] in Hb, Hadv;
        unfold stream_ok;
        cbn [make_token tok_type tok_pos set_ts_pos ts_pos ts_len ts_src
             ts_has_current];
        (split; [split; [assumption | lia]|]);
        (split; [reflexivity|]); (split; [reflexivity|]);
        (split; [assumption|]); (split; [lia|]); (split; [assumption|]);
        (split; [intros _; split; [lia | assumption]
                | intros H; discriminate]).
    + unfold stream_ok.
      cbn [make_token tok_type tok_pos set_ts_pos ts_pos ts_len ts_src
           ts_has_current].
      split; [split; [assumption | lia]|].
      split; [reflexivity|]. split; [reflexivity|]. split; [assumption|].
      split; [lia|]. split; [assumption|].
      split; [intros _; split; [lia | assumption]|].
      unfold punct_type. intros H.
      repeat match type of H with
             | (if ?b then _ else _) = _ => destruct b; try discriminate
             end.
Qed.

Lemma lexer_next_progress_witness :
  exists t ts',
    lexer_next (lexer_init (mkStream [] 0 0 (mkToken TOK_EOF 0 0) false)
                  (String.list_ascii_of_string "  "%string)) = (t, ts') /\
    lexer_next ts' = (t, ts') /\ tok_type t = TOK_EOF.
Proof.
  assert (Hok : stream_ok
    (lexer_init (mkStream [] 0 0 (mkToken TOK_EOF 0 0) false)
       (String.list_ascii_of_string "  "%string))).
  { split; [reflexivity|]. cbn. lia. }
  pose proof (lexer_next_progress _ Hok eq_refl) as H.
  destruct (lexer_next _) as [t ts'] eqn:E in H.
  exists t, ts'. split; [exact E|].
  assert (Ht : tok_type t = TOK_EOF).
  { vm_compute in E. now injection E as <- _. }
  split; [|exact Ht].
  destruct H as (_ & _ & _ & _ & _ & _ & _ & Heof).
  exact (proj2 (proj2 (Heof Ht))).
Defined.

(** ** The parser *)

Section ParserTotal.

Lemma remaining_nonneg ts : stream_ok ts -> 0 <= remaining ts.
Proof.
  intros [_ Hpos]. unfold remaining.
  destruct (_ && _); lia.
Qed.

(** What [lexer_next] consumes. *)
Lemma lexer_next_remaining ts t ts' :
  stream_ok ts -> lexer_next ts = (t, ts') ->
  stream_ok ts' /\ ts_has_current ts' = false /\
  remaining ts' <= remaining ts /\
  (tok_type t <> TOK_EOF -> remaining ts' < remaining ts).
Proof.
  intros Hok. pose proof Hok as [Hlen Hpos].
  unfold lexer_next. destruct (ts_has_current ts) eqn:Hc.
  - intros [= <- <-]. unfold remaining, stream_ok.
    cbn [set_ts_cache ts_len ts_pos ts_src ts_has_current ts_current andb].
    rewrite Hc. cbn [andb].
    split; [split; assumption|]. split; [reflexivity|].
    destruct (tok_type (ts_current ts)); cbn [token_type_eqb negb];
      (split; [lia|]); intros H; first [lia | congruence].
  - destruct (skip_ws_spec (ts_src ts) (ts_pos ts) (ts_len ts) Hpos)
      as (Hp & _ & _).
    cbv zeta in Hp.
    set (p1 := skip_ws (ts_src ts) (ts_pos ts) (ts_len ts)) in *.
    cbn [set_ts_pos ts_pos ts_len ts_src].
    assert (Hfinal : forall t0 p2,
      p1 <= p2 <= ts_len ts -> (tok_type t0 <> TOK_EOF -> p1 < p2) ->
      stream_ok (set_ts_pos (set_ts_pos ts p1) p2) /\
      ts_has_current (set_ts_pos (set_ts_pos ts p1) p2) = false /\
      remaining (set_ts_pos (set_ts_pos ts p1) p2) <= remaining ts /\
      (tok_type t0 <> TOK_EOF ->
       remaining (set_ts_pos (set_ts_pos ts p1) p2) < remaining ts)).
    { intros t0 p2 Hp2 Hadv. unfold remaining, stream_ok.
      cbn [set_ts_pos ts_pos ts_len ts_src ts_has_current ts_current].
      rewrite Hc. cbn [andb].
      split; [split; [assumption | lia]|]. split; [reflexivity|].
      split; [lia|]. intros H. specialize (Hadv H). lia. }
    destruct (Z.geb_spec p1 (ts_len ts)) as [Hge|Hlt].
    + intros [= <- <-].
      unfold remaining, stream_ok.
      cbn [make_token tok_type set_ts_pos ts_pos ts_len ts_src
           ts_has_current ts_current].
      rewrite Hc. cbn [andb].
      split; [split; [assumption | lia]|]. split; [reflexivity|].
      split; [lia|]. intros H. congruence.
    + destruct (isdigit (char_at (ts_src ts) p1)) eqn:Hd.
      * destruct (scan_number_bounds (ts_src ts) (ts_len ts)
                    (Z.to_nat (ts_len ts - p1)) p1 0 ltac:(lia) ltac:(lia))
          as [Hb Hadv].
        specialize (Hadv Hlt Hd).
        destruct (scan_number _ _ _ _ _) as [[v|] p2];
          cbn [snd] in Hb, Hadv; intros [= <- <-];
          apply Hfinal; first [lia | intros _; lia].
      * intros [= <- <-]. apply Hfinal; first [lia | intros _; lia].
Qed.

(** A peek consumes nothing. *)
Lemma lexer_peek_remaining ts t ts' :
  stream_ok ts -> lexer_peek ts = (t, ts') ->
  stream_ok ts' /\ ts_has_current ts' = true /\ ts_current ts' = t /\
  remaining ts' <= remaining ts.
Proof.
  intros Hok. unfold lexer_peek.
  destruct (ts_has_current ts) eqn:Hc; cbn [negb].
  - intros [= <- <-]. repeat split; try assumption; try apply Hok. lia.
  - destruct (lexer_next ts) as [t1 ts1] eqn:Hn. intros [= <- <-].
    destruct (lexer_next_remaining ts t1 ts1 Hok Hn)
      as (Hok1 & Hc1 & Hle & Hlt).
    unfold remaining in *. unfold stream_ok in *.
    cbn [set_ts_cache ts_len ts_pos ts_src ts_has_current ts_current andb].
    rewrite Hc, Hc1 in *. cbn [andb] in *.
    repeat split; try apply Hok1.
    destruct (tok_type t1) eqn:Ht; cbn [token_type_eqb negb]; try lia;
      assert (TOK_EOF <> TOK_EOF -> False) by congruence;
      specialize (Hlt ltac:(congruence)); lia.
Qed.

(** The token a peek has cached is the one the next call returns. *)
Lemma lexer_next_cached ts :
  ts_has_current ts = true ->
  lexer_next ts = (ts_current ts, set_ts_cache ts (ts_current ts) false).
Proof. intros H. unfold lexer_next. now rewrite H. Qed.

(** Peek, then consume: the stream afterwards. *)
Lemma peek_next_remaining ts t ts1 t2 ts2 :
  stream_ok ts -> lexer_peek ts = (t, ts1) -> lexer_next ts1 = (t2, ts2) ->
  stream_ok ts2 /\ t2 = t /\ remaining ts2 <= remaining ts /\
  (tok_type t <> TOK_EOF -> remaining ts2 < remaining ts).
Proof.
  intros Hok Hp Hn.
  destruct (lexer_peek_remaining ts t ts1 Hok Hp) as (Hok1 & Hc1 & Ht & Hle).
  destruct (lexer_next_remaining ts1 t2 ts2 Hok1 Hn) as (Hok2 & _ & Hle2 & Hlt).
  rewrite lexer_next_cached in Hn by assumption.
  injection Hn as Ht2 _. rewrite Ht in Ht2. subst t2.
  split; [assumption|]. split; [reflexivity|]. split; [lia|].
  intros H. specialize (Hlt H). lia.
Qed.

Lemma good_production_weaken k k' f :
  k' <= k -> good_production k f -> good_production k' f.
Proof. intros Hk H p Hok Hr. apply H; [assumption | lia]. Qed.

Lemma good_loop_weaken k k' f :
  k' <= k -> good_loop k f -> good_loop k' f.
Proof. intros Hk H p l Hok Hr. apply H; [assumption | lia]. Qed.

Ltac error_return p :=
  exists None, p; split; [reflexivity|]; split; [assumption|];
  split; [reflexivity | intros Hcontra; congruence].

Lemma factor_body_good k expr :
  good_production (k - 1) expr -> good_production k (factor_body expr).
Proof.
  intros Hexpr p Hok Hk. unfold factor_body.
  destruct (p_error p) eqn:He.
  { error_return p. }
  destruct (lexer_peek (p_ts p)) as [t ts1] eqn:Hp.
  destruct (lexer_next ts1) as [t2 ts2] eqn:Hn.
  destruct (peek_next_remaining _ _ _ _ _ Hok Hp Hn) as (Hok2 & -> & Hle & Hlt).
  assert (Hdefault :
    exists r p',
      Returned (None (A := Node), parse_error (set_p_ts p ts2))
        = Returned (r, p') /\ stream_ok (p_ts p') /\
      (p_error p' = true -> r = None) /\
      (p_error p' = false ->
       is_Some r /\ remaining (p_ts p') < remaining (p_ts p))).
  { eexists _, _. split; [reflexivity|]. cbn [parse_error set_p_ts p_ts p_error].
    split; [assumption|]. split; [reflexivity|]. intros H. discriminate. }
  destruct (tok_type t) eqn:Ht; try exact Hdefault.
  - (* NUMBER *)
    eexists _, _. split; [reflexivity|]. cbn [set_p_ts p_ts p_error].
    split; [assumption|]. split; [intros H; congruence|]. intros _.
    split; [eexists; reflexivity|]. apply Hlt. discriminate.
  - (* LPAREN *)
    specialize (Hlt ltac:(discriminate)).
    destruct (Hexpr (set_p_ts p ts2)) as (r & p1 & E & Hok1 & Herr & Hgood).
    { assumption. }
    { cbn [set_p_ts p_ts]. lia. }
    rewrite E. destruct (p_error p1) eqn:He1.
    { error_return p1. }
    destruct (Hgood eq_refl) as [Hsome Hlt1]. cbn [set_p_ts p_ts] in Hlt1.
    unfold expect.
    destruct (lexer_next (p_ts p1)) as [t3 ts3] eqn:Hn3.
    destruct (lexer_next_remaining _ _ _ Hok1 Hn3) as (Hok3 & _ & Hle3 & _).
    destruct (token_type_eqb (tok_type t3) TOK_RPAREN);
      cbn [parse_error set_p_ts p_error]; try rewrite He1.
    + eexists _, _. split; [reflexivity|]. cbn [set_p_ts p_ts p_error].
      split; [assumption|]. split; [intros H; congruence|]. intros _.
      split; [assumption|]. lia.
    + eexists _, _. split; [reflexivity|]. cbn [parse_error set_p_ts p_ts p_error].
      split; [assumption|]. split; [reflexivity|]. intros H. discriminate.
Qed.

Lemma production_body_good k operand loop :
  good_production k operand -> good_loop (k - 1) loop ->
  good_production k (production_body operand loop).
Proof.
  intros Hop Hloop p Hok Hk. unfold production_body.
  destruct (p_error p) eqn:He.
  { error_return p. }
  destruct (Hop p Hok Hk) as (r & p1 & E & Hok1 & Herr & Hgood).
  rewrite E. destruct (p_error p1) eqn:He1.
  { error_return p1. }
  destruct (Hgood eq_refl) as [Hsome Hlt1].
  destruct (Hloop p1 r Hok1 ltac:(lia) He1 Hsome)
    as (r2 & p2 & E2 & Hok2 & Herr2 & Hgood2).
  exists r2, p2. split; [assumption|]. split; [assumption|].
  split; [assumption|]. intros H. destruct (Hgood2 H) as [Hs Hle].
  split; [assumption | lia].
Qed.

Lemma loop_body_good k first second o1 o2 operand again :
  first <> TOK_EOF -> second <> TOK_EOF ->
  good_production (k - 1) operand -> good_loop (k - 2) again ->
  good_loop k (loop_body_of first second o1 o2 operand again).
Proof.
  intros Hf Hs Hop Hagain p left Hok Hk He Hleft. unfold loop_body_of.
  destruct (lexer_peek (p_ts p)) as [t ts1] eqn:Hp.
  destruct (lexer_peek_remaining _ _ _ Hok Hp) as (Hok1 & Hc1 & Ht & Hle1).
  destruct (negb (token_type_eqb (tok_type t) first) &&
            negb (token_type_eqb (tok_type t) second)) eqn:Hbr.
  { eexists _, _. split; [reflexivity|]. cbn [set_p_ts p_ts p_error].
    split; [assumption|]. split; [intros H; congruence|]. intros _.
    split; [assumption | lia]. }
  assert (Hne : tok_type t <> TOK_EOF).
  { intros E. rewrite E in Hbr.
    destruct first, second; cbn in Hbr; congruence. }
  destruct (lexer_next ts1) as [t2 ts2] eqn:Hn.
  destruct (peek_next_remaining _ _ _ _ _ Hok Hp Hn) as (Hok2 & _ & _ & Hlt).
  specialize (Hlt Hne).
  destruct (Hop (set_p_ts p ts2)) as (r & p1 & E & Hokp1 & Herr & Hgood).
  { assumption. }
  { cbn [set_p_ts p_ts]. lia. }
  rewrite E. destruct (p_error p1) eqn:He1.
  { error_return p1. }
  destruct (Hgood eq_refl) as [[rn ->] Hlt1]. cbn [set_p_ts p_ts] in Hlt1.
  destruct Hleft as [ln ->]. cbn [ast_make_binary].
  destruct (Hagain p1 (Some (NODE_BINARY_OP
              (if token_type_eqb (tok_type t) first then o1 else o2) ln rn))
              Hokp1 ltac:(lia) He1 ltac:(eexists; reflexivity))
    as (r2 & p2 & E2 & Hok2' & Herr2 & Hgood2).
  exists r2, p2. split; [assumption|]. split; [assumption|].
  split; [assumption|]. intros H. destruct (Hgood2 H) as [Hs2 Hle2].
  split; [assumption | lia].
Qed.

(** With fuel three times what is left to read, every production
    returns. *)
Lemma parser_fuel_enough : forall fuel k,
  (3 * k + 1 <= Z.of_nat fuel -> good_production k (parse_factor fuel)) /\
  (3 * k + 2 <= Z.of_nat fuel -> good_production k (parse_term fuel)) /\
  (3 * k + 1 <= Z.of_nat fuel -> good_loop k (term_loop fuel)) /\
  (3 * k + 3 <= Z.of_nat fuel -> good_production k (parse_expr fuel)) /\
  (3 * k + 1 <= Z.of_nat fuel -> good_loop k (expr_loop fuel)).
Proof.
  induction fuel as [|fuel IH]; intros k.
  - repeat split; intros Hk.
    1,2,4: intros p Hok Hr; pose proof (remaining_nonneg _ Hok); lia.
    all: intros p l Hok Hr; pose proof (remaining_nonneg _ Hok); lia.
  - destruct (IH k) as (F0 & T0 & TL0 & E0 & EL0).
    destruct (IH (k - 1)) as (F1 & T1 & TL1 & E1 & EL1).
    destruct (IH (k - 2)) as (F2 & T2 & TL2 & E2 & EL2).
    repeat split; intros Hk.
    + cbn [parse_factor]. apply factor_body_good. apply E1. lia.
    + cbn [parse_term]. apply production_body_good; [apply F0 | apply TL1]; lia.
    + cbn [term_loop].
      apply loop_body_good; [discriminate | discriminate | apply F1 | apply TL2];
        lia.
    + cbn [parse_expr]. apply production_body_good; [apply T0 | apply EL1]; lia.
    + cbn [expr_loop].
      apply loop_body_good; [discriminate | discriminate | apply T1 | apply EL2];
        lia.
Qed.

End ParserTotal.

(** X28.  [parser_parse] returns on every text: the calls nest no deeper
    than three times the length of the text plus six, and the exit of
    [ast_make_binary] on a null child is never taken.  It returns a null
    root exactly when it leaves the error flag set, so the two tests
    main.c makes of its result say the same. *)
Theorem parser_parse_returns (ts : TokenStream) (src : list Ascii.ascii) :
  exists root p',
    parser_parse (parse_fuel src) (parser_init (lexer_init ts src))
      = Returned (root, p') /\
    (root = None <-> p_error p' = true).
Proof.
  set (p := parser_init (lexer_init ts src)).
  assert (Hok : stream_ok (p_ts p)).
  { unfold stream_ok. cbn. lia. }
  assert (Hrem : remaining (p_ts p) = Z.of_nat (length src)).
  { unfold remaining. cbn. lia. }
  destruct (parser_fuel_enough (parse_fuel src) (Z.of_nat (length src)))
    as (_ & _ & _ & HE & _).
  destruct (HE ltac:(unfold parse_fuel; lia) p Hok ltac:(lia))
    as (r & p1 & E & Hok1 & Herr & Hgood).
  unfold parser_parse. rewrite E.
  destruct (p_error p1) eqn:He1.
  { exists None, p1. split; [reflexivity|]. tauto. }
  destruct (Hgood eq_refl) as [[n ->] _].
  destruct (lexer_peek (p_ts p1)) as [t ts1].
  destruct (negb (token_type_eqb (tok_type t) TOK_EOF)).
  - eexists _, _. split; [reflexivity|]. cbn. tauto.
  - eexists _, _. split; [reflexivity|]. cbn [set_p_ts p_error].
    rewrite He1. split; intros H; discriminate.
Qed.

(** ** More fuel changes no result *)

Section ParserFuel.

Lemma factor_body_mono (e e' : Parser -> parsed) p r :
  (forall q x, e q = Returned x -> e' q = Returned x) ->
  factor_body e p = Returned r -> factor_body e' p = Returned r.
Proof.
  intros He. unfold factor_body.
  destruct (p_error p); [auto|].
  destruct (lexer_peek (p_ts p)) as [t ts1].
  destruct (tok_type t); auto.
  destruct (lexer_next ts1) as [t2 ts2].
  destruct (e (set_p_ts p ts2)) as [[inner p1]| |] eqn:E; try discriminate.
  now rewrite (He _ _ E).
Qed.

Lemma production_body_mono (o o' : Parser -> parsed)
    (l l' : Parser -> option Node -> parsed) p r :
  (forall q x, o q = Returned x -> o' q = Returned x) ->
  (forall q n x, l q n = Returned x -> l' q n = Returned x) ->
  production_body o l p = Returned r -> production_body o' l' p = Returned r.
Proof.
  intros Ho Hl. unfold production_body.
  destruct (p_error p); [auto|].
  destruct (o p) as [[lhs p1]| |] eqn:E; try discriminate.
  rewrite (Ho _ _ E). destruct (p_error p1); auto.
Qed.

Lemma loop_body_mono first second o1 o2 (o o' : Parser -> parsed)
    (l l' : Parser -> option Node -> parsed) p left r :
  (forall q x, o q = Returned x -> o' q = Returned x) ->
  (forall q n x, l q n = Returned x -> l' q n = Returned x) ->
  loop_body_of first second o1 o2 o l p left = Returned r ->
  loop_body_of first second o1 o2 o' l' p left = Returned r.
Proof.
  intros Ho Hl. unfold loop_body_of.
  destruct (lexer_peek (p_ts p)) as [t ts1].
  destruct (_ && _); [auto|].
  destruct (lexer_next ts1) as [t2 ts2].
  destruct (o (set_p_ts p ts2)) as [[rhs p1]| |] eqn:E; try discriminate.
  rewrite (Ho _ _ E). destruct (p_error p1); [auto|].
  destruct (ast_make_binary _ left rhs); auto.
Qed.

Lemma parser_fuel_step : forall fuel,
  (forall p r, parse_factor fuel p = Returned r ->
               parse_factor (S fuel) p = Returned r) /\
  (forall p r, parse_term fuel p = Returned r ->
               parse_term (S fuel) p = Returned r) /\
  (forall p n r, term_loop fuel p n = Returned r ->
                 term_loop (S fuel) p n = Returned r) /\
  (forall p r, parse_expr fuel p = Returned r ->
               parse_expr (S fuel) p = Returned r) /\
  (forall p n r, expr_loop fuel p n = Returned r ->
                 expr_loop (S fuel) p n = Returned r).
Proof.
  induction fuel as [|fuel (F & T & TL & E & EL)].
  - repeat split; intros; discriminate.
  - split; [|split; [|split; [|split]]].
    + intros p r. apply factor_body_mono. exact E.
    + intros p r. apply production_body_mono; assumption.
    + intros p n r. apply loop_body_mono; assumption.
    + intros p r. apply production_body_mono; assumption.
    + intros p n r. apply loop_body_mono; assumption.
Qed.

Lemma parser_fuel_mono fuel fuel' :
  (fuel <= fuel')%nat ->
  (forall p r, parse_factor fuel p = Returned r ->
               parse_factor fuel' p = Returned r) /\
  (forall p r, parse_term fuel p = Returned r ->
               parse_term fuel' p = Returned r) /\
  (forall p n r, term_loop fuel p n = Returned r ->
                 term_loop fuel' p n = Returned r) /\
  (forall p r, parse_expr fuel p = Returned r ->
               parse_expr fuel' p = Returned r) /\
  (forall p n r, expr_loop fuel p n = Returned r ->
                 expr_loop fuel' p n = Returned r).
Proof.
  induction 1 as [|fuel' Hle (F & T & TL & E & EL)]; [tauto|].
  destruct (parser_fuel_step fuel') as (F1 & T1 & TL1 & E1 & EL1).
  repeat split; eauto.
Qed.

End ParserFuel.

(** ** Parsing the text of an expression *)

Section RoundTrip.

Lemma lexer_peek_fresh ts t ts' :
  ts_has_current ts = false -> lexer_next ts = (t, ts') ->
  lexer_peek ts = (t, set_ts_cache ts' t true).
Proof. intros Hc Hn. unfold lexer_peek. now rewrite Hc, Hn. Qed.

Lemma lexer_peek_twice ts t ts1 :
  lexer_peek ts = (t, ts1) -> lexer_peek ts1 = (t, ts1).
Proof.
  unfold lexer_peek. destruct (ts_has_current ts) eqn:Hc; cbn [negb].
  - intros [= <- <-]. now rewrite Hc.
  - destruct (lexer_next ts) as [t0 ts0]. intros [= <- <-]. reflexivity.
Qed.

(** A character that is a token by itself. *)
Lemma lexer_at_punct pre c rest ts :
  at_text pre (c :: rest) ts -> isdigit c = false -> isspace c = false ->
  exists t ts1 ts2,
    lexer_peek ts = (t, ts1) /\ lexer_next ts1 = (t, ts2) /\
    tok_type t = punct_type c /\ at_text (pre ++ [c]) rest ts2.
Proof.
  intros (Hsrc & Hlen & Hpos & Hc) Hd Hs.
  assert (Hat : char_at (ts_src ts) (ts_pos ts) = c).
  { rewrite Hsrc, Hpos. apply char_at_app. }
  assert (Hn : lexer_next ts =
    (make_token (punct_type c) 0 (ts_pos ts), set_ts_pos ts (ts_pos ts + 1))).
  { unfold lexer_next. rewrite Hc.
    assert (Hskip : skip_ws (ts_src ts) (ts_pos ts) (ts_len ts) = ts_pos ts).
    { apply advance_while_stay. right. now rewrite Hat. }
    rewrite Hskip. cbn [set_ts_pos ts_pos ts_len ts_src].
    destruct (Z.geb_spec (ts_pos ts) (ts_len ts)) as [Hge|_].
    { rewrite Hlen, Hpos, length_app in Hge. cbn [length] in Hge. lia. }
    now rewrite Hat, Hd. }
  eexists _, _, _. split; [exact (lexer_peek_fresh _ _ _ Hc Hn)|].
  split; [apply lexer_next_cached; reflexivity|].
  split; [reflexivity|].
  unfold at_text.
  cbn [set_ts_cache set_ts_pos ts_src ts_len ts_pos ts_has_current].
  rewrite Hsrc, Hlen, Hpos, <- app_assoc. cbn [app].
  repeat split. rewrite length_app. cbn [length]. lia.
Qed.

(** A literal that fits. *)
Lemma lexer_at_literal pre ds rest ts :
  at_text pre (ds ++ rest) ts -> ds <> [] ->
  Forall (fun c => isdigit c = true) ds -> decimal ds <= LONG_MAX ->
  ends_number rest ->
  exists t ts1 ts2,
    lexer_peek ts = (t, ts1) /\ lexer_next ts1 = (t, ts2) /\
    tok_type t = TOK_NUMBER /\ tok_value t = decimal ds /\
    at_text (pre ++ ds) rest ts2.
Proof.
  intros (Hsrc & Hlen & Hpos & Hc) Hne Hds Hfit Hrest.
  assert (Hn : lexer_next ts =
    (make_token TOK_NUMBER (decimal ds) (ts_pos ts),
     set_ts_pos ts (ts_pos ts + Z.of_nat (length ds)))).
  { destruct ds as [|d ds'] eqn:Eds; [congruence|]. rewrite <- Eds in *.
    assert (Hd : isdigit d = true) by (rewrite Eds in Hds; now inversion Hds).
    assert (Hat : char_at (ts_src ts) (ts_pos ts) = d).
    { rewrite Hsrc, Hpos, Eds. apply char_at_app. }
    unfold lexer_next. rewrite Hc.
    assert (Hskip : skip_ws (ts_src ts) (ts_pos ts) (ts_len ts) = ts_pos ts).
    { apply advance_while_stay. right. rewrite Hat.
      now apply digit_not_space. }
    rewrite Hskip. cbn [set_ts_pos ts_pos ts_len ts_src].
    destruct (Z.geb_spec (ts_pos ts) (ts_len ts)) as [Hge|_].
    { rewrite Hlen, Hpos, Eds, !length_app in Hge. cbn [length] in Hge. lia. }
    rewrite Hat, Hd.
    assert (Hrun := scan_number_run ds pre rest
                      (Z.to_nat (ts_len ts - ts_pos ts)) 0 Hds Hrest).
    rewrite <- Hlen, <- Hsrc, <- Hpos in Hrun.
    rewrite Hrun.
    - fold (decimal ds).
      destruct (Z.leb_spec (decimal ds) LONG_MAX); [reflexivity | lia].
    - rewrite Hlen, Hpos, !length_app. lia.
    - unfold LONG_MAX. lia. }
  eexists _, _, _. split; [exact (lexer_peek_fresh _ _ _ Hc Hn)|].
  split; [apply lexer_next_cached; reflexivity|].
  split; [reflexivity|]. split; [reflexivity|].
  unfold at_text.
  cbn [set_ts_cache set_ts_pos ts_src ts_len ts_pos ts_has_current].
  rewrite Hsrc, Hlen, Hpos, <- app_assoc.
  repeat split. rewrite length_app. lia.
Qed.

(** The type of the token a peek finds before a text that starts with
    neither a digit nor white space. *)
Lemma lexer_peek_type pre rest ts :
  at_text pre rest ts ->
  match rest with
  | [] => True
  | c :: _ => isdigit c = false /\ isspace c = false
  end ->
  tok_type (fst (lexer_peek ts)) =
    match rest with [] => TOK_EOF | c :: _ => punct_type c end.
Proof.
  intros Hat Hrest. destruct rest as [|c rest].
  - destruct Hat as (Hsrc & Hlen & Hpos & Hc).
    unfold lexer_peek, lexer_next. rewrite Hc. cbn [negb].
    assert (Hskip : skip_ws (ts_src ts) (ts_pos ts) (ts_len ts) = ts_pos ts).
    { apply advance_while_stay. left.
      rewrite Hlen, Hpos, app_nil_r. lia. }
    rewrite Hskip. cbn [set_ts_pos ts_pos ts_len].
    destruct (Z.geb_spec (ts_pos ts) (ts_len ts)) as [_|Hlt]; [reflexivity|].
    rewrite Hlen, Hpos, app_nil_r in Hlt. lia.
  - destruct Hrest as [Hd Hs].
    destruct (lexer_at_punct pre c rest ts Hat Hd Hs)
      as (t & ts1 & ts2 & Hp & _ & Ht & _).
    now rewrite Hp.
Qed.

Lemma closes_not_digit rest :
  closes rest ->
  match rest with
  | [] => True
  | c :: _ => isdigit c = false /\ isspace c = false
  end.
Proof.
  destruct rest as [|c rest]; [auto|]. cbn.
  intros [-> | [-> | ->]]; split; reflexivity.
Qed.

Lemma closes_ends_number rest : closes rest -> ends_number rest.
Proof.
  intros H. apply closes_not_digit in H.
  destruct rest; [exact I | apply H].
Qed.

Lemma op_char_facts o :
  isdigit (op_char o) = false /\ isspace (op_char o) = false /\
  punct_type (op_char o) =
    match o with
    | OP_ADD => TOK_PLUS | OP_SUB => TOK_MINUS
    | OP_MUL => TOK_MUL | OP_DIV => TOK_DIV
    end.
Proof. destruct o; repeat split. Qed.

(** A loop ends when the next token is not one of its operators. *)
Lemma loop_body_break first second o1 o2 operand again p left pre rest :
  parser_at pre rest p ->
  match rest with
  | [] => first <> TOK_EOF /\ second <> TOK_EOF
  | c :: _ => isdigit c = false /\ isspace c = false /\
              punct_type c <> first /\ punct_type c <> second
  end ->
  loop_body_of first second o1 o2 operand again p left
    = Returned (left, peeked p).
Proof.
  intros [Hat He] Hrest. unfold loop_body_of, peeked.
  assert (Hty := lexer_peek_type pre rest (p_ts p) Hat).
  destruct (lexer_peek (p_ts p)) as [t ts1]. cbn [fst snd] in *.
  assert (Hno : token_type_eqb (tok_type t) first = false /\
                token_type_eqb (tok_type t) second = false).
  { destruct rest as [|c rest].
    - rewrite Hty by exact I. destruct Hrest as [H1 H2].
      destruct first, second; cbn; split; congruence.
    - destruct Hrest as (Hd & Hs & H1 & H2).
      rewrite Hty by (now split).
      destruct (punct_type c), first, second; cbn; split; congruence. }
  destruct Hno as [-> ->]. reflexivity.
Qed.

(** Entering a loop after a peek or before it comes to the same. *)
Lemma loop_body_peeked first second o1 o2 operand again p left :
  loop_body_of first second o1 o2 operand again (peeked p) left
    = loop_body_of first second o1 o2 operand again p left.
Proof.
  unfold loop_body_of, peeked. cbn [set_p_ts p_ts].
  destruct (lexer_peek (p_ts p)) as [t ts1] eqn:Hp. cbn [snd].
  now rewrite (lexer_peek_twice _ _ _ Hp).
Qed.

Lemma term_loop_peeked fuel p left :
  term_loop fuel (peeked p) left = term_loop fuel p left.
Proof. destruct fuel; [reflexivity | apply loop_body_peeked]. Qed.

Lemma expr_loop_peeked fuel p left :
  expr_loop fuel (peeked p) left = expr_loop fuel p left.
Proof. destruct fuel; [reflexivity | apply loop_body_peeked]. Qed.

End RoundTrip.

Section Reading.

Lemma max_fuel (a b : nat) : (a <= Nat.max a b)%nat /\ (b <= Nat.max a b)%nat.
Proof. lia. Qed.

(** From a factor to a term that is just this factor. *)
Lemma term_of_factor txt n :
  reads_direct parse_factor txt n ->
  reads_then ends_number parse_term term_loop txt n.
Proof.
  intros Hf pre rest p Q Hrest Hat Hk.
  destruct (Hf pre rest p Hrest Hat) as (f1 & p1 & E1 & Hat1).
  destruct (Hk p1 Hat1) as (f2 & r & E2 & HQ).
  destruct (max_fuel f1 f2) as [M1 M2].
  exists (S (Nat.max f1 f2)), r. split; [|exact HQ].
  cbn [parse_term]. unfold production_body.
  rewrite (proj2 Hat).
  rewrite (proj1 (parser_fuel_mono _ _ M1) _ _ E1).
  rewrite (proj2 Hat1).
  exact (proj1 (proj2 (proj2 (parser_fuel_mono _ _ M2))) _ _ _ E2).
Qed.

(** A term before a text that closes it is read whole. *)
Lemma term_read_whole txt n pre rest p :
  reads_then ends_number parse_term term_loop txt n ->
  closes rest -> parser_at pre (txt ++ rest) p ->
  exists fuel p1,
    parse_term fuel p = Returned (Some n, peeked p1) /\
    parser_at (pre ++ txt) rest p1.
Proof.
  intros Ht Hc Hat.
  destruct (Ht pre rest p
              (fun r => exists p1, r = (Some n, peeked p1) /\
                                   parser_at (pre ++ txt) rest p1)
              (closes_ends_number _ Hc) Hat) as (f & r & E & p1 & -> & Hat1).
  - intros p' Hat'. exists 1%nat. eexists. split; [|exists p'; eauto].
    cbn [term_loop]. apply (loop_body_break _ _ _ _ _ _ _ _ _ _ Hat').
    pose proof (closes_not_digit _ Hc) as Hnd.
    destruct rest as [|c rest]; [split; discriminate|].
    destruct Hnd as [Hd Hs]. split; [assumption|]. split; [assumption|].
    cbn in Hc. destruct Hc as [-> | [-> | ->]]; split; discriminate.
  - now exists f, p1.
Qed.

(** From a term to an expression that is just this term. *)
Lemma expr_of_term txt n :
  reads_then ends_number parse_term term_loop txt n ->
  reads_then closes parse_expr expr_loop txt n.
Proof.
  intros Ht pre rest p Q Hc Hat Hk.
  destruct (term_read_whole txt n pre rest p Ht Hc Hat)
    as (f1 & p1 & E1 & Hat1).
  destruct (Hk p1 Hat1) as (f2 & r & E2 & HQ).
  destruct (max_fuel f1 f2) as [M1 M2].
  exists (S (Nat.max f1 f2)), r. split; [|exact HQ].
  cbn [parse_expr]. unfold production_body.
  rewrite (proj2 Hat).
  rewrite (proj1 (proj2 (parser_fuel_mono _ _ M1)) _ _ E1).
  change (p_error (peeked p1)) with (p_error p1). rewrite (proj2 Hat1).
  rewrite expr_loop_peeked.
  exact (proj2 (proj2 (proj2 (proj2 (parser_fuel_mono _ _ M2)))) _ _ _ E2).
Qed.

(** An expression in parentheses is a factor. *)
Lemma factor_of_expr txt n :
  reads_then closes parse_expr expr_loop txt n ->
  reads_direct parse_factor ("("%char :: txt ++ [")"%char]) n.
Proof.
  intros He pre rest p Hrest [Hat Herr].
  change (("("%char :: txt ++ [")"%char]) ++ rest)
    with ("("%char :: (txt ++ [")"%char]) ++ rest) in Hat.
  rewrite <- app_assoc in Hat. cbn [app] in Hat.
  destruct (lexer_at_punct pre "("%char (txt ++ ")"%char :: rest) (p_ts p) Hat
              eq_refl eq_refl) as (t & ts1 & ts2 & Hp & Hn & Ht & Hat2).
  destruct (He (pre ++ ["("%char]) (")"%char :: rest) (set_p_ts p ts2)
              (fun r => exists p1, r = (Some n, peeked p1) /\
                 parser_at ((pre ++ ["("%char]) ++ txt) (")"%char :: rest) p1))
    as (f & r & E & p1 & -> & Hat1).
  - cbn. auto.
  - split; [exact Hat2 | exact Herr].
  - intros p' Hat'. exists 1%nat. eexists. split; [|exists p'; eauto].
    cbn [expr_loop]. apply (loop_body_break _ _ _ _ _ _ _ _ _ _ Hat').
    repeat split; discriminate.
  - destruct Hat1 as [Hat1 Herr1].
    destruct (lexer_at_punct _ ")"%char rest (p_ts p1) Hat1 eq_refl eq_refl)
      as (t' & ts1' & ts2' & Hp' & Hn' & Ht' & Hat2').
    exists (S f). eexists. split.
    + cbn [parse_factor]. unfold factor_body.
      rewrite Herr, Hp, Ht. cbn [punct_type Ascii.eqb]. cbn.
      rewrite Hn, E.
      change (p_error (peeked p1)) with (p_error p1). rewrite Herr1.
      unfold expect, peeked. cbn [set_p_ts p_ts]. rewrite Hp'. cbn [snd].
      rewrite Hn', Ht'. cbn. rewrite Herr1. reflexivity.
    + split; [|exact Herr1]. cbn [set_p_ts p_ts].
      replace (pre ++ "("%char :: txt ++ [")"%char])
        with (((pre ++ ["("%char]) ++ txt) ++ [")"%char]).
      * exact Hat2'.
      * rewrite <- !app_assoc. reflexivity.
Qed.

(** One more round of the loop of [parse_term]. *)
Lemma term_of_product o tl nl tr nr :
  prec o = 1%nat ->
  reads_then ends_number parse_term term_loop tl nl ->
  reads_direct parse_factor tr nr ->
  reads_then ends_number parse_term term_loop
    (tl ++ op_char o :: tr) (NODE_BINARY_OP o nl nr).
Proof.
  intros Ho Hl Hr pre rest p Q Hrest Hat Hk.
  destruct (op_char_facts o) as (Hd & Hs & Hty).
  rewrite <- app_assoc in Hat. cbn [app] in Hat.
  apply (Hl pre (op_char o :: tr ++ rest) p Q); [exact Hd | exact Hat |].
  intros p' [Hat' Herr'].
  destruct (lexer_at_punct _ _ _ _ Hat' Hd Hs)
    as (t & ts1 & ts2 & Hp & Hn & Ht & Hat2).
  destruct (Hr ((pre ++ tl) ++ [op_char o]) rest (set_p_ts p' ts2) Hrest)
    as (f1 & p1 & E1 & Hat1); [split; [exact Hat2 | exact Herr']|].
  destruct (Hk p1) as (f2 & r & E2 & HQ).
  { replace (pre ++ tl ++ op_char o :: tr)
      with (((pre ++ tl) ++ [op_char o]) ++ tr); [exact Hat1|].
    rewrite <- !app_assoc. reflexivity. }
  destruct (max_fuel f1 f2) as [M1 M2].
  exists (S (Nat.max f1 f2)), r. split; [|exact HQ].
  cbn [term_loop]. unfold loop_body_of. rewrite Hp, Ht, Hty, Hn.
  rewrite (proj1 (parser_fuel_mono _ _ M1) _ _ E1).
  rewrite (proj2 Hat1).
  destruct o; try discriminate; cbn [token_type_eqb negb andb ast_make_binary];
    exact (proj1 (proj2 (proj2 (parser_fuel_mono _ _ M2))) _ _ _ E2).
Qed.

(** One more round of the loop of [parse_expr]. *)
Lemma expr_of_sum o tl nl tr nr :
  prec o = 0%nat ->
  reads_then closes parse_expr expr_loop tl nl ->
  reads_then ends_number parse_term term_loop tr nr ->
  reads_then closes parse_expr expr_loop
    (tl ++ op_char o :: tr) (NODE_BINARY_OP o nl nr).
Proof.
  intros Ho Hl Hr pre rest p Q Hrest Hat Hk.
  destruct (op_char_facts o) as (Hd & Hs & Hty).
  rewrite <- app_assoc in Hat. cbn [app] in Hat.
  apply (Hl pre (op_char o :: tr ++ rest) p Q); [|exact Hat|].
  { destruct o; try discriminate; cbn; auto. }
  intros p' [Hat' Herr'].
  destruct (lexer_at_punct _ _ _ _ Hat' Hd Hs)
    as (t & ts1 & ts2 & Hp & Hn & Ht & Hat2).
  destruct (term_read_whole tr nr ((pre ++ tl) ++ [op_char o]) rest
              (set_p_ts p' ts2) Hr Hrest)
    as (f1 & p1 & E1 & Hat1); [split; [exact Hat2 | exact Herr']|].
  destruct (Hk p1) as (f2 & r & E2 & HQ).
  { replace (pre ++ tl ++ op_char o :: tr)
      with (((pre ++ tl) ++ [op_char o]) ++ tr); [exact Hat1|].
    rewrite <- !app_assoc. reflexivity. }
  destruct (max_fuel f1 f2) as [M1 M2].
  exists (S (Nat.max f1 f2)), r. split; [|exact HQ].
  cbn [expr_loop]. unfold loop_body_of. rewrite Hp, Ht, Hty, Hn.
  rewrite (proj1 (proj2 (parser_fuel_mono _ _ M1)) _ _ E1).
  change (p_error (peeked p1)) with (p_error p1). rewrite (proj2 Hat1).
  destruct o; try discriminate; cbn [token_type_eqb negb andb ast_make_binary];
    rewrite expr_loop_peeked;
    exact (proj2 (proj2 (proj2 (proj2 (parser_fuel_mono _ _ M2)))) _ _ _ E2).
Qed.

(** A literal is a factor. *)
Lemma factor_of_literal ds :
  lits_ok (Lit ds) -> reads_direct parse_factor ds (NODE_NUMBER (decimal ds)).
Proof.
  intros (Hne & Hds & Hfit) pre rest p Hrest [Hat Herr].
  destruct (lexer_at_literal pre ds rest (p_ts p) Hat Hne Hds Hfit Hrest)
    as (t & ts1 & ts2 & Hp & Hn & Ht & Hv & Hat2).
  exists 1%nat. eexists. split.
  - cbn [parse_factor]. unfold factor_body.
    rewrite Herr, Hp, Ht, Hn, Hv. reflexivity.
  - split; [exact Hat2 | exact Herr].
Qed.

(** The text of an expression is read at each level of the grammar as
    the tree it stands for. *)
Lemma show_reads e :
  lits_ok e ->
  reads_direct parse_factor (show 2 e) (ast_of e) /\
  reads_then ends_number parse_term term_loop (show 1 e) (ast_of e) /\
  reads_then closes parse_expr expr_loop (show 0 e) (ast_of e).
Proof.
  induction e as [ds | o l IHl r IHr]; intros Hok.
  - cbn [show ast_of].
    pose proof (factor_of_literal ds Hok) as Hf.
    pose proof (term_of_factor _ _ Hf) as Ht.
    split; [exact Hf|]. split; [exact Ht|]. now apply expr_of_term.
  - destruct Hok as [Hl Hr].
    destruct (IHl Hl) as (Fl & Tl & El). destruct (IHr Hr) as (Fr & Tr & Er).
    destruct o; cbn [show ast_of prec Nat.leb].
    + pose proof (expr_of_sum OP_ADD _ _ _ _ eq_refl El Tr) as He.
      pose proof (factor_of_expr _ _ He) as Hf.
      split; [exact Hf|]. split; [now apply term_of_factor | exact He].
    + pose proof (expr_of_sum OP_SUB _ _ _ _ eq_refl El Tr) as He.
      pose proof (factor_of_expr _ _ He) as Hf.
      split; [exact Hf|]. split; [now apply term_of_factor | exact He].
    + pose proof (term_of_product OP_MUL _ _ _ _ eq_refl Tl Fr) as Ht.
      pose proof (expr_of_term _ _ Ht) as He.
      split; [now apply factor_of_expr|]. split; [exact Ht | exact He].
    + pose proof (term_of_product OP_DIV _ _ _ _ eq_refl Tl Fr) as Ht.
      pose proof (expr_of_term _ _ Ht) as He.
      split; [now apply factor_of_expr|]. split; [exact Ht | exact He].
Qed.

End Reading.

(** X29.  Printing and parsing are inverse.  [show 0 e] writes an
    expression with the parentheses the grammar needs and no others
    (left operands at the level of their operator, right operands one
    level up).  [parser_parse] on that text returns, without error,
    exactly the tree of [e]: so [*] and [/] bind tighter than [+] and
    [-], operators of one level associate to the left, parentheses
    override both, and a literal stands for its decimal value. *)
Theorem parse_show_roundtrip (e : Expr) (ts : TokenStream)
    (Hok : lits_ok e) :
  exists p',
    parser_parse (parse_fuel (show 0 e))
      (parser_init (lexer_init ts (show 0 e)))
      = Returned (Some (ast_of e), p') /\
    p_error p' = false.
Proof.
  set (src := show 0 e).
  set (p0 := parser_init (lexer_init ts src)).
  assert (Hat0 : parser_at [] (src ++ []) p0).
  { split; [|reflexivity]. unfold at_text. cbn.
    rewrite app_nil_r. repeat split. }
  destruct (show_reads e Hok) as (_ & _ & He).
  destruct (He [] [] p0
              (fun r => exists p1, r = (Some (ast_of e), peeked p1) /\
                                   parser_at src [] p1) I Hat0)
    as (f & r & E & p1 & -> & Hat1 & Herr1).
  { intros p' Hat'. exists 1%nat. eexists. split; [|exists p'; eauto].
    cbn [expr_loop]. apply (loop_body_break _ _ _ _ _ _ _ _ _ _ Hat').
    split; discriminate. }
  assert (Hstream : stream_ok (p_ts p0)).
  { unfold stream_ok. cbn. lia. }
  destruct (parser_fuel_enough (parse_fuel src) (Z.of_nat (length src)))
    as (_ & _ & _ & HE & _).
  destruct (HE ltac:(unfold parse_fuel; lia) p0 Hstream
              ltac:(unfold remaining; cbn; lia))
    as (r2 & p2 & E2 & _).
  destruct (max_fuel f (parse_fuel src)) as [M1 M2].
  pose proof (proj1 (proj2 (proj2 (proj2 (parser_fuel_mono _ _ M1)))) _ _ E)
    as E'.
  rewrite (proj1 (proj2 (proj2 (proj2 (parser_fuel_mono _ _ M2)))) _ _ E2)
    in E'.
  injection E' as -> ->.
  unfold parser_parse. rewrite E2.
  change (p_error (peeked p1)) with (p_error p1). rewrite Herr1.
  pose proof (lexer_peek_type src [] (p_ts p1) Hat1 I) as Hty.
  unfold peeked. cbn [set_p_ts p_ts].
  destruct (lexer_peek (p_ts p1)) as [t ts1] eqn:Hp. cbn [fst snd] in *.
  rewrite (lexer_peek_twice _ _ _ Hp), Hty. cbn [token_type_eqb negb].
  eexists. split; [reflexivity|]. exact Herr1.
Qed.

Lemma parse_show_roundtrip_witness :
  exists p',
    parser_parse
      (parse_fuel (String.list_ascii_of_string "8-3-2*(1+4)"%string))
      (parser_init
         (lexer_init (mkStream [] 0 0 (mkToken TOK_EOF 0 0) false)
            (String.list_ascii_of_string "8-3-2*(1+4)"%string)))
      = Returned
          (Some
             (NODE_BINARY_OP OP_SUB
                (NODE_BINARY_OP OP_SUB (NODE_NUMBER 8) (NODE_NUMBER 3))
                (NODE_BINARY_OP OP_MUL (NODE_NUMBER 2)
                   (NODE_BINARY_OP OP_ADD (NODE_NUMBER 1) (NODE_NUMBER 4)))),
           p') /\
    p_error p' = false.
Proof.
  apply (parse_show_roundtrip
    (Bin OP_SUB
       (Bin OP_SUB (Lit ["8"%char]) (Lit ["3"%char]))
       (Bin OP_MUL (Lit ["2"%char])
          (Bin OP_ADD (Lit ["1"%char]) (Lit ["4"%char]))))
    (mkStream [] 0 0 (mkToken TOK_EOF 0 0) false)).
  cbn [lits_ok].
  repeat match goal with
         | |- _ /\ _ => split
         | |- _ <> [] => discriminate
         | |- Forall _ _ => repeat constructor
         | |- decimal _ <= LONG_MAX => vm_compute; discriminate
         end.
Defined.

(** ** The pipeline of main.c *)

Section Main.






End Main.

